(** * CF-profile-analyzer: the data-derivation pipeline of [script.js]

    A shallow embedding of the pure core of [script.js] (submission
    normalizer, statistics aggregator, history filters, comparison
    correlator) and of its query client ([fetchWithRetry], [analyzeUser],
    [compareUsers]), followed by the properties the specification states
    about them.

    Conventions of the embedding:
    - JS arrays are lists; where aliasing or mutation matters they live in a
      [heap] of objects addressed by references;
    - the plain objects [levels] and [tags], whose keys are strings, are
      lists of own properties in the order of their creation, read and
      written through [Object.prototype] as the language does; the object
      [ratings], whose keys are numbers, is a [gmap];
    - JS numbers that the program only uses as integers (identifiers, ranks,
      ratings, epoch seconds, counters) are [Z] or [nat];
    - strings are sequences of bytes, the UTF-8 encoding of the text;
      [toLowerCase] acts on the ASCII letters, and [length] counts UTF-16
      code units;
    - the network and the clock are explicit arguments; of what the program
      draws on the page, the data handed to the charts, the rows of the
      contest table and the session variables are modelled, the document
      and the chart library are left out. *)

From Stdlib Require Import Ascii.
From stdpp Require Import gmap strings list fin_maps pretty sorting.

Open Scope string_scope.
Open Scope list_scope.

(* ===================================================================== *)
(** * JavaScript strings and numbers *)
(* ===================================================================== *)

(** [String(n)] for an integer [n]: decimal digits, with a leading minus
    sign for negative numbers. *)
Definition numberToString (n : Z) : string := pretty n.

(** [c.toLowerCase()] on one ASCII character: the letters A..Z are moved
    to a..z, every other character is kept. *)
Definition toLowerCase_char (c : ascii) : ascii :=
  let n := N_of_ascii c in
  if ((65 <=? n) && (n <=? 90))%N then ascii_of_N (n + 32) else c.

(** [s.toLowerCase()], character by character. *)
Fixpoint toLowerCase (s : string) : string :=
  match s with
  | EmptyString => EmptyString
  | String c r => String (toLowerCase_char c) (toLowerCase r)
  end.

(** [s.startsWith(p)]. *)
Fixpoint startsWith (s p : string) : bool :=
  match p, s with
  | EmptyString, _ => true
  | String _ _, EmptyString => false
  | String a p', String b s' => bool_decide (a = b) && startsWith s' p'
  end.

(** [s.includes(sub)]: [sub] occurs in [s] at some position. *)
Fixpoint includes (s sub : string) : bool :=
  startsWith s sub ||
  match s with
  | EmptyString => false
  | String _ r => includes r sub
  end.

(** [!s || s.trim() === ''] : [s] is empty, or every character of [s] is
    white space (tab, line feed, vertical tab, form feed, carriage return,
    space). *)
Fixpoint isBlank (s : string) : bool :=
  match s with
  | EmptyString => true
  | String c r => Ascii.is_space c && isBlank r
  end.

(* ===================================================================== *)
(** * Data model: the objects returned by the remote API *)
(* ===================================================================== *)

(** [submission.problem]. [contestId] may be absent from the API's answer
    (it is then [undefined]); [rating] is optional as well. *)
Record Problem := {
  contestId : option Z;
  index : string;
  rating : option Z;
  tags : list string
}.

(** One entry of [user.status]. A [verdict] that is absent (a submission
    still in the queue) is any text other than ["OK"] here. *)
Record Submission := {
  creationTimeSeconds : Z;
  problem : Problem;
  verdict : string
}.

(** One entry of [user.rating]. *)
Module RC.
Record t := {
  contestId : Z;
  contestName : string;
  rank : Z;
  oldRating : Z;
  newRating : Z;
  ratingUpdateTimeSeconds : Z
}.
End RC.
Abbreviation RatingChange := RC.t.

(** The element of [user.info]. *)
Module User.
Record t := {
  handle : string;
  rank : option string;
  rating : option Z;
  maxRating : option Z
}.
End User.
Abbreviation UserProfile := User.t.

Global Instance Problem_eq_dec : EqDecision Problem.
Proof. solve_decision. Defined.
Global Instance Submission_eq_dec : EqDecision Submission.
Proof. solve_decision. Defined.
Global Instance RatingChange_eq_dec : EqDecision RatingChange.
Proof. solve_decision. Defined.

(* ===================================================================== *)
(** * Submission normalizer *)
(* ===================================================================== *)

(** The template literal [`${x}`] for an optional number. *)
Definition interpolate (x : option Z) : string :=
  match x with
  | Some n => numberToString n
  | None => "undefined"
  end.

(** [`${sub.problem.contestId}-${sub.problem.index}`] *)
Definition problemKey (sub : Submission) : string :=
  interpolate (contestId (problem sub)) +:+ "-" +:+ index (problem sub).

(** A JS [Map] with string keys: the entries in insertion order. *)
Definition JsMap (V : Type) : Type := list (string * V).

Definition Map_has {V} (m : JsMap V) (k : string) : bool :=
  bool_decide (k ∈ m.*1).

(** [m.set(k, v)]: an existing key keeps its position and takes the new
    value, a new key is appended. *)
Fixpoint Map_set {V} (m : JsMap V) (k : string) (v : V) : JsMap V :=
  match m with
  | [] => [(k, v)]
  | (k', v') :: r => if decide (k' = k) then (k', v) :: r
                     else (k', v') :: Map_set r k v
  end.

(** [Array.from(m.values())] *)
Definition Map_values {V} (m : JsMap V) : list V := m.*2.

(** The body of the [forEach] callback of [processSubmissions]. *)
Definition recordProblem (uniqueProblems : JsMap Submission) (sub : Submission)
  : JsMap Submission :=
  let problemKey := problemKey sub in
  if negb (Map_has uniqueProblems problemKey)
  then Map_set uniqueProblems problemKey sub
  else uniqueProblems.

Definition processSubmissions (submissions : list Submission) : list Submission :=
  let acceptedSubmissions := filter (λ sub, verdict sub = "OK") submissions in
  let uniqueProblems := foldl recordProblem [] acceptedSubmissions in
  Map_values uniqueProblems.

(** The specification's notion of "same problem": equal ProblemKey
    [(contestId, index)]. *)
Definition sameProblem (a b : Submission) : Prop :=
  contestId (problem a) = contestId (problem b) ∧
  index (problem a) = index (problem b).

(** The first accepted submission of the problem with key [k] in
    [submissions], with its position. *)
Definition firstAccepted (k : string) (submissions : list Submission)
  : option (nat * Submission) :=
  list_find (λ sub, verdict sub = "OK" ∧ problemKey sub = k) submissions.

(* ===================================================================== *)
(** * Statistics aggregator *)
(* ===================================================================== *)

(** [counts[k] = (counts[k] || 0) + 1] on an object whose keys are
    numbers, none of which is the name of an inherited member. A missing
    property reads [undefined], and [undefined || 0] as well as [0 || 0]
    is [0]. *)
Definition increment `{Countable K} (counts : gmap K nat) (k : K) : gmap K nat :=
  <[k := default 0 (counts !! k) + 1]> counts.

(** ** Plain objects with strings for keys

    [levels] and [tags] are created as [{}], so they inherit the members of
    [Object.prototype]. *)

(** The names every object inherits from [Object.prototype]. *)
Definition inheritedNames : list string :=
  ["constructor"; "hasOwnProperty"; "isPrototypeOf"; "propertyIsEnumerable";
   "toLocaleString"; "toString"; "valueOf"; "__proto__";
   "__defineGetter__"; "__defineSetter__"; "__lookupGetter__"; "__lookupSetter__"].

(** What a counter of [levels] or [tags] holds: a number, or the string
    made of the text of the member inherited under [name] followed by
    [ones] characters ["1"]. *)
Inductive Counter :=
  | Count (n : nat)
  | MemberText (name : string) (ones : nat).

Global Instance Counter_eq_dec : EqDecision Counter.
Proof. solve_decision. Defined.

(** The own properties of a plain object, in the order of their creation. *)
Abbreviation PlainObject := (list (string * Counter)).

Fixpoint getOwn (object : PlainObject) (key : string) : option Counter :=
  match object with
  | [] => None
  | (k, value) :: rest => if decide (k = key) then Some value else getOwn rest key
  end.

(** An own property keeps its place when it is written again; a new one
    comes last. *)
Fixpoint setOwn (object : PlainObject) (key : string) (value : Counter) : PlainObject :=
  match object with
  | [] => [(key, value)]
  | (k, old) :: rest =>
      if decide (k = key) then (k, value) :: rest
      else (k, old) :: setOwn rest key value
  end.

(** What [object[key]] reads: an own property, else the member inherited
    under that name, else [undefined]. *)
Inductive ReadValue :=
  | OwnValue (value : Counter)
  | Member (name : string)
  | Undefined.

Definition readProperty (object : PlainObject) (key : string) : ReadValue :=
  match getOwn object key with
  | Some value => OwnValue value
  | None => if decide (key ∈ inheritedNames) then Member key else Undefined
  end.

(** [(value || 0) + 1]. A number gives the next number ([0] is falsy, and
    [0 + 1] is [1] as well); an inherited member is an object or a
    function, which is truthy, and adding [1] to it gives its text followed
    by ["1"]; such a string is truthy too, and adding [1] appends ["1"]. *)
Definition plusOne (value : ReadValue) : Counter :=
  match value with
  | OwnValue (Count n) => Count (n + 1)
  | OwnValue (MemberText name ones) => MemberText name (ones + 1)
  | Member name => MemberText name 1
  | Undefined => Count 1
  end.

(** [object[key] = value] for a number or a string [value]: on an object
    without an own property [__proto__] the assignment to [__proto__] goes
    to the inherited setter, which ignores what is not an object. *)
Definition writeProperty (object : PlainObject) (key : string) (value : Counter)
  : PlainObject :=
  if decide (key = "__proto__" ∧ getOwn object key = None) then object
  else setOwn object key value.

(** [object[key] = (object[key] || 0) + 1] *)
Definition incrementProperty (object : PlainObject) (key : string) : PlainObject :=
  writeProperty object key (plusOne (readProperty object key)).

(** The object returned by [calculateProblemStats]. *)
Module Stats.
Record t := {
  levels : PlainObject;
  ratings : gmap Z nat;
  tags : PlainObject
}.
End Stats.
Abbreviation ProblemStats := Stats.t.

(** [Math.floor(rating / 100) * 100]; [Z.div] rounds towards minus
    infinity, as [Math.floor] does. *)
Definition ratingBucket (rating : Z) : Z := ((rating / 100) * 100)%Z.

(** The truthiness test [if (sub.problem.rating)]: the property is present
    and is not [0]. *)
Definition truthyRating (r : option Z) : option Z :=
  match r with
  | Some n => if decide (n = 0%Z) then None else Some n
  | None => None
  end.

(** The [forEach] callback of [calculateProblemStats], on the three
    dictionaries. *)
Definition countSubmission (st : ProblemStats) (sub : Submission) : ProblemStats :=
  let level := index (problem sub) in
  let levels := incrementProperty (Stats.levels st) level in
  let ratings :=
    match truthyRating (rating (problem sub)) with
    | Some r => increment (Stats.ratings st) (ratingBucket r)
    | None => Stats.ratings st
    end in
  let tags := foldl incrementProperty (Stats.tags st) (tags (problem sub)) in
  {| Stats.levels := levels; Stats.ratings := ratings; Stats.tags := tags |}.

Definition calculateProblemStats (acceptedSubmissions : list Submission) : ProblemStats :=
  foldl countSubmission
        {| Stats.levels := []; Stats.ratings := ∅; Stats.tags := [] |}
        acceptedSubmissions.

(** The number a counter holds; a counter that holds a string has none. *)
Definition numberOf (value : Counter) : option nat :=
  match value with
  | Count n => Some n
  | MemberText _ _ => None
  end.

(** The number held under [key], [0] when there is none. *)
Definition counterOf (object : PlainObject) (key : string) : nat :=
  default 0 (getOwn object key ≫= numberOf).

(** The sum of the counters of [levels] or [tags] that hold a number. *)
Definition totalOf (object : PlainObject) : nat :=
  sum_list (omap (λ property, numberOf property.2) object).

(** The sum of all the counters of a histogram. *)
Definition totalCount `{Countable K} (counts : gmap K nat) : nat :=
  map_fold (λ _ n acc, n + acc) 0 counts.

(** The counter of one key, [0] when the key has no counter. *)
Definition countOf `{Countable K} (counts : gmap K nat) (k : K) : nat :=
  default 0 (counts !! k).

(** ** Contest statistics *)

(** A field of the contest statistics: a number, or a text. *)
Inductive StatValue :=
  | StatNumber (n : Z)
  | StatText (s : string).

Record ContestStats := {
  attended : nat;
  bestRank : StatValue;
  avgRating : StatValue
}.

(** [Math.min(x, ...xs)] on at least one integer. *)
Definition Math_min (x : Z) (xs : list Z) : Z := foldl Z.min x xs.

(** [Math.round(total / count)] for integers [total] and [count > 0]:
    [Math.round] takes the nearest integer and rounds a tie upwards, that is
    [floor (total / count + 1/2)]. The quotient is computed exactly here; in
    the program it is a double, which gives the same integer as long as
    [|total| < 2^52]. *)
Definition Math_round_div (total count : Z) : Z :=
  ((2 * total + count) / (2 * count))%Z.

(** [ratingHistory.reduce((sum, contest) => sum + contest.newRating, 0)] *)
Definition sumNewRating (ratingHistory : list RatingChange) : Z :=
  foldl (λ sum contest, (sum + RC.newRating contest)%Z) 0%Z ratingHistory.

Definition calculateContestStats (ratingHistory : list RatingChange) : ContestStats :=
  match ratingHistory with
  | [] => {| attended := 0; bestRank := StatText "-"; avgRating := StatText "-" |}
  | contest :: rest =>
      let attended := length ratingHistory in
      let bestRank := Math_min (RC.rank contest) (RC.rank <$> rest) in
      let avgRating := Math_round_div (sumNewRating ratingHistory) (Z.of_nat attended) in
      {| attended := attended;
         bestRank := StatNumber bestRank;
         avgRating := StatNumber avgRating |}
  end.

(* ===================================================================== *)
(** * History filters, on the contents of the arrays *)
(* ===================================================================== *)

(** The window of a time-frame label, in seconds; [None] for a label the
    [switch] does not know (its [default] branch). *)
Definition timeWindow (timeFrame : string) : option Z :=
  if decide (timeFrame = "1Y") then Some (365 * 24 * 60 * 60)%Z
  else if decide (timeFrame = "6M") then Some (6 * 30 * 24 * 60 * 60)%Z
  else None.

(** [contest.ratingUpdateTimeSeconds >= cutoffTime] where
    [cutoffTime = Date.now() / 1000 - window]; [nowMs] is the clock reading
    [Date.now()] in milliseconds, and both sides are scaled by 1000. *)
Definition withinWindow (nowMs window : Z) (contest : RatingChange) : bool :=
  bool_decide (nowMs - 1000 * window ≤ 1000 * RC.ratingUpdateTimeSeconds contest)%Z.

Definition filterRatingHistoryByTime (nowMs : Z)
    (ratingHistory : list RatingChange) (timeFrame : string) : list RatingChange :=
  if bool_decide (length ratingHistory = 0) || bool_decide (timeFrame = "All")
  then ratingHistory
  else match timeWindow timeFrame with
       | Some window => filter (λ contest, withinWindow nowMs window contest) ratingHistory
       | None => ratingHistory
       end.

(** The callback of [filterContestsByType]: the [switch] on the label. *)
Definition matchesContestType (contestType : string) (contest : RatingChange) : bool :=
  let contestName := toLowerCase (RC.contestName contest) in
  if decide (contestType = "Div. 1") then
    includes contestName "div. 1" && negb (includes contestName "div. 2")
  else if decide (contestType = "Div. 2") then includes contestName "div. 2"
  else if decide (contestType = "Div. 3") then includes contestName "div. 3"
  else if decide (contestType = "Educational") then includes contestName "educational"
  else true.

Definition filterContestsByType
    (ratingHistory : list RatingChange) (contestType : string) : list RatingChange :=
  if bool_decide (length ratingHistory = 0) || bool_decide (contestType = "All")
  then ratingHistory
  else filter (λ contest, matchesContestType contestType contest) ratingHistory.

(* ===================================================================== *)
(** * Arrays and Sets as objects: references, aliasing, allocation *)
(* ===================================================================== *)

(** A reference to an object of the JS heap. *)
Definition ref := nat.

(** The objects the pipeline handles: arrays of API records, arrays of
    strings and numbers, and [Set]s of strings and numbers. *)
Inductive JsObject :=
  | RatingArray (items : list RatingChange)
  | SubmissionArray (items : list Submission)
  | StringArray (items : list string)
  | NumberArray (items : list Z)
  | StringSet (members : gset string)
  | NumberSet (members : gset Z).

Abbreviation heap := (gmap ref JsObject).

(** A computation on the heap; [None] is a [TypeError] (a method called on
    an object that has not got it). *)
Definition Run (A : Type) : Type := heap → option (A * heap).

Global Instance Run_ret : MRet Run := λ A (a : A) h, Some (a, h).
Global Instance Run_bind : MBind Run := λ A B (f : A → Run B) (m : Run A) h,
  match m h with
  | Some (a, h') => f a h'
  | None => None
  end.

(** Every array literal, [new Set], [.map], [.filter] and spread creates a
    new object. *)
Definition allocate (o : JsObject) : Run ref := λ h,
  let r := fresh (dom h) in Some (r, <[r := o]> h).

Definition readObject (r : ref) : Run JsObject := λ h,
  match h !! r with
  | Some o => Some (o, h)
  | None => None
  end.

Definition typeError {A} : Run A := λ _, None.

Definition readRatingArray (r : ref) : Run (list RatingChange) :=
  o ← readObject r;
  match o with RatingArray items => mret items | _ => typeError end.

Definition readSubmissionArray (r : ref) : Run (list Submission) :=
  o ← readObject r;
  match o with SubmissionArray items => mret items | _ => typeError end.

Definition readStringArray (r : ref) : Run (list string) :=
  o ← readObject r;
  match o with StringArray items => mret items | _ => typeError end.

Definition readNumberArray (r : ref) : Run (list Z) :=
  o ← readObject r;
  match o with NumberArray items => mret items | _ => typeError end.

Definition readStringSet (r : ref) : Run (gset string) :=
  o ← readObject r;
  match o with StringSet members => mret members | _ => typeError end.

Definition readNumberSet (r : ref) : Run (gset Z) :=
  o ← readObject r;
  match o with NumberSet members => mret members | _ => typeError end.

(** ** The history filters on references

    Both filters hand back the very array they were given when they return
    early, and a new array made by [Array.prototype.filter] otherwise. *)

Definition filterRatingHistoryByTimeAt (nowMs : Z)
    (ratingHistory : ref) (timeFrame : string) : Run ref :=
  items ← readRatingArray ratingHistory;
  if bool_decide (length items = 0) || bool_decide (timeFrame = "All")
  then mret ratingHistory
  else match timeWindow timeFrame with
       | Some window =>
           allocate (RatingArray (filter (λ contest, withinWindow nowMs window contest) items))
       | None => mret ratingHistory
       end.

Definition filterContestsByTypeAt
    (ratingHistory : ref) (contestType : string) : Run ref :=
  items ← readRatingArray ratingHistory;
  if bool_decide (length items = 0) || bool_decide (contestType = "All")
  then mret ratingHistory
  else allocate (RatingArray (filter (λ contest, matchesContestType contestType contest) items)).

(* ===================================================================== *)
(** * Comparison correlator (the overlap part of [updateComparisonUI]) *)
(* ===================================================================== *)

(** [new Set([...s1].filter(x => s2.has(x))).size], on the contents. *)
Definition commonSize `{Countable A} (s1 s2 : gset A) : nat :=
  size (list_to_set (C := gset A) (filter (λ x, x ∈ s2) (elements s1))).

(** [commonProblems.size] *)
Definition commonProblems (user1Accepted user2Accepted : list Submission) : nat :=
  let user1Problems : gset string := list_to_set (problemKey <$> user1Accepted) in
  let user2Problems : gset string := list_to_set (problemKey <$> user2Accepted) in
  commonSize user1Problems user2Problems.

(** [commonContests.size] *)
Definition commonContests (user1Rating user2Rating : list RatingChange) : nat :=
  let user1Contests : gset Z := list_to_set (RC.contestId <$> user1Rating) in
  let user2Contests : gset Z := list_to_set (RC.contestId <$> user2Rating) in
  commonSize user1Contests user2Contests.

(** The shared-problem count of two users as [compareUsers] computes it:
    each raw submission list goes through [processSubmissions] first. *)
Definition sharedProblems (user1Submissions user2Submissions : list Submission) : nat :=
  commonProblems (processSubmissions user1Submissions)
                 (processSubmissions user2Submissions).

(** ** The same computation on references, object by object *)

(** [new Set(accepted.map(s => `${s.problem.contestId}-${s.problem.index}`))] *)
Definition problemKeySetAt (accepted : ref) : Run ref :=
  items ← readSubmissionArray accepted;
  keys ← allocate (StringArray (problemKey <$> items));
  keyItems ← readStringArray keys;
  allocate (StringSet (list_to_set keyItems)).

(** [new Set(rating.map(c => c.contestId))] *)
Definition contestIdSetAt (rating : ref) : Run ref :=
  items ← readRatingArray rating;
  ids ← allocate (NumberArray (RC.contestId <$> items));
  idItems ← readNumberArray ids;
  allocate (NumberSet (list_to_set idItems)).

(** [new Set([...set1].filter(p => set2.has(p)))] on Sets of strings. *)
Definition commonStringSetAt (set1 set2 : ref) : Run ref :=
  members1 ← readStringSet set1;
  spread ← allocate (StringArray (elements members1));
  spreadItems ← readStringArray spread;
  members2 ← readStringSet set2;
  kept ← allocate (StringArray (filter (λ p, p ∈ members2) spreadItems));
  keptItems ← readStringArray kept;
  allocate (StringSet (list_to_set keptItems)).

(** The same on Sets of numbers. *)
Definition commonNumberSetAt (set1 set2 : ref) : Run ref :=
  members1 ← readNumberSet set1;
  spread ← allocate (NumberArray (elements members1));
  spreadItems ← readNumberArray spread;
  members2 ← readNumberSet set2;
  kept ← allocate (NumberArray (filter (λ c, c ∈ members2) spreadItems));
  keptItems ← readNumberArray kept;
  allocate (NumberSet (list_to_set keptItems)).

(** The overlap computed by [updateComparisonUI]: the numbers written to
    the [commonProblems] and [commonContests] elements. *)
Definition updateComparisonUIAt
    (user1Rating user2Rating user1Accepted user2Accepted : ref) : Run (nat * nat) :=
  user1Problems ← problemKeySetAt user1Accepted;
  user2Problems ← problemKeySetAt user2Accepted;
  commonProblems ← commonStringSetAt user1Problems user2Problems;
  user1Contests ← contestIdSetAt user1Rating;
  user2Contests ← contestIdSetAt user2Rating;
  commonContests ← commonNumberSetAt user1Contests user2Contests;
  problems ← readStringSet commonProblems;
  contests ← readNumberSet commonContests;
  mret (size problems, size contests).

(* ===================================================================== *)
(** * Remote query client *)
(* ===================================================================== *)

(** What [response.json()] gives: a rejection (the body is not JSON), or
    the envelope [{status, comment, result}]. *)
Inductive Body (T : Type) :=
  | Malformed (message : string)
  | Envelope (status : string) (comment : option string) (result : T).
Global Arguments Malformed {T} message.
Global Arguments Envelope {T} status comment result.

(** What [fetch(url)] gives: a rejection (the transport failed), or a
    response with its [ok] flag, its HTTP status and its body. *)
Inductive FetchResult (T : Type) :=
  | NetworkFailure (message : string)
  | HttpResponse (ok : bool) (status : Z) (body : Body T).
Global Arguments NetworkFailure {T} message.
Global Arguments HttpResponse {T} ok status body.

(** [data.comment || 'API Error'] *)
Definition commentOrDefault (comment : option string) : string :=
  match comment with
  | Some c => if decide (c = "") then "API Error" else c
  | None => "API Error"
  end.

(** The [try] block of [fetchWithRetry]: the payload, or the message of
    the error thrown inside the block. *)
Definition attempt {T} (response : FetchResult T) : T + string :=
  match response with
  | NetworkFailure message => inr message
  | HttpResponse ok status body =>
      if negb ok then inr ("HTTP error! status: " +:+ numberToString status)
      else match body with
           | Malformed message => inr message
           | Envelope status comment result =>
               if bool_decide (status ≠ "OK") then inr (commentOrDefault comment)
               else inl result
           end
  end.

(** How a call of [fetchWithRetry] ends. *)
Inductive Outcome (T : Type) :=
  | Returned (result : T)
  | Threw (message : string)
  | ReturnedUndefined.
Global Arguments Returned {T} result.
Global Arguments Threw {T} message.
Global Arguments ReturnedUndefined {T}.

(** What a call does on the way: requests and waits (in milliseconds). *)
Inductive Event :=
  | Requested
  | Waited (ms : Z).

(** The [for] loop, entered with counter [i] and [remaining] iterations to
    go ([remaining] is [retries - i], and the loop condition [i < retries]
    is [0 < remaining]); [server n] is the answer to the [n]-th request. *)
Fixpoint retryLoop {T} (remaining : nat) (server : nat → FetchResult T)
    (retries : Z) (i : nat) : Outcome T * list Event :=
  match remaining with
  | O => (ReturnedUndefined, [])
  | S remaining' =>
      match attempt (server i) with
      | inl result => (Returned result, [Requested])
      | inr error =>
          if decide (Z.of_nat i = retries - 1)%Z then (Threw error, [Requested])
          else let '(outcome, events) := retryLoop remaining' server retries (S i) in
               (outcome, Requested :: Waited (1000 * (Z.of_nat i + 1)) :: events)
      end
  end.

Definition fetchWithRetry {T} (server : nat → FetchResult T) (retries : Z)
  : Outcome T * list Event :=
  retryLoop (Z.to_nat retries) server retries 0.

(** The default value of the parameter [retries]. *)
Definition defaultRetries : Z := 3.

(* ===================================================================== *)
(** * The queries of a view: [analyzeUser] and [compareUsers] *)
(* ===================================================================== *)

(** A thrown value: an [Error] with its message, or the [TypeError] of a
    property read on [undefined]. *)
Inductive JsError :=
  | Error (message : string)
  | TypeError.

Inductive Settled (A : Type) :=
  | Fulfilled (value : A)
  | Rejected (reason : JsError).
Global Arguments Fulfilled {A} value.
Global Arguments Rejected {A} reason.

(** A promise once it has settled, with the instant at which it did. *)
Record Promise (A : Type) := {
  settled : Settled A;
  settledAt : nat
}.
Global Arguments settled {A} _.
Global Arguments settledAt {A} _.

(** One remote query as the environment answers it: the responses to its
    successive requests, and the instant at which its promise settles. *)
Record Lookup (T : Type) := {
  responses : nat → FetchResult T;
  finishedAt : nat
}.
Global Arguments responses {T} _.
Global Arguments finishedAt {T} _.

(** [getUserInfo]: [users[0]] is [undefined] ([None]) on an empty array,
    and reading it from [undefined] throws. *)
Definition getUserInfo (q : Lookup (list UserProfile)) : Promise (option UserProfile) :=
  {| settled :=
       match (fetchWithRetry (responses q) defaultRetries).1 with
       | Returned users => Fulfilled (head users)
       | Threw message => Rejected (Error message)
       | ReturnedUndefined => Rejected TypeError
       end;
     settledAt := finishedAt q |}.

(** [getUserRating] and [getUserSubmissions] pass the result on; [None] is
    [undefined]. *)
Definition getArray {T} (q : Lookup (list T)) : Promise (option (list T)) :=
  {| settled :=
       match (fetchWithRetry (responses q) defaultRetries).1 with
       | Returned items => Fulfilled (Some items)
       | Threw message => Rejected (Error message)
       | ReturnedUndefined => Fulfilled None
       end;
     settledAt := finishedAt q |}.

Definition getUserRating (q : Lookup (list RatingChange)) := getArray q.
Definition getUserSubmissions (q : Lookup (list Submission)) := getArray q.

(** [p.catch(() => [])] *)
Definition catchEmpty {T} (p : Promise (option (list T))) : Promise (option (list T)) :=
  {| settled := match settled p with
                | Fulfilled value => Fulfilled value
                | Rejected _ => Fulfilled (Some [])
                end;
     settledAt := settledAt p |}.

(** [Promise.all([pa, pb])]: fulfilled with both values once both are
    fulfilled, rejected with the rejection that comes first otherwise (the
    one of [pa] when both come at the same instant). *)
Definition Promise_all2 {A B} (pa : Promise A) (pb : Promise B) : Promise (A * B) :=
  match settled pa, settled pb with
  | Fulfilled a, Fulfilled b =>
      {| settled := Fulfilled (a, b);
         settledAt := Nat.max (settledAt pa) (settledAt pb) |}
  | Rejected reason, Fulfilled _ =>
      {| settled := Rejected reason; settledAt := settledAt pa |}
  | Fulfilled _, Rejected reason =>
      {| settled := Rejected reason; settledAt := settledAt pb |}
  | Rejected reason1, Rejected reason2 =>
      if decide (settledAt pb < settledAt pa)
      then {| settled := Rejected reason2; settledAt := settledAt pb |}
      else {| settled := Rejected reason1; settledAt := settledAt pa |}
  end.

(** [Promise.all([pa, pb, pc])]; the value is the triple [(a, b, c)]. *)
Definition Promise_all3 {A B C} (pa : Promise A) (pb : Promise B) (pc : Promise C)
  : Promise (A * B * C) :=
  Promise_all2 (Promise_all2 pa pb) pc.

(** The three queries of one user, as both views issue them. *)
Definition userQueries (info : Lookup (list UserProfile))
    (rating : Lookup (list RatingChange)) (status : Lookup (list Submission))
  : Promise (option UserProfile * option (list RatingChange) * option (list Submission)) :=
  Promise_all3 (getUserInfo info)
               (catchEmpty (getUserRating rating))
               (getUserSubmissions status).

(** What [analyzeUser] leaves on the page: the message about the handle,
    the error of the [catch] block, or the data handed to the rendering
    functions. *)
Inductive AnalysisView :=
  | InvalidHandle
  | AnalysisFailed (error : JsError)
  | AnalysisShown (user : UserProfile) (ratingHistory : list RatingChange)
                  (acceptedSubmissions : list Submission)
                  (problemStats : ProblemStats) (contestStats : ContestStats).

Definition analyzeUser (handle : string) (info : Lookup (list UserProfile))
    (rating : Lookup (list RatingChange)) (status : Lookup (list Submission))
  : AnalysisView :=
  if isBlank handle then InvalidHandle
  else match settled (userQueries info rating status) with
       | Rejected error => AnalysisFailed error
       | Fulfilled (Some user, Some ratingHistory, Some submissions) =>
           let acceptedSubmissions := processSubmissions submissions in
           let problemStats := calculateProblemStats acceptedSubmissions in
           let contestStats := calculateContestStats ratingHistory in
           AnalysisShown user ratingHistory acceptedSubmissions problemStats contestStats
       | Fulfilled _ => AnalysisFailed TypeError
       end.

(** What [compareUsers] leaves on the page, in the same way. *)
Inductive ComparisonView :=
  | InvalidHandles
  | ComparisonFailed (error : JsError)
  | ComparisonShown (user1 user2 : UserProfile)
                    (user1Rating user2Rating : list RatingChange)
                    (user1Accepted user2Accepted : list Submission)
                    (commonProblems commonContests : nat).

Definition compareUsers (handle1 handle2 : string)
    (info1 : Lookup (list UserProfile)) (rating1 : Lookup (list RatingChange))
    (status1 : Lookup (list Submission))
    (info2 : Lookup (list UserProfile)) (rating2 : Lookup (list RatingChange))
    (status2 : Lookup (list Submission))
  : ComparisonView :=
  if isBlank handle1 || isBlank handle2 then InvalidHandles
  else match settled (Promise_all2 (userQueries info1 rating1 status1)
                                   (userQueries info2 rating2 status2)) with
       | Rejected error => ComparisonFailed error
       | Fulfilled ((Some user1, Some user1Rating, Some user1Submissions),
                    (Some user2, Some user2Rating, Some user2Submissions)) =>
           let user1Accepted := processSubmissions user1Submissions in
           let user2Accepted := processSubmissions user2Submissions in
           ComparisonShown user1 user2 user1Rating user2Rating
                           user1Accepted user2Accepted
                           (commonProblems user1Accepted user2Accepted)
                           (commonContests user1Rating user2Rating)
       | Fulfilled _ => ComparisonFailed TypeError
       end.

(* ===================================================================== *)
(** * Auxiliary notions for the statements and the proofs *)
(* ===================================================================== *)

(** A string of decimal digits. *)
Fixpoint allDigits (s : string) : bool :=
  match s with
  | EmptyString => true
  | String c r => bool_decide (is_Some (Ascii.is_nat c)) && allDigits r
  end.

(** A string without the character [-]. *)
Fixpoint dashFree (s : string) : bool :=
  match s with
  | EmptyString => true
  | String c r => bool_decide (c ≠ "-"%char) && dashFree r
  end.

(** The accepted submissions of [submissions] whose problem is neither in
    [seen] nor met earlier in the list: the scan of the normalizer written
    as a recursion, used to reason about [processSubmissions]. *)
Fixpoint retained (seen : list string) (submissions : list Submission)
  : list Submission :=
  match submissions with
  | [] => []
  | sub :: rest =>
      if decide (verdict sub = "OK") then
        if decide (problemKey sub ∈ seen) then retained seen rest
        else sub :: retained (seen ++ [problemKey sub]) rest
      else retained seen rest
  end.

(** The submission carries a rating whose bucket is [b]. *)
Definition carriesRatingIn (b : Z) (sub : Submission) : bool :=
  match rating (problem sub) with
  | Some r => bool_decide (ratingBucket r = b)
  | None => false
  end.

(** The submission carries a rating other than [0] whose bucket is [b]. *)
Definition carriesNonZeroRatingIn (b : Z) (sub : Submission) : bool :=
  match rating (problem sub) with
  | Some r => bool_decide (r ≠ 0%Z ∧ ratingBucket r = b)
  | None => false
  end.

(** The submission carries a rating other than [0]. *)
Definition carriesNonZeroRating (sub : Submission) : bool :=
  match rating (problem sub) with
  | Some r => bool_decide (r ≠ 0%Z)
  | None => false
  end.

(** The bucket the submission is counted in by [calculateProblemStats],
    if any. *)
Definition countedBucket (sub : Submission) : option Z :=
  ratingBucket <$> truthyRating (rating (problem sub)).

(** The number of elements of a list that satisfy a test. *)
Definition countIf {A} (p : A → bool) (l : list A) : nat :=
  length (filter (λ x, p x = true) l).

(** The key is not the name of a member inherited from
    [Object.prototype]. *)
Definition ownName (key : string) : Prop := key ∉ inheritedNames.

Global Instance ownName_dec key : Decision (ownName key).
Proof. unfold ownName. apply _. Defined.

(** Neither the level nor a tag of the submission is the name of an
    inherited member. *)
Definition ownNamed (sub : Submission) : Prop :=
  ownName (index (problem sub)) ∧ Forall ownName (tags (problem sub)).

Global Instance ownNamed_dec sub : Decision (ownNamed sub).
Proof. unfold ownNamed. apply _. Defined.

(** What the counter of [key] holds once [key] has been counted [n]
    times. *)
Definition valueAfter (key : string) (n : nat) : Counter :=
  if decide (key ∈ inheritedNames) then MemberText key n else Count n.


(** An accepted submission whose rating is present and is [0]. *)
Definition zeroRated : Submission :=
  {| creationTimeSeconds := 0;
     problem := {| contestId := Some 1%Z; index := "A"; rating := Some 0%Z; tags := [] |};
     verdict := "OK" |}.

(** [needle] occurs in [name] when the case of letters is ignored: some
    part of [name] reads [needle] once put in lower case. *)
Definition occursIgnoringCase (needle name : string) : Prop :=
  ∃ pre mid post, name = pre +:+ mid +:+ post ∧ toLowerCase mid = needle.

(** The category filter in the specification's words, label by label. *)
Definition categoryRetains (label : string) (contest : RatingChange) : Prop :=
  let name := RC.contestName contest in
  if decide (label = "Div. 1") then
    occursIgnoringCase "div. 1" name ∧ ¬ occursIgnoringCase "div. 2" name
  else if decide (label = "Div. 2") then occursIgnoringCase "div. 2" name
  else if decide (label = "Div. 3") then occursIgnoringCase "div. 3" name
  else if decide (label = "Educational") then occursIgnoringCase "educational" name
  else True.

(** The query ends with the payload [result]. *)
Definition lookupReturns {T} (q : Lookup T) (result : T) : Prop :=
  (fetchWithRetry (responses q) defaultRetries).1 = Returned result.

(** The query fails for good, its retries exhausted, with [message]. *)
Definition lookupFails {T} (q : Lookup T) (message : string) : Prop :=
  (fetchWithRetry (responses q) defaultRetries).1 = Threw message.

(** The rating history a view works with: the payload of the rating query,
    or the empty history when that query fails. *)
Definition historySeen (q : Lookup (list RatingChange)) (h : list RatingChange) : Prop :=
  lookupReturns q h ∨ (h = [] ∧ ∃ message, lookupFails q message).

(** [m] runs from [σ] without a [TypeError], leaves every object of [σ] as
    it was, and ends with a result and a heap that satisfy [Q]. *)
Definition runsTo {A} (m : Run A) (σ : heap) (Q : A → heap → Prop) : Prop :=
  ∃ a σ', m σ = Some (a, σ') ∧ σ ⊆ σ' ∧ Q a σ'.

(* ===================================================================== *)
(** * Sample data for the worked examples *)
(* ===================================================================== *)

(** The submissions of the specification's end-to-end example: problem 1A
    accepted twice, 1B rejected, 2A accepted. *)
Definition sub1A : Submission :=
  {| creationTimeSeconds := 1700000300;
     problem := {| contestId := Some 1%Z; index := "A"; rating := None; tags := ["dp"] |};
     verdict := "OK" |}.

Definition sub1A_again : Submission :=
  {| creationTimeSeconds := 1700000200;
     problem := {| contestId := Some 1%Z; index := "A"; rating := None; tags := ["dp"] |};
     verdict := "OK" |}.

Definition sub1B_wrong : Submission :=
  {| creationTimeSeconds := 1700000100;
     problem := {| contestId := Some 1%Z; index := "B"; rating := None; tags := [] |};
     verdict := "WRONG_ANSWER" |}.

Definition sub2A : Submission :=
  {| creationTimeSeconds := 1700000000;
     problem := {| contestId := Some 2%Z; index := "A"; rating := Some 1200%Z;
                   tags := ["dp"; "greedy"] |};
     verdict := "OK" |}.

Definition exampleSubmissions : list Submission :=
  [sub1A; sub1A_again; sub1B_wrong; sub2A].

(** Three rated contests of one user. *)
Definition combinedRound : RatingChange :=
  {| RC.contestId := 1842; RC.contestName := "CodeTON Round 5 (Div. 1 + Div. 2, Rated)";
     RC.rank := 1520; RC.oldRating := 1500; RC.newRating := 1543;
     RC.ratingUpdateTimeSeconds := 1687620900 |}.

Definition educationalRound : RatingChange :=
  {| RC.contestId := 1849; RC.contestName := "Educational Codeforces Round 151";
     RC.rank := 987; RC.oldRating := 1543; RC.newRating := 1610;
     RC.ratingUpdateTimeSeconds := 1688050500 |}.

Definition div1Round : RatingChange :=
  {| RC.contestId := 1844; RC.contestName := "Codeforces Round 884 (DIV. 1)";
     RC.rank := 412; RC.oldRating := 1610; RC.newRating := 1604;
     RC.ratingUpdateTimeSeconds := 1689090900 |}.

Definition exampleHistory : list RatingChange :=
  [combinedRound; educationalRound; div1Round].

Definition exampleUser : UserProfile :=
  {| User.handle := "tourist"; User.rank := Some "legendary grandmaster";
     User.rating := Some 3800%Z; User.maxRating := Some 3979%Z |}.

(** A query that is answered at once, and one whose requests all fail. *)
Definition answered {T} (result : T) (at_ : nat) : Lookup T :=
  {| responses := λ _, HttpResponse true 200 (Envelope "OK" None result);
     finishedAt := at_ |}.

Definition unreachable {T} (at_ : nat) : Lookup T :=
  {| responses := λ _, NetworkFailure "Failed to fetch"; finishedAt := at_ |}.

(** A server that fails twice (transport, then HTTP 503) and then answers,
    and one that fails three times, the last time with the service's
    comment. *)
Definition flakyServer : nat → FetchResult (list Z) := λ n,
  match n with
  | 0 => NetworkFailure "Failed to fetch"
  | 1 => HttpResponse false 503 (Malformed "Unexpected token")
  | _ => HttpResponse true 200 (Envelope "OK" None [7; 8]%Z)
  end.

Definition refusingServer : nat → FetchResult (list Z) := λ n,
  match n with
  | 0 => NetworkFailure "Failed to fetch"
  | 1 => HttpResponse false 503 (Malformed "Unexpected token")
  | _ => HttpResponse true 200
           (Envelope "FAILED" (Some "handles: User with handle x not found") [])
  end.

(** A heap that holds the example history at reference [0] and the example
    submissions, normalized, at reference [1]. *)
Definition exampleHeap : heap :=
  <[0 := RatingArray exampleHistory]>
    (<[1 := SubmissionArray (processSubmissions exampleSubmissions)]> ∅).

(* ===================================================================== *)
(** * Further notions for the statements *)
(* ===================================================================== *)

(** The entries the time-window filter keeps for a label: those inside the
    window of a label it knows, all of them otherwise. *)
Definition insideTimeFrame (nowMs : Z) (timeFrame : string) (contest : RatingChange) : bool :=
  match timeWindow timeFrame with
  | Some window => withinWindow nowMs window contest
  | None => true
  end.

(** What a call that ends at its [k]-th retry has done: [k] failed requests,
    each followed by its wait, and one more request. *)
Definition backoffSchedule (k : nat) : list Event :=
  flat_map (λ i, [Requested; Waited (1000 * (Z.of_nat i + 1))]) (seq 0 k) ++ [Requested].

Global Instance Event_eq_dec : EqDecision Event.
Proof. solve_decision. Defined.

(* ===================================================================== *)
(** * More of JavaScript: [parseInt], [sort], [slice] *)
(* ===================================================================== *)

(** The value of a character as a digit of the radix 10 or 16. *)
Definition decimalDigit (c : ascii) : option Z := Z.of_nat <$> Ascii.is_nat c.

Definition hexDigit (c : ascii) : option Z :=
  let n := Z.of_N (N_of_ascii c) in
  if decide (48 ≤ n ≤ 57)%Z then Some (n - 48)%Z
  else if decide (97 ≤ n ≤ 102)%Z then Some (n - 87)%Z
  else if decide (65 ≤ n ≤ 70)%Z then Some (n - 55)%Z
  else None.

(** The number written by the longest prefix of [s] made of digits of the
    radix, read after the digits that gave [acc]; [None] stands for "no
    digit read yet". *)
Fixpoint parseDigits (radix : Z) (digit : ascii → option Z)
    (acc : option Z) (s : string) : option Z :=
  match s with
  | EmptyString => acc
  | String c r =>
      match digit c with
      | Some d => parseDigits radix digit (Some (radix * default 0 acc + d)%Z) r
      | None => acc
      end
  end.

(** [s] without its leading white space. *)
Fixpoint trimStart (s : string) : string :=
  match s with
  | String c r => if Ascii.is_space c then trimStart r else s
  | EmptyString => EmptyString
  end.

(** The text after a prefix [0x] or [0X], if [body] has one. *)
Definition hexBody (body : string) : option string :=
  match body with
  | String c1 (String c2 r) =>
      if decide (c1 = "0"%char ∧ (c2 = "x"%char ∨ c2 = "X"%char)) then Some r else None
  | _ => None
  end.

(** The number [parseInt] reads after the sign. *)
Definition parseUnsigned (body : string) : option Z :=
  match hexBody body with
  | Some r => parseDigits 16 hexDigit None r
  | None => parseDigits 10 decimalDigit None body
  end.

(** [parseInt(s)], with no radix given; [None] is [NaN]. Leading white
    space is skipped, a sign is read, the prefix [0x] or [0X] selects the
    radix 16, and the digits that follow are read as far as they go. *)
Definition parseInt (s : string) : option Z :=
  match trimStart s with
  | String c r =>
      if decide (c = "-"%char) then Z.opp <$> parseUnsigned r
      else if decide (c = "+"%char) then parseUnsigned r
      else parseUnsigned (String c r)
  | EmptyString => None
  end.

(** One step of a stable insertion: [x] goes in front of the first element
    it does not come after. *)
Fixpoint insertSorted {A} (compare : A → A → Z) (x : A) (sorted : list A) : list A :=
  match sorted with
  | [] => [x]
  | y :: r => if decide (compare x y ≤ 0)%Z then x :: y :: r
              else y :: insertSorted compare x r
  end.

(** [array.sort(compare)]: for a consistent comparator the language fixes
    the result, the stable sorted arrangement of the array, which is what
    inserting the elements one by one from the last to the first gives. *)
Definition Array_sort {A} (compare : A → A → Z) (array : list A) : list A :=
  foldr (insertSorted compare) [] array.

(** [array.slice(0, finish)]: a negative [finish] counts from the end. *)
Definition Array_slice0 {A} (array : list A) (finish : Z) : list A :=
  let len := Z.of_nat (length array) in
  let final := if decide (finish < 0)%Z then Z.max (len + finish) 0 else Z.min finish len in
  take (Z.to_nat final) array.

(* ===================================================================== *)
(** * Rank colours *)
(* ===================================================================== *)

(** The object [rankColors] of [getRankColor]. *)
Definition rankColors : list (string * string) :=
  [("newbie", "#808080");
   ("pupil", "#008000");
   ("specialist", "#03a89e");
   ("expert", "#0000ff");
   ("candidate master", "#aa00aa");
   ("master", "#ff8c00");
   ("international master", "#ff8c00");
   ("grandmaster", "#ff0000");
   ("international grandmaster", "#ff0000");
   ("legendary grandmaster", "#ff0000")].

(** What a property read on [rankColors] gives: the text of an own
    property, or the member inherited under a name. *)
Inductive PropertyValue :=
  | Text (text : string)
  | Inherited (name : string).

Global Instance PropertyValue_eq_dec : EqDecision PropertyValue.
Proof. solve_decision. Defined.

(** [rankColors[key]]; [None] is [undefined]. *)
Definition rankColors_get (key : string) : option PropertyValue :=
  match list_to_map (M := gmap string string) rankColors !! key with
  | Some color => Some (Text color)
  | None => if decide (key ∈ inheritedNames) then Some (Inherited key) else None
  end.

(** [value || fallback]: [undefined] and the empty string are falsy, the
    inherited functions and objects are truthy. *)
Definition orElse (value : option PropertyValue) (fallback : string) : PropertyValue :=
  match value with
  | Some (Text text) => if decide (text = "") then Text fallback else Text text
  | Some (Inherited name) => Inherited name
  | None => Text fallback
  end.

(** [rank] is [None] when the user object has no property [rank]. *)
Definition getRankColor (rank : option string) : PropertyValue :=
  match rank with
  | None => Text "#gray"
  | Some rank =>
      if decide (rank = "") then Text "#gray"
      else orElse (rankColors_get (toLowerCase rank)) "#gray"
  end.

(* ===================================================================== *)
(** * The data of the charts *)
(* ===================================================================== *)

(** The labels and the data handed to a chart. *)
Record ChartData (L D : Type) := {
  labels : list L;
  data : list D
}.
Global Arguments labels {L D} _.
Global Arguments data {L D} _.

(** The number of UTF-16 code units a byte of a UTF-8 text starts: none
    for a continuation byte, two for the first byte of a four-byte
    sequence, one otherwise. *)
Definition codeUnits (c : ascii) : nat :=
  let n := N_of_ascii c in
  if decide (128 ≤ n < 192)%N then 0
  else if decide (240 ≤ n)%N then 2
  else 1.

(** [s.length]: the number of UTF-16 code units of the text whose UTF-8
    bytes are [s]. *)
Fixpoint String_length (s : string) : nat :=
  match s with
  | EmptyString => 0
  | String c r => codeUnits c + String_length r
  end.

(** The comparator of [createLevelsChart]: shorter keys first, keys of one
    length in the order of [localeCompare], which depends on the locale and
    is an argument here. *)
Definition compareLevels (localeCompare : string → string → Z)
    (entry1 entry2 : string * Counter) : Z :=
  let a := entry1.1 in
  let b := entry2.1 in
  if decide (String_length a ≠ String_length b)
  then (Z.of_nat (String_length a) - Z.of_nat (String_length b))%Z
  else localeCompare a b.

(** The data [createLevelsChart] builds from [Object.entries(levels)]. *)
Definition createLevelsChart (localeCompare : string → string → Z)
    (entries : list (string * Counter)) : ChartData string Counter :=
  let sortedLevels := Array_sort (compareLevels localeCompare) entries in
  {| labels := fst <$> sortedLevels; data := snd <$> sortedLevels |}.

(** [parseInt(a) - parseInt(b)]; a difference that is [NaN] counts as [0]
    for [sort]. *)
Definition compareRatings (entry1 entry2 : string * nat) : Z :=
  match parseInt entry1.1, parseInt entry2.1 with
  | Some a, Some b => (a - b)%Z
  | _, _ => 0%Z
  end.

(** [parseInt(rating) >= 800]; a comparison with [NaN] is false. *)
Definition ratingShown (entry : string * nat) : bool :=
  match parseInt entry.1 with
  | Some rating => bool_decide (800 ≤ rating)%Z
  | None => false
  end.

(** The data [createRatingsChart] builds from [Object.entries(ratings)]. *)
Definition createRatingsChart (entries : list (string * nat)) : ChartData string nat :=
  let sortedRatings := filter (λ entry, ratingShown entry) (Array_sort compareRatings entries) in
  {| labels := fst <$> sortedRatings; data := snd <$> sortedRatings |}.

(** [Object.entries] of an object whose properties were created with
    numbers for keys: the keys come back as strings. [properties] is the
    list of the properties in the order in which the object lists them. *)
Definition numberKeyed (properties : list (Z * nat)) : list (string * nat) :=
  (λ property, (numberToString property.1, property.2)) <$> properties.

(** [Number(value)] for a counter: the strings the counters can hold do
    not read as numbers; [None] is [NaN]. *)
Definition toNumber (value : Counter) : option Z := Z.of_nat <$> numberOf value.

(** [(a, b) => b - a] on the counts; a difference that is [NaN] counts as
    [0] for [sort]. *)
Definition compareTags (entry1 entry2 : string * Counter) : Z :=
  match toNumber entry2.2, toNumber entry1.2 with
  | Some b, Some a => (b - a)%Z
  | _, _ => 0%Z
  end.

(** The default value of the parameter [limit]. *)
Definition defaultLimit : Z := 10.

(** The data [createTagsChart] builds from [Object.entries(tags)]. *)
Definition createTagsChart (entries : list (string * Counter)) (limit : Z)
  : ChartData string Counter :=
  let sortedTags := Array_slice0 (Array_sort compareTags entries) limit in
  {| labels := fst <$> sortedTags; data := snd <$> sortedTags |}.

(** The submission carries a rating of at least 800. *)
Definition ratedAtLeast800 (sub : Submission) : bool :=
  match rating (problem sub) with
  | Some r => bool_decide (800 ≤ r)%Z
  | None => false
  end.

(** A comparison of two strings by their characters' codes, one of the
    orders [localeCompare] can stand for. *)
Definition codeCompare (a b : string) : Z :=
  match String.compare a b with
  | Lt => (-1)%Z
  | Eq => 0%Z
  | Gt => 1%Z
  end.

(* ===================================================================== *)
(** * The contest table *)
(* ===================================================================== *)

(** One row of the contest table. The last cell is the instant handed to
    [new Date]; how [toLocaleDateString] writes it depends on the locale. *)
Record TableRow := {
  nameCell : string;
  rankCell : Z;
  deltaClass : string;
  deltaText : string;
  ratingCell : Z;
  dateMs : Z
}.

Definition tableRow (contest : RatingChange) : TableRow :=
  let delta := (RC.newRating contest - RC.oldRating contest)%Z in
  {| nameCell := RC.contestName contest;
     rankCell := RC.rank contest;
     deltaClass := if decide (0 ≤ delta)%Z then "positive" else "negative";
     deltaText := if decide (0 ≤ delta)%Z then "+" +:+ numberToString delta
                  else numberToString delta;
     ratingCell := RC.newRating contest;
     dateMs := (RC.ratingUpdateTimeSeconds contest * 1000)%Z |}.

(** [array.slice()]: a new array with the same elements. *)
Definition Array_slice (array : ref) : Run ref :=
  items ← readRatingArray array;
  allocate (RatingArray items).

(** [array.reverse()]: reverses the array in place and returns it. *)
Definition Array_reverse (array : ref) : Run ref := λ h,
  match h !! array with
  | Some (RatingArray items) => Some (array, <[array := RatingArray (reverse items)]> h)
  | _ => None
  end.

(** The rows [updateContestTable] puts into the emptied table body, in the
    order in which it appends them. *)
Definition updateContestTableAt (ratingHistory : ref) (contestFilter : string)
  : Run (list TableRow) :=
  filteredHistory ← filterContestsByTypeAt ratingHistory contestFilter;
  copy ← Array_slice filteredHistory;
  reversed ← Array_reverse copy;
  contests ← readRatingArray reversed;
  mret (tableRow <$> contests).

(* ===================================================================== *)
(** * The comparison chart *)
(* ===================================================================== *)

(** An argument of [createComparisonChart], with the properties the function
    reads; a property the object has not got is [None] ([undefined]). *)
Module Series.
Record t := {
  name : option string;
  ratings : list Z;
  length : option Z
}.
End Series.

(** [Math.max(a, b)] on two property reads: [undefined] converts to [NaN],
    and the maximum is [NaN] ([None]) as soon as an argument is. *)
Definition Math_max (a b : option Z) : option Z :=
  match a, b with
  | Some x, Some y => Some (Z.max x y)
  | _, _ => None
  end.

(** [Array.from({ length: n }, (_, i) => i + 1)]: the length [NaN] counts
    as [0], and so does a negative one. *)
Definition Array_from_length (n : option Z) : list Z :=
  match n with
  | Some n => (λ i, Z.of_nat i + 1)%Z <$> seq 0 (Z.to_nat n)
  | None => []
  end.

(** [name || fallback] *)
Definition nameOr (name : option string) (fallback : string) : string :=
  match name with
  | Some text => if decide (text = "") then fallback else text
  | None => fallback
  end.

(** The labels and the two data sets of the comparison chart. *)
Record ComparisonChart := {
  chartLabels : list Z;
  label1 : string;
  data1 : list Z;
  label2 : string;
  data2 : list Z
}.

Definition createComparisonChart (user1Data user2Data : Series.t) : ComparisonChart :=
  let maxLength := Math_max (Series.length user1Data) (Series.length user2Data) in
  {| chartLabels := Array_from_length maxLength;
     label1 := nameOr (Series.name user1Data) "User 1";
     data1 := Series.ratings user1Data;
     label2 := nameOr (Series.name user2Data) "User 2";
     data2 := Series.ratings user2Data |}.

(** The object literal [compareUsers] builds for a user: it has the two
    properties [name] and [ratings]. *)
Definition seriesOf (user : UserProfile) (userRating : list RatingChange) : Series.t :=
  {| Series.name := Some (User.handle user);
     Series.ratings := RC.newRating <$> userRating;
     Series.length := None |}.

(** The chart [compareUsers] draws when it shows its view. *)
Definition comparisonChartOf (view : ComparisonView) : option ComparisonChart :=
  match view with
  | ComparisonShown user1 user2 user1Rating user2Rating _ _ _ _ =>
      Some (createComparisonChart (seriesOf user1 user1Rating) (seriesOf user2 user2Rating))
  | _ => None
  end.

(* ===================================================================== *)
(** * The session: the variables [analyzeUser] assigns *)
(* ===================================================================== *)

(** [currentUser], [currentUserSubmissions] and [currentUserRatingHistory];
    [None] is [null] or [undefined]. *)
Record Session := {
  currentUser : option UserProfile;
  currentUserSubmissions : option (list Submission);
  currentUserRatingHistory : option (list RatingChange)
}.

Definition initialSession : Session :=
  {| currentUser := None;
     currentUserSubmissions := Some [];
     currentUserRatingHistory := Some [] |}.

(** The session after a call of [analyzeUser]: the three variables are
    assigned right after the [await], before anything is computed or
    drawn. *)
Definition analyzeUserSession (before : Session) (handle : string)
    (info : Lookup (list UserProfile))
    (rating : Lookup (list RatingChange)) (status : Lookup (list Submission))
  : Session :=
  if isBlank handle then before
  else match settled (userQueries info rating status) with
       | Rejected _ => before
       | Fulfilled (user, ratingHistory, submissions) =>
           {| currentUser := user;
              currentUserSubmissions := submissions;
              currentUserRatingHistory := ratingHistory |}
       end.

(* ===================================================================== *)
(** * Counting notions for the statements about the charts *)
(* ===================================================================== *)

(** The submission is of the problem level [level]. *)
Definition atLevel (level : string) (sub : Submission) : bool :=
  bool_decide (index (problem sub) = level).

(** How many times [tag] is listed by the problems of [subs]. *)
Definition tagOccurrences (tag : string) (subs : list Submission) : nat :=
  sum_list ((λ sub, length (filter (λ t, t = tag) (tags (problem sub)))) <$> subs).

(** The level of the submission is not the name of an inherited member. *)
Definition ownLevel (sub : Submission) : bool :=
  bool_decide (ownName (index (problem sub))).

(** A property whose counter holds the number [entry.2]. *)
Definition counted (entry : string * nat) : string * Counter :=
  (entry.1, Count entry.2).

(* ===================================================================== *)
(** * Properties: strings and the rendering of numbers *)
(* ===================================================================== *)

Section strings.

Lemma app_cons c (s t : string) : String c s +:+ t = String c (s +:+ t).
Proof. reflexivity. Qed.

Lemma app_empty_l (s : string) : "" +:+ s = s.
Proof. reflexivity. Qed.

Lemma app_assoc' (s t u : string) : (s +:+ t) +:+ u = s +:+ (t +:+ u).
Proof.
  induction s as [|c s IH]; [done|].
  by rewrite !app_cons, IH.
Qed.

Lemma allDigits_app s t :
  allDigits (s +:+ t) = allDigits s && allDigits t.
Proof.
  induction s as [|c s IH]; [done|].
  rewrite app_cons. simpl. rewrite IH. by rewrite andb_assoc.
Qed.

Lemma allDigits_dashFree s : allDigits s = true → dashFree s = true.
Proof.
  induction s as [|c s IH]; [done|]. simpl.
  intros [Hc Hs]%andb_prop. rewrite IH by done.
  rewrite andb_true_r. apply bool_decide_eq_true.
  intros ->. by apply bool_decide_eq_true in Hc as [? [=]].
Qed.

Lemma pretty_N_char_digit x :
  is_Some (Ascii.is_nat (pretty_N_char x)).
Proof. unfold pretty_N_char. by repeat case_match. Qed.

(** The digits [pretty_N_go] puts in front of its accumulator. *)
Lemma pretty_N_go_digits x s :
  ∃ d, pretty_N_go x s = d +:+ s ∧ allDigits d = true ∧ ((0 < x)%N → d ≠ "").
Proof.
  revert s. induction (N.lt_wf_0 x) as [x _ IH]; intros s.
  assert (x = 0 ∨ 0 < x)%N as [->|Hx] by lia.
  - exists "". rewrite pretty_N_go_0. split_and!; [done|done|lia].
  - rewrite pretty_N_go_step by done.
    destruct (IH (x `div` 10)%N (N.div_lt x 10 Hx eq_refl)
                 (String (pretty_N_char (x `mod` 10)) s)) as (d & -> & Hd & _).
    exists (d +:+ String (pretty_N_char (x `mod` 10)) "").
    split_and!.
    + by rewrite app_assoc'.
    + rewrite allDigits_app, Hd. simpl.
      rewrite andb_true_r. apply bool_decide_eq_true, pretty_N_char_digit.
    + intros _. by destruct d.
Qed.

Lemma pretty_N_shape (n : N) :
  allDigits (pretty n) = true ∧ pretty n ≠ "".
Proof.
  unfold pretty, pretty_N. case_decide as Hn; [done|].
  destruct (pretty_N_go_digits n "") as (d & -> & Hd & Hne).
  assert (d +:+ "" = d) as ->.
  { clear. induction d as [|c d IH]; [done|]. by rewrite app_cons, IH. }
  split; [done|]. apply Hne. lia.
Qed.

(** [numberToString] gives a non-empty string of digits, after a minus
    sign for a negative number. *)
Lemma numberToString_shape (n : Z) :
  ∃ d, allDigits d = true ∧ d ≠ "" ∧
       (numberToString n = d ∨ numberToString n = "-" +:+ d).
Proof.
  unfold numberToString, pretty, pretty_Z. destruct n as [|p|p].
  - by exists "0"; split_and!; [..|left].
  - exists (pretty (N.pos p)).
    destruct (pretty_N_shape (N.pos p)). split_and!; [done..|by left].
  - exists (pretty (N.pos p)).
    destruct (pretty_N_shape (N.pos p)). split_and!; [done..|by right].
Qed.

(** Two strings cut at their first dash agree on both sides of it. *)
Lemma first_dash_split (d1 d2 r1 r2 : string) :
  dashFree d1 = true → dashFree d2 = true →
  d1 +:+ "-" +:+ r1 = d2 +:+ "-" +:+ r2 → d1 = d2 ∧ r1 = r2.
Proof.
  revert d2. induction d1 as [|c1 d1 IH]; intros [|c2 d2]; simpl.
  - intros _ _ Heq. injection Heq as Heq. by subst.
  - intros _ [Hc _]%andb_prop Heq. injection Heq as Hc2 _. subst c2.
    by apply bool_decide_eq_true in Hc.
  - intros [Hc _]%andb_prop _ Heq. injection Heq as Hc1 _. subst c1.
    by apply bool_decide_eq_true in Hc.
  - intros [_ H1]%andb_prop [_ H2]%andb_prop Heq. injection Heq as Hc Heq.
    subst c2. by destruct (IH d2 H1 H2 Heq) as [-> ->].
Qed.

End strings.

(* ===================================================================== *)
(** * Properties: the submission normalizer *)
(* ===================================================================== *)

Section normalizer.

Implicit Types (sub a b : Submission) (subs : list Submission).
Implicit Types (seen : list string) (m : JsMap Submission).

Lemma interpolate_inj (x y : option Z) :
  interpolate x = interpolate y → x = y.
Proof.
  destruct x as [n|], y as [k|]; simpl; intros Heq; [| | |done].
  - f_equal. by apply (inj pretty).
  - destruct (numberToString_shape n) as (d & Hd & Hne & [Hn|Hn]);
      rewrite Hn in Heq; subst; [done|].
    by injection Heq.
  - destruct (numberToString_shape k) as (d & Hd & Hne & [Hk|Hk]);
      rewrite Hk in Heq; subst; [done|].
    by injection Heq.
Qed.

(** The text in front of the dash of a key is either free of dashes, or a
    minus sign followed by a non-empty text free of dashes. *)
Lemma interpolate_shape (x : option Z) :
  ∃ d, dashFree d = true ∧ d ≠ "" ∧
       (interpolate x = d ∨ interpolate x = "-" +:+ d).
Proof.
  destruct x as [n|]; simpl.
  - destruct (numberToString_shape n) as (d & Hd & Hne & Hn).
    exists d. eauto using allDigits_dashFree.
  - exists "undefined". split_and!; [done..|by left].
Qed.

Lemma key_split (x y : option Z) (i j : string) :
  interpolate x +:+ "-" +:+ i = interpolate y +:+ "-" +:+ j →
  interpolate x = interpolate y ∧ i = j.
Proof.
  destruct (interpolate_shape x) as (d & Hd & Hdne & [-> | ->]),
           (interpolate_shape y) as (e & He & Hene & [-> | ->]).
  - by apply first_dash_split.
  - destruct d as [|c d]; [done|]. intros Heq. injection Heq as Hc _.
    subst c. by simpl in Hd.
  - destruct e as [|c e]; [done|]. intros Heq. injection Heq as Hc _.
    subst c. by simpl in He.
  - intros Heq. injection Heq as Heq.
    by destruct (first_dash_split _ _ _ _ Hd He Heq) as [-> ->].
Qed.

(** Two submissions have the same key string exactly when they have the
    same ProblemKey [(contestId, index)]. *)
Lemma problemKey_sameProblem a b :
  problemKey a = problemKey b ↔ sameProblem a b.
Proof.
  unfold problemKey, sameProblem. split.
  - intros [Hc Hi]%key_split. split; [by apply interpolate_inj|done].
  - by intros [-> ->].
Qed.

Lemma Map_set_new {V} (m : JsMap V) k (v : V) :
  k ∉ m.*1 → Map_set m k v = m ++ [(k, v)].
Proof.
  induction m as [|[k' v'] m IH]; simpl; [done|].
  rewrite not_elem_of_cons. intros [Hne Hnin].
  rewrite decide_False by done. by rewrite IH.
Qed.

Lemma recordProblem_cases m sub :
  recordProblem m sub =
    if decide (problemKey sub ∈ m.*1) then m else m ++ [(problemKey sub, sub)].
Proof.
  unfold recordProblem, Map_has. case_decide as Hin.
  - by rewrite bool_decide_eq_true_2.
  - rewrite bool_decide_eq_false_2 by done. simpl. by apply Map_set_new.
Qed.

(** The [forEach] over the accepted submissions appends to the map the
    entries of the submissions [retained]. *)
Lemma foldl_recordProblem m subs :
  foldl recordProblem m (filter (λ sub, verdict sub = "OK") subs) =
  m ++ ((λ sub, (problemKey sub, sub)) <$> retained (m.*1) subs).
Proof.
  revert m. induction subs as [|sub subs IH]; intros m; simpl.
  - by rewrite app_nil_r.
  - rewrite filter_cons. destruct (decide (verdict sub = "OK")) as [Hok|Hno].
    + simpl. rewrite IH, recordProblem_cases.
      destruct (decide (problemKey sub ∈ m.*1)); [done|].
      rewrite fmap_app. simpl. by rewrite <-app_assoc.
    + apply IH.
Qed.

Lemma processSubmissions_retained subs :
  processSubmissions subs = retained [] subs.
Proof.
  unfold processSubmissions, Map_values.
  rewrite foldl_recordProblem. simpl.
  rewrite <-list_fmap_compose. apply list_fmap_id.
Qed.


Lemma retained_elem seen subs sub :
  sub ∈ retained seen subs →
  sub ∈ subs ∧ verdict sub = "OK" ∧ problemKey sub ∉ seen.
Proof.
  revert seen. induction subs as [|s subs IH]; intros seen; simpl.
  - by intros ?%elem_of_nil.
  - repeat case_decide.
    + intros (? & ? & ?)%IH. by rewrite elem_of_cons; auto.
    + intros [->|(? & ? & Hnin)%IH]%elem_of_cons.
      * by rewrite elem_of_cons; auto.
      * rewrite elem_of_cons. split_and!; [by auto|done|].
        intros ?. apply Hnin, elem_of_app. by left.
    + intros (? & ? & ?)%IH. by rewrite elem_of_cons; auto.
Qed.

Lemma retained_covers seen subs sub :
  sub ∈ subs → verdict sub = "OK" →
  problemKey sub ∈ seen ∨
  ∃ kept, kept ∈ retained seen subs ∧ problemKey kept = problemKey sub.
Proof.
  revert seen. induction subs as [|s subs IH]; intros seen; simpl.
  - by intros ?%elem_of_nil.
  - intros [->|Hin]%elem_of_cons Hok.
    + rewrite decide_True by done. case_decide; [by left|].
      right. exists s. by rewrite elem_of_cons; auto.
    + repeat case_decide; [by apply IH| |by apply IH].
      destruct (IH (seen ++ [problemKey s]) Hin Hok)
        as [[?|Hs%list_elem_of_singleton]%elem_of_app|(kept & ? & ?)].
      * by left.
      * right. exists s. by rewrite elem_of_cons; auto.
      * right. exists kept. by rewrite elem_of_cons; auto.
Qed.

Lemma retained_NoDup seen subs :
  NoDup (problemKey <$> retained seen subs).
Proof.
  revert seen. induction subs as [|s subs IH]; intros seen; simpl.
  - constructor.
  - repeat case_decide; [done| |done].
    rewrite fmap_cons. constructor; [|done].
    intros (kept & Hkey & (_ & _ & Hnin)%retained_elem)%list_elem_of_fmap.
    apply Hnin, elem_of_app. right. rewrite Hkey. by apply list_elem_of_singleton.
Qed.

Lemma firstAccepted_here k s subs :
  verdict s = "OK" → problemKey s = k →
  firstAccepted k (s :: subs) = Some (0, s).
Proof. intros. unfold firstAccepted. simpl. by rewrite decide_True. Qed.

Lemma firstAccepted_later k s subs :
  ¬ (verdict s = "OK" ∧ problemKey s = k) →
  firstAccepted k (s :: subs) = prod_map S id <$> firstAccepted k subs.
Proof. intros. unfold firstAccepted. simpl. by rewrite decide_False. Qed.

(** Each retained submission is the first accepted one of its problem in
    the list scanned, and the retained submissions come in the order of
    these first occurrences. *)
Lemma retained_first_accepted seen subs i a :
  retained seen subs !! i = Some a →
  ∃ n, firstAccepted (problemKey a) subs = Some (n, a) ∧
       ∀ j b q fb, i < j → retained seen subs !! j = Some b →
                   firstAccepted (problemKey b) subs = Some (q, fb) → n < q.
Proof.
  revert seen i. induction subs as [|s subs IH]; intros seen i; [done|].
  cbn [retained].
  assert (∀ seen' x, x ∈ retained seen' subs →
            (verdict s = "OK" → problemKey s ∈ seen') →
            firstAccepted (problemKey x) (s :: subs)
            = prod_map S id <$> firstAccepted (problemKey x) subs) as Hlater.
  { intros seen' x (_ & _ & Hnin)%retained_elem Hs.
    apply firstAccepted_later. intros [Hok Hk]. apply Hnin. rewrite <-Hk. auto. }
  assert (∀ seen' i, (verdict s = "OK" → problemKey s ∈ seen') →
            retained seen' subs !! i = Some a →
            ∃ n, firstAccepted (problemKey a) (s :: subs) = Some (n, a) ∧
                 ∀ j b q fb, i < j → retained seen' subs !! j = Some b →
                   firstAccepted (problemKey b) (s :: subs) = Some (q, fb) → n < q)
    as Hskip.
  { clear i. intros seen' i Hs Hi. destruct (IH seen' i Hi) as (n & Hn & Hord).
    exists (S n). split.
    - rewrite (Hlater seen') by eauto using list_elem_of_lookup_2. by rewrite Hn.
    - intros j b q fb Hij Hj. rewrite (Hlater seen') by eauto using list_elem_of_lookup_2.
      destruct (firstAccepted (problemKey b) subs) as [[m' fb']|] eqn:Hb; [|done].
      intros [= <- <-]. apply ->Nat.succ_lt_mono. eauto. }
  destruct (decide (verdict s = "OK")) as [Hok|Hno];
    [destruct (decide (problemKey s ∈ seen)) as [Hin|Hnin]|].
  - apply Hskip. done.
  - destruct i as [|i].
    + intros [= ->]. exists 0. split; [by apply firstAccepted_here|].
      intros [|j] b q fb Hij; [lia|]. intros Hj.
      rewrite (Hlater (seen ++ [problemKey a])).
      * destruct (firstAccepted (problemKey b) subs) as [[m' fb']|]; [|done].
        intros [= <- <-]. lia.
      * exact (list_elem_of_lookup_2 _ j b Hj).
      * intros _. apply elem_of_app. right. by apply list_elem_of_singleton.
    + intros Hi.
      destruct (Hskip (seen ++ [problemKey s]) i) as (n & Hn & Hord); [|exact Hi|].
      { intros _. apply elem_of_app. right. by apply list_elem_of_singleton. }
      exists n. split; [done|].
      intros [|j] b q fb Hij; [lia|]. intros Hj. apply (Hord j b); [lia|exact Hj].
  - apply Hskip. done.
Qed.

(** C1. For every raw submission sequence, [processSubmissions] returns
    accepted submissions of the input only, one for each problem that has
    an accepted submission and never two for the same ProblemKey, where two
    submissions have the same key exactly when they have equal [contestId]
    and equal [index]; the submission retained for a problem is the first accepted
    one of that problem in the input, the output lists them in the order
    of these first occurrences, and the empty input gives the empty
    output. *)
Theorem processSubmissions_first_accepted_per_problem subs :
  let normalized := processSubmissions subs in
  (∀ a b, problemKey a = problemKey b ↔ sameProblem a b) ∧
  (∀ sub, sub ∈ normalized → sub ∈ subs ∧ verdict sub = "OK") ∧
  (∀ sub, sub ∈ subs → verdict sub = "OK" →
     ∃ kept, kept ∈ normalized ∧ sameProblem kept sub) ∧
  (∀ i j a b, normalized !! i = Some a → normalized !! j = Some b →
     sameProblem a b → i = j) ∧
  (∀ i a, normalized !! i = Some a →
     ∃ n, firstAccepted (problemKey a) subs = Some (n, a)) ∧
  (∀ i j a b n q fa fb, i < j →
     normalized !! i = Some a → normalized !! j = Some b →
     firstAccepted (problemKey a) subs = Some (n, fa) →
     firstAccepted (problemKey b) subs = Some (q, fb) → n < q) ∧
  processSubmissions [] = [].
Proof.
  intros normalized. subst normalized. rewrite processSubmissions_retained.
  split_and!.
  - apply problemKey_sameProblem.
  - intros sub (? & ? & _)%retained_elem. done.
  - intros sub Hin Hok.
    destruct (retained_covers [] subs sub Hin Hok) as [?%elem_of_nil|(kept & ? & ?)];
      [done|].
    exists kept. by rewrite <-problemKey_sameProblem.
  - intros i j a b Hi Hj Hsame%problemKey_sameProblem.
    apply (NoDup_lookup _ i j (problemKey a) (retained_NoDup [] subs)).
    + by rewrite list_lookup_fmap, Hi.
    + by rewrite list_lookup_fmap, Hj, Hsame.
  - intros i a Hi. destruct (retained_first_accepted _ _ _ _ Hi) as (n & ? & _).
    by exists n.
  - intros i j a b n q fa fb Hij Hi Hj Ha Hb.
    destruct (retained_first_accepted _ _ _ _ Hi) as (n' & Hn' & Hord).
    rewrite Ha in Hn'. injection Hn' as <- _. eauto.
  - done.
Qed.

End normalizer.

(* ===================================================================== *)
(** * Properties: the statistics aggregator *)
(* ===================================================================== *)

Section histograms.

Context `{Countable K}.
Implicit Types (counts : gmap K nat) (k : K) (ks : list K).

Lemma countOf_increment counts k k' :
  countOf (increment counts k) k' =
  countOf counts k' + (if decide (k = k') then 1 else 0).
Proof.
  unfold countOf, increment. rewrite lookup_insert.
  case_decide; subst; simpl; lia.
Qed.

Lemma totalCount_insert counts k n :
  totalCount (<[k := n]> counts) + countOf counts k = n + totalCount counts.
Proof.
  unfold totalCount, countOf.
  assert (∀ (m : gmap K nat) (j1 j2 : K) (z1 z2 y : nat),
            j1 ≠ j2 → m !! j1 = Some z1 → m !! j2 = Some z2 →
            z1 + (z2 + y) = z2 + (z1 + y)) as Hcomm by (intros; lia).
  destruct (counts !! k) as [old|] eqn:Hk; simpl.
  - rewrite <-(insert_delete_eq counts).
    rewrite map_fold_insert_L; [|by eauto|by rewrite lookup_delete_eq].
    rewrite (map_fold_delete_L _ _ k old counts); [lia|by eauto|done].
  - rewrite map_fold_insert_L; [lia|by eauto|done].
Qed.

Lemma totalCount_increment counts k :
  totalCount (increment counts k) = S (totalCount counts).
Proof.
  unfold increment.
  pose proof (totalCount_insert counts k (default 0 (counts !! k) + 1)) as Hins.
  unfold countOf in Hins. lia.
Qed.

Lemma countOf_foldl_increment counts ks k :
  countOf (foldl increment counts ks) k =
  countOf counts k + length (filter (λ k', k' = k) ks).
Proof.
  revert counts. induction ks as [|k' ks IH]; intros counts; simpl; [lia|].
  rewrite IH, countOf_increment, filter_cons.
  case_decide; simpl; lia.
Qed.

Lemma totalCount_foldl_increment counts ks :
  totalCount (foldl increment counts ks) = totalCount counts + length ks.
Proof.
  revert counts. induction ks as [|k' ks IH]; intros counts; simpl; [lia|].
  rewrite IH, totalCount_increment. lia.
Qed.

Lemma totalCount_empty : totalCount (∅ : gmap K nat) = 0.
Proof. unfold totalCount. apply map_fold_empty. Qed.

Lemma countOf_empty k : countOf (∅ : gmap K nat) k = 0.
Proof. unfold countOf. by rewrite lookup_empty. Qed.

(** A key has a counter only once it has been counted. *)
Lemma lookup_foldl_increment counts ks k :
  is_Some (foldl increment counts ks !! k) ↔ is_Some (counts !! k) ∨ k ∈ ks.
Proof.
  revert counts. induction ks as [|k' ks IH]; intros counts; simpl.
  - rewrite elem_of_nil. tauto.
  - rewrite IH, elem_of_cons. unfold increment. rewrite lookup_insert.
    case_decide as Hk; subst.
    + split; [auto|]. intros _. left. eauto.
    + split; [intros [?|?]; auto|intros [?|[->|?]]; [auto|done|auto]].
Qed.

End histograms.

Lemma filter_none {A} (P : A → Prop) `{∀ x, Decision (P x)} (l : list A) :
  (∀ x, x ∈ l → ¬ P x) → filter P l = [].
Proof.
  induction l as [|x l IH]; intros Hl; [done|].
  rewrite filter_cons_False by (apply Hl, elem_of_cons; auto).
  apply IH. intros y Hy. apply Hl, elem_of_cons. auto.
Qed.

Lemma filter_all {A} (P : A → Prop) `{∀ x, Decision (P x)} (l : list A) :
  (∀ x, x ∈ l → P x) → filter P l = l.
Proof.
  induction l as [|x l IH]; intros Hl; [done|].
  rewrite filter_cons_True by (apply Hl, elem_of_cons; auto).
  f_equal. apply IH. intros y Hy. apply Hl, elem_of_cons. auto.
Qed.

Lemma elem_of_length_filter {A} `{EqDecision A} (x : A) (l : list A) :
  x ∈ l ↔ 0 < length (filter (λ y, y = x) l).
Proof.
  induction l as [|y l IH]; [rewrite elem_of_nil; simpl; lia|].
  rewrite elem_of_cons, filter_cons. case_decide; simpl; [|rewrite IH].
  - split; [lia|auto].
  - split; [intros [?|?]; [by subst|done]|auto].
Qed.

Lemma proto_inherited : "__proto__" ∈ inheritedNames.
Proof. apply (bool_decide_unpack _). vm_compute. exact I. Qed.

Section plain_objects.

Implicit Types (object : PlainObject) (key k : string) (value : Counter).
Implicit Types (ks : list string).

Lemma getOwn_setOwn object key value k :
  getOwn (setOwn object key value) k
  = if decide (key = k) then Some value else getOwn object k.
Proof.
  induction object as [|[k0 v0] rest IH]; simpl; [done|].
  destruct (decide (k0 = key)) as [->|Hne]; simpl.
  - by destruct (decide (key = k)).
  - rewrite IH. destruct (decide (k0 = k)) as [->|]; [|done].
    by rewrite decide_False by congruence.
Qed.

Lemma getOwn_None object key : getOwn object key = None ↔ key ∉ object.*1.
Proof.
  induction object as [|[k0 v0] rest IH]; csimpl.
  - split; [intros _; apply not_elem_of_nil|done].
  - rewrite not_elem_of_cons. case_decide; [|rewrite IH]; split; try done.
    + by intros [? _].
    + by intros [_ ?].
Qed.

Lemma getOwn_elem object key value :
  NoDup object.*1 → getOwn object key = Some value ↔ (key, value) ∈ object.
Proof.
  induction object as [|[k0 v0] rest IH]; csimpl.
  - intros _. split; [done|by intros ?%elem_of_nil].
  - intros [Hfresh Hnodup]%NoDup_cons. rewrite elem_of_cons.
    case_decide as Hk; [subst k0|].
    + split; [intros [= ->]; by left|]. intros [[= ->]|Hin]; [done|].
      exfalso. apply Hfresh. by apply (list_elem_of_fmap_2 fst) in Hin.
    + rewrite (IH Hnodup). split; [by right|]. intros [[= ? ?]|?]; [congruence|done].
Qed.

Lemma setOwn_keys object key value :
  (setOwn object key value).*1
  = if getOwn object key is Some _ then object.*1 else object.*1 ++ [key].
Proof.
  induction object as [|[k0 v0] rest IH]; csimpl; [done|].
  case_decide; csimpl; [done|]. rewrite IH. by destruct (getOwn rest key).
Qed.

Lemma setOwn_total object key value :
  totalOf (setOwn object key value) + counterOf object key
  = totalOf object + default 0 (numberOf value).
Proof.
  unfold totalOf, counterOf. induction object as [|[k0 v0] rest IH]; csimpl.
  - destruct (numberOf value); simpl; lia.
  - case_decide; csimpl.
    + destruct (numberOf value), (numberOf v0); simpl; lia.
    + destruct (numberOf v0); simpl; lia.
Qed.

Lemma incrementProperty_keys object key :
  NoDup object.*1 → NoDup (incrementProperty object key).*1.
Proof.
  intros Hnodup. unfold incrementProperty, writeProperty. case_decide; [done|].
  rewrite setOwn_keys. destruct (getOwn object key) eqn:Hown; [done|].
  apply NoDup_app. split_and!; [done| |apply NoDup_singleton].
  intros k Hk ->%list_elem_of_singleton. by apply getOwn_None in Hown.
Qed.

Lemma foldl_incrementProperty_keys ks :
  NoDup (foldl incrementProperty [] ks).*1.
Proof.
  induction ks as [|key ks IH] using rev_ind; [constructor|].
  rewrite foldl_app. by apply incrementProperty_keys.
Qed.

Lemma filter_eq_snoc key k ks :
  length (filter (λ k', k' = k) (ks ++ [key]))
  = length (filter (λ k', k' = k) ks) + (if decide (key = k) then 1 else 0).
Proof.
  rewrite filter_app, length_app. f_equal.
  rewrite filter_cons. by case_decide.
Qed.

(** What a key that has been counted before reads, and what is written
    back for it. *)
Lemma plusOne_counted object key n :
  key ≠ "__proto__" →
  getOwn object key = (if decide (n = 0) then None else Some (valueAfter key n)) →
  plusOne (readProperty object key) = valueAfter key (n + 1).
Proof.
  intros Hproto Hown. unfold readProperty, valueAfter in *. rewrite Hown.
  destruct (decide (n = 0)) as [->|Hn]; [by case_decide|].
  by case_decide.
Qed.

(** The own properties of an object that started empty: one for each key
    counted other than [__proto__], holding the number of times the key was
    counted, as a number or behind the text of the inherited member. *)
Lemma getOwn_counted ks k :
  (k = "__proto__" ∨ k ∉ ks → getOwn (foldl incrementProperty [] ks) k = None) ∧
  (k ≠ "__proto__" → k ∈ ks →
   getOwn (foldl incrementProperty [] ks) k
   = Some (valueAfter k (length (filter (λ k', k' = k) ks)))).
Proof.
  revert k. induction ks as [|key ks IH] using rev_ind; intros k.
  { split; [done|]. by intros _ ?%elem_of_nil. }
  rewrite foldl_app. simpl. set (object := foldl incrementProperty [] ks) in *.
  rewrite filter_eq_snoc, not_elem_of_app, elem_of_app, !list_elem_of_singleton.
  unfold incrementProperty, writeProperty.
  destruct (decide (key = "__proto__")) as [->|Hproto].
  - rewrite decide_True by (split; [done|]; apply IH; by left).
    destruct (IH k) as [Hnone Hsome]. split.
    + intros [->|[Hk _]]; apply Hnone; auto.
    + intros Hk [Hin| ->]; [|done].
      rewrite decide_False by congruence. rewrite Nat.add_0_r. by apply Hsome.
  - rewrite decide_False by (by intros [? _]).
    rewrite getOwn_setOwn. split.
    + intros Hk. rewrite decide_False by (intros ->; destruct Hk as [?|[_ ?]]; done).
      apply IH. destruct Hk as [?|[? _]]; auto.
    + intros Hk Hin. destruct (decide (key = k)) as [->|Hne].
      * f_equal. apply plusOne_counted; [done|].
        destruct (IH k) as [Hnone Hsome].
        destruct (decide (k ∈ ks)) as [Hin'|Hout].
        -- pose proof Hin' as Hpos. apply elem_of_length_filter in Hpos.
           rewrite decide_False by lia. by apply Hsome.
        -- rewrite (filter_none _ ks) by (by intros ? ? ->). simpl.
           apply Hnone. by right.
      * rewrite Nat.add_0_r. apply IH; [done|]. by destruct Hin as [?| ->].
Qed.

Lemma getOwn_counted_before ks key :
  key ≠ "__proto__" →
  getOwn (foldl incrementProperty [] ks) key
  = (if decide (length (filter (λ k', k' = key) ks) = 0) then None
     else Some (valueAfter key (length (filter (λ k', k' = key) ks)))).
Proof.
  intros Hproto. destruct (getOwn_counted ks key) as [Hnone Hsome].
  destruct (decide (key ∈ ks)) as [Hin|Hout].
  - pose proof Hin as Hpos. apply elem_of_length_filter in Hpos.
    rewrite decide_False by lia. by apply Hsome.
  - rewrite (filter_none _ ks) by (by intros ? ? ->). simpl. apply Hnone. by right.
Qed.

Lemma elem_of_counted ks k value :
  (k, value) ∈ foldl incrementProperty [] ks
  ↔ k ≠ "__proto__" ∧ k ∈ ks ∧
    value = valueAfter k (length (filter (λ k', k' = k) ks)).
Proof.
  rewrite <-getOwn_elem by apply foldl_incrementProperty_keys.
  destruct (getOwn_counted ks k) as [Hnone Hsome]. split.
  - intros Hown. destruct (decide (k = "__proto__")) as [->|Hk].
    { rewrite Hnone in Hown by (by left). done. }
    destruct (decide (k ∈ ks)) as [Hin|Hout].
    + rewrite Hsome in Hown by done. by injection Hown as <-.
    + rewrite Hnone in Hown by (by right). done.
  - intros (Hk & Hin & ->). by apply Hsome.
Qed.

Lemma counterOf_counted ks k :
  counterOf (foldl incrementProperty [] ks) k
  = if decide (k ∈ inheritedNames) then 0 else length (filter (λ k', k' = k) ks).
Proof.
  unfold counterOf. destruct (decide (k = "__proto__")) as [->|Hk].
  { destruct (getOwn_counted ks "__proto__") as [Hnone _].
    rewrite Hnone by (by left).
    rewrite decide_True; [done|apply proto_inherited]. }
  rewrite getOwn_counted_before by done. unfold valueAfter.
  destruct (decide (length (filter (λ k', k' = k) ks) = 0)) as [->|?]; simpl;
    by case_decide.
Qed.

(** The numbers held add up to the number of keys counted that are not
    names of inherited members. *)
Lemma totalOf_counted ks :
  totalOf (foldl incrementProperty [] ks) = length (filter ownName ks).
Proof.
  induction ks as [|key ks IH] using rev_ind; [done|].
  rewrite foldl_app, filter_app, length_app, <-IH. simpl.
  set (object := foldl incrementProperty [] ks).
  pose proof (counterOf_counted ks key) as Hcounter. fold object in Hcounter.
  unfold incrementProperty, writeProperty. rewrite filter_cons.
  destruct (decide (key = "__proto__")) as [->|Hproto].
  - destruct (getOwn_counted ks "__proto__") as [Hown _].
    rewrite decide_True by (split; [done|]; apply Hown; by left).
    rewrite (decide_False (P := ownName "__proto__")); [simpl; lia|].
    intros Hnot. apply Hnot, proto_inherited.
  - rewrite decide_False by (by intros [? _]).
    pose proof (setOwn_total object key (plusOne (readProperty object key))) as Htotal.
    rewrite (plusOne_counted object key (length (filter (λ k', k' = key) ks)))
      in Htotal |- * by (done || by apply getOwn_counted_before).
    rewrite Hcounter in Htotal. unfold valueAfter in Htotal |- *.
    destruct (decide (key ∈ inheritedNames)) as [Hin|Hout]; simpl in Htotal.
    + rewrite (decide_False (P := ownName key)) by (by intros Hnot). simpl. lia.
    + rewrite (decide_True (P := ownName key)) by done. simpl. lia.
Qed.

(** When no key counted is the name of an inherited member, every counter
    holds a number. *)
Lemma numbers_counted ks :
  Forall ownName ks →
  Forall (λ property, is_Some (numberOf property.2)) (foldl incrementProperty [] ks).
Proof.
  intros Hown. apply Forall_forall. intros [k value] (_ & Hk & ->)%elem_of_counted.
  eapply Forall_forall in Hown; [|done]. unfold valueAfter. simpl.
  rewrite decide_False by done. by eexists.
Qed.

Lemma foldl_incrementProperty_Permutation ks1 ks2 :
  ks1 ≡ₚ ks2 → foldl incrementProperty [] ks1 ≡ₚ foldl incrementProperty [] ks2.
Proof.
  intros Hperm. apply NoDup_Permutation.
  - eapply NoDup_fmap_1, foldl_incrementProperty_keys.
  - eapply NoDup_fmap_1, foldl_incrementProperty_keys.
  - intros [k value]. rewrite !elem_of_counted. by rewrite Hperm.
Qed.

End plain_objects.

Section aggregator.

Implicit Types (sub : Submission) (subs : list Submission) (st : ProblemStats).

Lemma levels_foldl st subs :
  Stats.levels (foldl countSubmission st subs) =
  foldl incrementProperty (Stats.levels st) ((λ sub, index (problem sub)) <$> subs).
Proof. revert st. induction subs as [|s subs IH]; intros st; simpl; [done|by rewrite IH]. Qed.

Lemma tags_foldl st subs :
  Stats.tags (foldl countSubmission st subs) =
  foldl incrementProperty (Stats.tags st) (mjoin ((λ sub, tags (problem sub)) <$> subs)).
Proof.
  revert st. induction subs as [|s subs IH]; intros st; simpl; [done|].
  by rewrite IH, foldl_app.
Qed.

Lemma ratings_foldl st subs :
  Stats.ratings (foldl countSubmission st subs) =
  foldl increment (Stats.ratings st) (omap countedBucket subs).
Proof.
  revert st. induction subs as [|s subs IH]; intros st; simpl; [done|].
  rewrite IH. unfold countedBucket at 2. simpl.
  by destruct (truthyRating (rating (problem s))).
Qed.


Lemma countIf_cons {A} (p : A → bool) x l :
  countIf p (x :: l) = (if p x then 1 else 0) + countIf p l.
Proof. unfold countIf. rewrite filter_cons. by destruct (p x). Qed.

Lemma filter_countedBucket subs b :
  length (filter (λ b', b' = b) (omap countedBucket subs)) =
  countIf (carriesNonZeroRatingIn b) subs.
Proof.
  induction subs as [|s subs IH]; [done|].
  rewrite countIf_cons, <-IH. cbn [omap list_omap].
  unfold countedBucket at 1, carriesNonZeroRatingIn, truthyRating.
  destruct (rating (problem s)) as [r|]; [|done].
  destruct (decide (r = 0%Z)) as [->|Hr]; simpl.
  - done.
  - rewrite filter_cons. destruct (decide (ratingBucket r = b)) as [Hb|Hb].
    + by rewrite bool_decide_eq_true_2 by done.
    + by rewrite bool_decide_eq_false_2 by (by intros [_ ?]).
Qed.

Lemma length_countedBucket subs :
  length (omap countedBucket subs) = countIf carriesNonZeroRating subs.
Proof.
  induction subs as [|s subs IH]; [done|].
  rewrite countIf_cons, <-IH. cbn [omap list_omap].
  unfold countedBucket at 1, carriesNonZeroRating, truthyRating.
  destruct (rating (problem s)) as [r|]; [|done].
  destruct (decide (r = 0%Z)) as [->|Hr]; simpl.
  - done.
  - by rewrite bool_decide_eq_true_2 by done.
Qed.

Lemma elem_of_countedBucket subs b :
  b ∈ omap countedBucket subs ↔
  ∃ sub, sub ∈ subs ∧ carriesNonZeroRatingIn b sub = true.
Proof.
  rewrite list_elem_of_omap. unfold countedBucket, carriesNonZeroRatingIn, truthyRating.
  split; intros (sub & Hin & Hb); exists sub; (split; [done|]).
  - destruct (rating (problem sub)) as [r|]; [|done].
    destruct (decide (r = 0%Z)); [done|]. simpl in Hb. injection Hb as Hb.
    by apply bool_decide_eq_true.
  - destruct (rating (problem sub)) as [r|]; [|done].
    apply bool_decide_eq_true in Hb as [Hr Hb].
    rewrite decide_False by done. simpl. by rewrite Hb.
Qed.

(** C4, as amended. For every list of accepted submissions (normalized or
    not) and every bucket [b]: the counter of [b] in the rating histogram is
    the number of submissions whose rating is present, is not [0] and has
    [floor(rating/100)*100 = b]; the counters add up to the number of
    submissions whose rating is present and not [0], so each of them is
    counted in exactly one bucket; and [b] has a counter only if some
    submission with such a rating falls in it, so submissions without a
    rating, or with the rating [0], are left out and there is no bucket for
    them. *)
Theorem rating_histogram_counts_nonzero_ratings subs b :
  let ratings := Stats.ratings (calculateProblemStats subs) in
  countOf ratings b = countIf (carriesNonZeroRatingIn b) subs ∧
  totalCount ratings = countIf carriesNonZeroRating subs ∧
  (is_Some (ratings !! b) ↔
     ∃ sub, sub ∈ subs ∧ carriesNonZeroRatingIn b sub = true).
Proof.
  intros ratings. subst ratings. unfold calculateProblemStats.
  rewrite ratings_foldl. simpl. split_and!.
  - by rewrite countOf_foldl_increment, countOf_empty, filter_countedBucket.
  - by rewrite totalCount_foldl_increment, totalCount_empty, length_countedBucket.
  - rewrite lookup_foldl_increment, lookup_empty, elem_of_countedBucket.
    split; [intros [[? [=]]|?]; done|auto].
Qed.

(** C4, as the claim states it, fails: a submission that carries the
    rating [0] (a multiple of 100) is normalized and carries a rating of
    bucket [0], and the histogram has no counter for it. *)
Lemma rating_zero_is_not_counted :
  processSubmissions [zeroRated] = [zeroRated] ∧
  rating (problem zeroRated) = Some 0%Z ∧
  countIf (carriesRatingIn (ratingBucket 0)) [zeroRated] = 1 ∧
  countOf (Stats.ratings (calculateProblemStats [zeroRated])) (ratingBucket 0) = 0 ∧
  Stats.ratings (calculateProblemStats [zeroRated]) = ∅.
Proof. by vm_compute. Qed.


Lemma tags_counted subs :
  Stats.tags (calculateProblemStats subs)
  = foldl incrementProperty [] (mjoin ((λ sub, tags (problem sub)) <$> subs)).
Proof. unfold calculateProblemStats. by rewrite tags_foldl. Qed.

Lemma levels_counted subs :
  Stats.levels (calculateProblemStats subs)
  = foldl incrementProperty [] ((λ sub, index (problem sub)) <$> subs).
Proof. unfold calculateProblemStats. by rewrite levels_foldl. Qed.






End aggregator.

(* ===================================================================== *)
(** * Properties: the contest statistics *)
(* ===================================================================== *)

Section contest_stats.

Implicit Types (h : list RatingChange) (x y : Z) (xs : list Z).

Lemma Math_min_spec x xs :
  Math_min x xs ∈ x :: xs ∧ ∀ y, y ∈ x :: xs → (Math_min x xs ≤ y)%Z.
Proof.
  unfold Math_min. revert x. induction xs as [|z xs IH]; intros x; simpl.
  - split; [by apply elem_of_cons; left|].
    intros y ->%list_elem_of_singleton. lia.
  - destruct (IH (x `min` z)%Z) as [Hin Hle]. split.
    + apply elem_of_cons in Hin as [Hmin|Hin].
      * rewrite Hmin. destruct (Z.min_spec x z) as [[_ ->]|[_ ->]];
          rewrite !elem_of_cons; auto.
      * rewrite !elem_of_cons. auto.
    + intros y [->|[->|Hy]%elem_of_cons]%elem_of_cons.
      * etrans; [apply Hle; by apply elem_of_cons; left|]. lia.
      * etrans; [apply Hle; by apply elem_of_cons; left|]. lia.
      * apply Hle, elem_of_cons. auto.
Qed.

Lemma sumNewRating_foldr h :
  sumNewRating h = foldr Z.add 0%Z (RC.newRating <$> h).
Proof.
  unfold sumNewRating.
  assert (∀ acc, foldl (λ sum contest, (sum + RC.newRating contest)%Z) acc h
                 = (acc + foldr Z.add 0 (RC.newRating <$> h))%Z) as Hacc.
  { induction h as [|c h IH]; intros acc; csimpl; [lia|]. rewrite IH. lia. }
  rewrite Hacc. lia.
Qed.

(** [Math_round_div total count] is the integer nearest to [total / count],
    the upper one when two integers are equally near. *)
Lemma Math_round_div_spec total count :
  (0 < count)%Z →
  (2 * count * Math_round_div total count - count ≤ 2 * total
   < 2 * count * Math_round_div total count + count)%Z.
Proof.
  intros Hpos. unfold Math_round_div.
  pose proof (Z.div_mod (2 * total + count) (2 * count)) as Hdm.
  pose proof (Z.mod_pos_bound (2 * total + count) (2 * count)) as Hb.
  lia.
Qed.

(** C5, as amended. For every rating history: [attended] is its length;
    when it is empty, [bestRank] and [avgRating] are the text ["-"] (one
    hyphen-minus), neither a number nor a failure; when it is not empty,
    [bestRank] is the least [rank] of its entries and [avgRating] is the
    mean of their [newRating] rounded to the nearest integer (upwards on a
    tie). *)
Theorem calculateContestStats_spec h :
  let stats := calculateContestStats h in
  let total := foldr Z.add 0%Z (RC.newRating <$> h) in
  let count := Z.of_nat (length h) in
  attended stats = length h ∧
  (h = [] → attended stats = 0 ∧
            bestRank stats = StatText "-" ∧ avgRating stats = StatText "-") ∧
  (h ≠ [] → ∃ best avg,
     bestRank stats = StatNumber best ∧
     best ∈ RC.rank <$> h ∧ (∀ r, r ∈ RC.rank <$> h → (best ≤ r)%Z) ∧
     avgRating stats = StatNumber avg ∧
     (2 * count * avg - count ≤ 2 * total < 2 * count * avg + count)%Z).
Proof.
  intros stats total count. subst stats total count.
  destruct h as [|c h]; csimpl.
  - split_and!; [done|done|by intros []].
  - split_and!; [done|done|]. intros _.
    destruct (Math_min_spec (RC.rank c) (RC.rank <$> h)) as [Hin Hle].
    eexists _, _. split; [done|]. split; [exact Hin|]. split; [exact Hle|].
    split; [done|].
    pose proof (sumNewRating_foldr (c :: h)) as Hsum. csimpl in Hsum.
    rewrite <-Hsum. apply Math_round_div_spec. lia.
Qed.

(** C5, as the claim states it, fails on the sentinel: for the empty
    history the two fields are the text ["-"] (U+002D), which is not the
    text ["—"] (U+2014) the claim names. *)
Lemma sentinel_is_hyphen_minus :
  bestRank (calculateContestStats []) = StatText "-" ∧
  avgRating (calculateContestStats []) = StatText "-" ∧
  String.eqb "-" "—" = false ∧
  String.length "-" = 1.
Proof. by vm_compute. Qed.

End contest_stats.

(* ===================================================================== *)
(** * Properties: the history filters *)
(* ===================================================================== *)

Section substrings.

Implicit Types (s p sub pre mid post : string).

Lemma startsWith_spec s p :
  startsWith s p = true ↔ ∃ post, s = p +:+ post.
Proof.
  revert s. induction p as [|a p IH]; intros s.
  - split; [by exists s|by destruct s].
  - destruct s as [|b s]; simpl.
    + split; [done|]. by intros [post [=]].
    + rewrite andb_true_iff, bool_decide_eq_true, IH. split.
      * intros [-> [post ->]]. by exists post.
      * intros [post Heq]. injection Heq as -> ->. eauto.
Qed.

Lemma includes_spec s sub :
  includes s sub = true ↔ ∃ pre post, s = pre +:+ sub +:+ post.
Proof.
  induction s as [|c s IH]; cbn [includes].
  - rewrite orb_false_r, startsWith_spec. split.
    + intros [post Heq]. by exists "", post.
    + intros (pre & post & Heq). destruct pre; [by exists post|done].
  - rewrite orb_true_iff, startsWith_spec, IH. split.
    + intros [[post Heq]|(pre & post & ->)].
      * by exists "", post.
      * by exists (String c pre), post.
    + intros ([|c' pre] & post & Heq).
      * left. by exists post.
      * right. injection Heq as -> ->. by exists pre, post.
Qed.

Lemma toLowerCase_app s1 s2 :
  toLowerCase (s1 +:+ s2) = toLowerCase s1 +:+ toLowerCase s2.
Proof.
  induction s1 as [|c s1 IH]; [done|].
  rewrite app_cons. simpl. by rewrite IH.
Qed.

(** A cut of the lower-cased text is the image of a cut of the text. *)
Lemma toLowerCase_split s t1 t2 :
  toLowerCase s = t1 +:+ t2 →
  ∃ s1 s2, s = s1 +:+ s2 ∧ toLowerCase s1 = t1 ∧ toLowerCase s2 = t2.
Proof.
  revert s. induction t1 as [|c t1 IH]; intros s Heq.
  - by exists "", s.
  - destruct s as [|b s]; [done|]. injection Heq as Hc Heq.
    destruct (IH s Heq) as (s1 & s2 & -> & <- & <-).
    exists (String b s1), s2. split_and!; [done| |done]. simpl. by rewrite Hc.
Qed.

(** The test the filter runs, [name.toLowerCase().includes(needle)], is
    the occurrence of [needle] in [name] up to the case of letters. *)
Lemma includes_toLowerCase name needle :
  includes (toLowerCase name) needle = true ↔ occursIgnoringCase needle name.
Proof.
  rewrite includes_spec. unfold occursIgnoringCase. split.
  - intros (pre & post & Heq).
    apply toLowerCase_split in Heq as (s1 & rest & -> & _ & Hrest).
    apply toLowerCase_split in Hrest as (s2 & s3 & -> & Hmid & _).
    by exists s1, s2, s3.
  - intros (pre & mid & post & -> & <-).
    exists (toLowerCase pre), (toLowerCase post).
    by rewrite !toLowerCase_app.
Qed.

End substrings.

Section heap.

Implicit Types (σ : heap) (r : ref) (o : JsObject).

(** Allocation gives a reference that was not in use and leaves every
    object of the heap as it was. *)
Lemma allocate_spec o σ :
  ∃ r, allocate o σ = Some (r, <[r := o]> σ) ∧ σ !! r = None.
Proof.
  exists (fresh (dom σ)). split; [done|].
  apply not_elem_of_dom, is_fresh.
Qed.

Lemma allocate_grows o σ r σ' :
  allocate o σ = Some (r, σ') → σ ⊆ σ' ∧ σ' !! r = Some o.
Proof.
  destruct (allocate_spec o σ) as (r0 & -> & Hfresh). intros [= <- <-].
  split; [by apply insert_subseteq|by rewrite lookup_insert_eq].
Qed.

Lemma readRatingArray_spec r σ items :
  σ !! r = Some (RatingArray items) → readRatingArray r σ = Some (items, σ).
Proof.
  intros Hr. unfold readRatingArray, readObject, mbind, Run_bind. by rewrite Hr.
Qed.

End heap.

Section filters.

Implicit Types (h : list RatingChange) (c : RatingChange) (label : string).
Implicit Types (σ : heap) (r : ref).

Lemma matchesContestType_spec label c :
  matchesContestType label c = true ↔ categoryRetains label c.
Proof.
  unfold matchesContestType, categoryRetains.
  repeat case_decide; rewrite <-?includes_toLowerCase; [|done..].
  rewrite andb_true_iff, negb_true_iff, not_true_iff_false. done.
Qed.

Lemma matchesContestType_other label c :
  label ∉ ["Div. 1"; "Div. 2"; "Div. 3"; "Educational"] →
  matchesContestType label c = true.
Proof.
  rewrite !not_elem_of_cons. intros (? & ? & ? & ? & _).
  unfold matchesContestType. by rewrite !decide_False.
Qed.

Lemma filterContestsByType_filter h label :
  filterContestsByType h label = filter (λ c, matchesContestType label c) h.
Proof.
  unfold filterContestsByType.
  case_bool_decide as Hlen; simpl.
  - by destruct h.
  - case_bool_decide as Hall; [|done]. subst label.
    symmetry. apply filter_all. done.
Qed.

(** C6. The category filter keeps the entries of the history that pass the
    test of the label on their contest name, letter case ignored, with
    their order and multiplicity: for ["Div. 1"] the name contains
    ["div. 1"] and does not contain ["div. 2"]; for ["Div. 2"],
    ["Div. 3"] and ["Educational"] it contains ["div. 2"], ["div. 3"] and
    ["educational"]; for ["All"] and for any other label every entry
    passes and the history comes back as it is. In particular no entry
    kept for ["Div. 1"] has a name that contains ["div. 2"]. *)
Theorem filterContestsByType_by_category h label :
  filterContestsByType h label = filter (λ c, matchesContestType label c) h ∧
  (∀ c, matchesContestType label c = true ↔ categoryRetains label c) ∧
  (∀ c, c ∈ filterContestsByType h label ↔ c ∈ h ∧ categoryRetains label c) ∧
  (∀ c, c ∈ filterContestsByType h "Div. 1" →
        occursIgnoringCase "div. 1" (RC.contestName c) ∧
        ¬ occursIgnoringCase "div. 2" (RC.contestName c)) ∧
  (label ∉ ["Div. 1"; "Div. 2"; "Div. 3"; "Educational"] →
     filterContestsByType h label = h ∧ ∀ c, categoryRetains label c).
Proof.
  split_and!.
  - apply filterContestsByType_filter.
  - apply matchesContestType_spec.
  - intros c. rewrite filterContestsByType_filter, list_elem_of_filter.
    rewrite Is_true_true, matchesContestType_spec. tauto.
  - intros c. rewrite filterContestsByType_filter, list_elem_of_filter.
    rewrite Is_true_true, matchesContestType_spec. by intros [? _].
  - intros Hother. split.
    + rewrite filterContestsByType_filter. apply filter_all.
      intros c _. apply Is_true_true. by apply matchesContestType_other.
    + intros c. apply matchesContestType_spec. by apply matchesContestType_other.
Qed.

Lemma filterRatingHistoryByTime_sublist nowMs h label :
  filterRatingHistoryByTime nowMs h label `sublist_of` h.
Proof.
  unfold filterRatingHistoryByTime.
  destruct (_ || _); [done|]. destruct (timeWindow label); [|done].
  apply sublist_filter.
Qed.

Lemma filterContestsByType_sublist h label :
  filterContestsByType h label `sublist_of` h.
Proof. rewrite filterContestsByType_filter. apply sublist_filter. Qed.

(** On references: each filter returns a reference to an array that holds
    the filtered contents, and every object that was in the heap, the
    source array among them, is left as it was. *)
Lemma filterRatingHistoryByTimeAt_spec nowMs σ r h label :
  σ !! r = Some (RatingArray h) →
  ∃ r' σ', filterRatingHistoryByTimeAt nowMs r label σ = Some (r', σ') ∧
           σ ⊆ σ' ∧
           σ' !! r' = Some (RatingArray (filterRatingHistoryByTime nowMs h label)) ∧
           (label = "All" → r' = r ∧ σ' = σ).
Proof.
  intros Hr. unfold filterRatingHistoryByTimeAt, filterRatingHistoryByTime.
  unfold mbind at 1, Run_bind at 1. rewrite (readRatingArray_spec _ _ _ Hr).
  case_bool_decide as Hlen; simpl.
  { exists r, σ. by split_and!. }
  case_bool_decide as Hall; simpl.
  { exists r, σ. by split_and!. }
  destruct (timeWindow label) as [window|].
  - destruct (allocate _ σ) as [[r' σ']|] eqn:Halloc;
      [|by destruct (allocate_spec (RatingArray
           (filter (λ contest, withinWindow nowMs window contest) h)) σ)
           as (? & ? & _); simplify_eq].
    apply allocate_grows in Halloc as [? ?]. exists r', σ'. by split_and!.
  - exists r, σ. by split_and!.
Qed.

Lemma filterContestsByTypeAt_spec σ r h label :
  σ !! r = Some (RatingArray h) →
  ∃ r' σ', filterContestsByTypeAt r label σ = Some (r', σ') ∧
           σ ⊆ σ' ∧
           σ' !! r' = Some (RatingArray (filterContestsByType h label)) ∧
           (label = "All" → r' = r ∧ σ' = σ).
Proof.
  intros Hr. unfold filterContestsByTypeAt, filterContestsByType.
  unfold mbind at 1, Run_bind at 1. rewrite (readRatingArray_spec _ _ _ Hr).
  case_bool_decide as Hlen; simpl.
  { exists r, σ. by split_and!. }
  case_bool_decide as Hall; simpl.
  { exists r, σ. by split_and!. }
  destruct (allocate _ σ) as [[r' σ']|] eqn:Halloc;
    [|by destruct (allocate_spec (RatingArray
         (filter (λ contest, matchesContestType label contest) h)) σ)
         as (? & ? & _); simplify_eq].
  apply allocate_grows in Halloc as [? ?]. exists r', σ'. by split_and!.
Qed.

(** C7. For every rating history [h]: with the label ["All"] the
    time-window filter and the category filter return [h] itself, same
    elements in the same order; with any label the result of either filter
    is a subsequence of [h] that keeps the order; and on the heap, either
    filter, called on a reference to an array holding [h], returns a
    reference to an array holding the filtered history while the source
    array and every other object of the heap stay as they were (with
    ["All"] the reference returned is the one given, and nothing is
    allocated). *)
Theorem filters_identity_subsequence_no_mutation nowMs h label :
  (filterRatingHistoryByTime nowMs h "All" = h ∧
   filterContestsByType h "All" = h ∧
   filterContestsByType (filterRatingHistoryByTime nowMs h "All") "All" = h) ∧
  (filterRatingHistoryByTime nowMs h label `sublist_of` h ∧
   filterContestsByType h label `sublist_of` h) ∧
  (∀ σ r, σ !! r = Some (RatingArray h) →
     (∃ r' σ', filterRatingHistoryByTimeAt nowMs r label σ = Some (r', σ') ∧
        σ' !! r = Some (RatingArray h) ∧ σ ⊆ σ' ∧
        σ' !! r' = Some (RatingArray (filterRatingHistoryByTime nowMs h label)) ∧
        (label = "All" → r' = r ∧ σ' = σ)) ∧
     (∃ r' σ', filterContestsByTypeAt r label σ = Some (r', σ') ∧
        σ' !! r = Some (RatingArray h) ∧ σ ⊆ σ' ∧
        σ' !! r' = Some (RatingArray (filterContestsByType h label)) ∧
        (label = "All" → r' = r ∧ σ' = σ))).
Proof.
  assert (filterRatingHistoryByTime nowMs h "All" = h) as Htime.
  { unfold filterRatingHistoryByTime. by rewrite orb_true_r. }
  assert (filterContestsByType h "All" = h) as Htype.
  { unfold filterContestsByType. by rewrite orb_true_r. }
  split_and!.
  - done.
  - done.
  - by rewrite Htime.
  - apply filterRatingHistoryByTime_sublist.
  - apply filterContestsByType_sublist.
  - intros σ r Hr. split.
    + destruct (filterRatingHistoryByTimeAt_spec nowMs σ r h label Hr)
        as (r' & σ' & ? & ? & ? & ?).
      exists r', σ'. split_and!; [done| |done..]. by eapply lookup_weaken.
    + destruct (filterContestsByTypeAt_spec σ r h label Hr)
        as (r' & σ' & ? & ? & ? & ?).
      exists r', σ'. split_and!; [done| |done..]. by eapply lookup_weaken.
Qed.

End filters.

(* ===================================================================== *)
(** * Properties: the retry client *)
(* ===================================================================== *)

Section retry.

Context {T : Type}.
Implicit Types (server : nat → FetchResult T) (retries : Z) (i remaining : nat).

(** The loop with some budget left, entered with [remaining = retries - i]:
    it ends with a payload or with a thrown error, after at least one
    request. *)
Lemma retryLoop_settles server retries remaining i :
  (Z.of_nat i + Z.of_nat remaining = retries)%Z → 0 < remaining →
  ∃ events,
    Requested ∈ events ∧
    ((∃ result, retryLoop remaining server retries i = (Returned result, events)) ∨
     (∃ message, retryLoop remaining server retries i = (Threw message, events))).
Proof.
  revert i. induction remaining as [|k IH]; intros i Hi Hpos; [lia|].
  simpl. destruct (attempt (server i)) as [result|error].
  - exists [Requested]. split; [by apply list_elem_of_singleton|]. left. eauto.
  - case_decide as Hlast.
    + exists [Requested]. split; [by apply list_elem_of_singleton|]. right. eauto.
    + destruct (IH (S i)) as (events & Hreq & Hend); [lia|lia|].
      exists (Requested :: Waited (1000 * (Z.of_nat i + 1)) :: events).
      split; [by apply elem_of_cons; left|].
      destruct Hend as [[result ->]|[message ->]]; eauto.
Qed.

Lemma fetchWithRetry_no_budget server retries :
  (retries ≤ 0)%Z → fetchWithRetry server retries = (ReturnedUndefined, []).
Proof.
  intros Hle. unfold fetchWithRetry.
  by replace (Z.to_nat retries) with 0 by lia.
Qed.

Lemma fetchWithRetry_settles server retries :
  (1 ≤ retries)%Z →
  ∃ events,
    Requested ∈ events ∧
    ((∃ result, fetchWithRetry server retries = (Returned result, events)) ∨
     (∃ message, fetchWithRetry server retries = (Threw message, events))).
Proof. intros Hge. apply retryLoop_settles; lia. Qed.

(** C10. With a budget of [0] or less, [fetchWithRetry] makes no request,
    waits for nothing, throws nothing and returns [undefined]; with a
    budget of [1] or more every call makes at least one request and ends
    with a returned payload or with a thrown error; so [undefined] is what
    comes back exactly when the budget is not positive. *)
Theorem fetchWithRetry_budget server retries :
  ((retries ≤ 0)%Z → fetchWithRetry server retries = (ReturnedUndefined, [])) ∧
  ((1 ≤ retries)%Z →
     ∃ events,
       Requested ∈ events ∧
       ((∃ result, fetchWithRetry server retries = (Returned result, events)) ∨
        (∃ message, fetchWithRetry server retries = (Threw message, events)))) ∧
  ((fetchWithRetry server retries).1 = ReturnedUndefined ↔ (retries ≤ 0)%Z).
Proof.
  split_and!.
  - apply fetchWithRetry_no_budget.
  - apply fetchWithRetry_settles.
  - split.
    + intros Hundef. destruct (decide (retries ≤ 0)%Z) as [|Hpos]; [done|].
      destruct (fetchWithRetry_settles server retries) as (events & _ & Hend); [lia|].
      destruct Hend as [[result Heq]|[message Heq]]; by rewrite Heq in Hundef.
    + intros Hle. by rewrite fetchWithRetry_no_budget.
Qed.

(** The three attempts of the default budget. *)
Lemma fetchWithRetry_third_attempt server e0 e1 :
  attempt (server 0) = inr e0 → attempt (server 1) = inr e1 →
  fetchWithRetry server defaultRetries =
    (match attempt (server 2) with
     | inl result => Returned result
     | inr message => Threw message
     end,
     [Requested; Waited 1000; Requested; Waited 2000; Requested]).
Proof.
  intros H0 H1. unfold fetchWithRetry, defaultRetries.
  change (Z.to_nat 3) with 3. cbn [retryLoop]. rewrite H0, H1. simpl.
  by destruct (attempt (server 2)).
Qed.

(** C2. With the default budget of 3 attempts: when the first two attempts
    fail and the third succeeds, the payload of the third is returned and
    nothing is thrown; when the three attempts fail, the call throws once,
    with the message of the third failure. In both cases three requests
    are made, with waits of 1000 ms and 2000 ms between them. The message
    of a failed attempt is the transport error message when the request
    itself fails, the service's comment when the envelope is not ["OK"]
    and has a comment, ["API Error"] when it has none, the text of the
    HTTP status when the response is not ok, and the parser's message when
    the body is not JSON. *)
Theorem fetchWithRetry_third_attempt_decides server :
  (∀ e0 e1 payload,
     attempt (server 0) = inr e0 → attempt (server 1) = inr e1 →
     attempt (server 2) = inl payload →
     fetchWithRetry server defaultRetries =
       (Returned payload,
        [Requested; Waited 1000; Requested; Waited 2000; Requested])) ∧
  (∀ e0 e1 e2,
     attempt (server 0) = inr e0 → attempt (server 1) = inr e1 →
     attempt (server 2) = inr e2 →
     fetchWithRetry server defaultRetries =
       (Threw e2,
        [Requested; Waited 1000; Requested; Waited 2000; Requested])) ∧
  (∀ message, attempt (T := T) (NetworkFailure message) = inr message) ∧
  (∀ code status comment (result : T),
     status ≠ "OK" → comment ≠ "" →
     attempt (HttpResponse true code (Envelope status (Some comment) result))
     = inr comment) ∧
  (∀ code status (result : T),
     status ≠ "OK" →
     attempt (HttpResponse true code (Envelope status None result))
     = inr "API Error") ∧
  (∀ code body,
     attempt (T := T) (HttpResponse false code body)
     = inr ("HTTP error! status: " +:+ numberToString code)) ∧
  (∀ code message,
     attempt (T := T) (HttpResponse true code (Malformed message)) = inr message) ∧
  (∀ code comment (result : T),
     attempt (HttpResponse true code (Envelope "OK" comment result)) = inl result).
Proof.
  split_and!.
  - intros e0 e1 payload H0 H1 H2.
    by rewrite (fetchWithRetry_third_attempt _ _ _ H0 H1), H2.
  - intros e0 e1 e2 H0 H1 H2.
    by rewrite (fetchWithRetry_third_attempt _ _ _ H0 H1), H2.
  - done.
  - intros code status comment result Hstatus Hcomment. simpl.
    rewrite bool_decide_eq_true_2 by done. by rewrite decide_False.
  - intros code status result Hstatus. simpl.
    by rewrite bool_decide_eq_true_2.
  - done.
  - done.
  - done.
Qed.

End retry.

(* ===================================================================== *)
(** * Properties: the queries of the two views *)
(* ===================================================================== *)

Section views.

Implicit Types (info : Lookup (list UserProfile)).
Implicit Types (rating : Lookup (list RatingChange)).
Implicit Types (status : Lookup (list Submission)).

(** A query fails for good exactly when its three attempts fail; the
    message is the one of the third. *)
Lemma lookupFails_exhausted {T} (q : Lookup T) message :
  lookupFails q message ↔
  ∃ e0 e1, attempt (responses q 0) = inr e0 ∧ attempt (responses q 1) = inr e1 ∧
           attempt (responses q 2) = inr message.
Proof.
  unfold lookupFails, fetchWithRetry, defaultRetries.
  change (Z.to_nat 3) with 3. cbn [retryLoop].
  destruct (attempt (responses q 0)) as [?|e0]; simpl.
  { split; [done|]. by intros (? & ? & [=] & _). }
  destruct (attempt (responses q 1)) as [?|e1]; simpl.
  { split; [done|]. by intros (? & ? & _ & [=] & _). }
  destruct (attempt (responses q 2)) as [?|e2]; simpl.
  { split; [done|]. by intros (? & ? & _ & _ & [=]). }
  split.
  - intros [= ->]. eauto.
  - by intros (? & ? & _ & _ & [= ->]).
Qed.

Lemma getUserInfo_returns info user users :
  lookupReturns info (user :: users) →
  settled (getUserInfo info) = Fulfilled (Some user).
Proof. unfold lookupReturns, getUserInfo. simpl. by intros ->. Qed.

Lemma getUserInfo_fails info message :
  lookupFails info message → settled (getUserInfo info) = Rejected (Error message).
Proof. unfold lookupFails, getUserInfo. simpl. by intros ->. Qed.

Lemma getArray_returns {T} (q : Lookup (list T)) items :
  lookupReturns q items → settled (getArray q) = Fulfilled (Some items).
Proof. unfold lookupReturns, getArray. simpl. by intros ->. Qed.

Lemma getArray_fails {T} (q : Lookup (list T)) message :
  lookupFails q message → settled (getArray q) = Rejected (Error message).
Proof. unfold lookupFails, getArray. simpl. by intros ->. Qed.

Lemma getArray_rejected {T} (q : Lookup (list T)) error :
  settled (getArray q) = Rejected error →
  ∃ message, error = Error message ∧ lookupFails q message.
Proof.
  unfold lookupFails, getArray. simpl.
  destruct (fetchWithRetry (responses q) defaultRetries).1; [done| |done].
  intros [= <-]. eauto.
Qed.

(** With the default budget the profile query never gives [undefined]:
    its promise is rejected only when the query fails for good. *)
Lemma getUserInfo_rejected info error :
  settled (getUserInfo info) = Rejected error →
  ∃ message, error = Error message ∧ lookupFails info message.
Proof.
  unfold lookupFails, getUserInfo. simpl.
  destruct (fetchWithRetry_settles (responses info) defaultRetries)
    as (events & _ & [[result Heq]|[message Heq]]); [done|..]; rewrite Heq; simpl.
  - done.
  - intros [= <-]. eauto.
Qed.

(** [.catch(() => [])] never rejects: the history seen is the payload, or
    the empty history after a failure. *)
Lemma catchEmpty_historySeen rating h :
  historySeen rating h →
  settled (catchEmpty (getUserRating rating)) = Fulfilled (Some h).
Proof.
  unfold catchEmpty, getUserRating. cbn [settled].
  intros [Hret|[-> [message Hfail]]].
  - by rewrite (getArray_returns _ _ Hret).
  - by rewrite (getArray_fails _ _ Hfail).
Qed.

Lemma catchEmpty_fulfilled {T} (p : Promise (option (list T))) :
  ∃ value, settled (catchEmpty p) = Fulfilled value.
Proof. unfold catchEmpty. simpl. destruct (settled p); eauto. Qed.

Lemma Promise_all2_fulfilled {A B} (pa : Promise A) (pb : Promise B) a b :
  settled pa = Fulfilled a → settled pb = Fulfilled b →
  settled (Promise_all2 pa pb) = Fulfilled (a, b).
Proof. unfold Promise_all2. by intros -> ->. Qed.

(** [Promise.all] is rejected as soon as one of its promises is, with the
    rejection of one of them. *)
Lemma Promise_all2_rejected {A B} (pa : Promise A) (pb : Promise B) :
  (∃ error, settled pa = Rejected error) ∨ (∃ error, settled pb = Rejected error) →
  ∃ error, settled (Promise_all2 pa pb) = Rejected error ∧
           (settled pa = Rejected error ∨ settled pb = Rejected error).
Proof.
  unfold Promise_all2.
  destruct (settled pa) as [a|ea], (settled pb) as [b|eb];
    intros [[e [=]]|[e [=]]]; subst; try case_decide; simpl; eauto.
Qed.

(** The queries of one user are rejected when the profile query or the
    submission query fails for good, whatever the rating query does, and
    the error is the one of such a failed query. *)
Lemma userQueries_rejected info rating status :
  (∃ message, lookupFails info message) ∨ (∃ message, lookupFails status message) →
  ∃ message, settled (userQueries info rating status) = Rejected (Error message) ∧
             (lookupFails info message ∨ lookupFails status message).
Proof.
  intros Hfail. unfold userQueries, Promise_all3.
  destruct (catchEmpty_fulfilled (getUserRating rating)) as [h Hh].
  set (inner := Promise_all2 (getUserInfo info) (catchEmpty (getUserRating rating))).
  assert ((∃ message, lookupFails info message) →
          ∃ message, settled inner = Rejected (Error message) ∧ lookupFails info message)
    as Hinner.
  { intros [message Hinfo]. exists message. split; [|done].
    unfold inner, Promise_all2. by rewrite (getUserInfo_fails _ _ Hinfo), Hh. }
  assert (∀ error, settled inner = Rejected error →
            settled (getUserInfo info) = Rejected error) as Hinner_inv.
  { intros error. unfold inner, Promise_all2. rewrite Hh.
    destruct (settled (getUserInfo info)); simpl; [by intros [=]|by intros [= ->]]. }
  destruct (Promise_all2_rejected inner (getUserSubmissions status))
    as (error & Hall & Hfrom).
  { destruct Hfail as [Hinfo|[message Hstatus]].
    - left. destruct (Hinner Hinfo) as (message & ? & _). eauto.
    - right. exists (Error message). by apply getArray_fails. }
  destruct Hfrom as [Hfrom|Hfrom].
  - apply Hinner_inv in Hfrom.
    destruct Hfail as [[message Hinfo]|[message Hstatus]].
    + rewrite (getUserInfo_fails _ _ Hinfo) in Hfrom. injection Hfrom as <-.
      exists message. eauto.
    + apply getUserInfo_rejected in Hfrom as (message' & -> & ?).
      exists message'. eauto.
  - apply getArray_rejected in Hfrom as (message & -> & ?). exists message. eauto.
Qed.

Lemma userQueries_fulfilled info rating status user users h submissions :
  lookupReturns info (user :: users) → historySeen rating h →
  lookupReturns status submissions →
  settled (userQueries info rating status)
  = Fulfilled (Some user, Some h, Some submissions).
Proof.
  intros Hinfo Hrating Hstatus. unfold userQueries, Promise_all3.
  apply Promise_all2_fulfilled; [apply Promise_all2_fulfilled|].
  - by eapply getUserInfo_returns.
  - by apply catchEmpty_historySeen.
  - by apply getArray_returns.
Qed.


(** C3. A query fails for good exactly when its three attempts fail. In the
    single-user analysis and in the two-user comparison alike, with handles
    that are not blank: when the profile query and the submission query of
    each user return, the view is shown, and the rating
    history it shows for a user is the payload of the rating query, or the
    empty history when that query has failed for good (its three attempts
    failed); when the profile query or the submission query of a user fails
    for good, nothing is shown but an error, which carries the message of
    such a failed query, whatever the rating queries did. *)
Theorem rating_failure_absorbed_other_failures_fatal :
  (∀ T (q : Lookup T) message,
     lookupFails q message ↔
     ∃ e0 e1, attempt (responses q 0) = inr e0 ∧ attempt (responses q 1) = inr e1 ∧
              attempt (responses q 2) = inr message) ∧
  (∀ handle info rating status, isBlank handle = false →
     (∀ user users submissions message,
        lookupReturns info (user :: users) → lookupFails rating message →
        lookupReturns status submissions →
        analyzeUser handle info rating status =
          AnalysisShown user [] (processSubmissions submissions)
            (calculateProblemStats (processSubmissions submissions))
            (calculateContestStats [])) ∧
     (∀ user users submissions h,
        lookupReturns info (user :: users) → historySeen rating h →
        lookupReturns status submissions →
        analyzeUser handle info rating status =
          AnalysisShown user h (processSubmissions submissions)
            (calculateProblemStats (processSubmissions submissions))
            (calculateContestStats h)) ∧
     ((∃ message, lookupFails info message) ∨
      (∃ message, lookupFails status message) →
        ∃ message,
          analyzeUser handle info rating status = AnalysisFailed (Error message) ∧
          (lookupFails info message ∨ lookupFails status message))) ∧
  (∀ handle1 handle2 info1 rating1 status1 info2 rating2 status2,
     isBlank handle1 = false → isBlank handle2 = false →
     (∀ user1 users1 submissions1 h1 user2 users2 submissions2 h2,
        lookupReturns info1 (user1 :: users1) → historySeen rating1 h1 →
        lookupReturns status1 submissions1 →
        lookupReturns info2 (user2 :: users2) → historySeen rating2 h2 →
        lookupReturns status2 submissions2 →
        compareUsers handle1 handle2 info1 rating1 status1 info2 rating2 status2 =
          ComparisonShown user1 user2 h1 h2
            (processSubmissions submissions1) (processSubmissions submissions2)
            (commonProblems (processSubmissions submissions1)
                            (processSubmissions submissions2))
            (commonContests h1 h2)) ∧
     (∀ message1 message2,
        lookupFails rating1 message1 → lookupFails rating2 message2 →
        historySeen rating1 [] ∧ historySeen rating2 []) ∧
     ((∃ message, lookupFails info1 message) ∨
      (∃ message, lookupFails status1 message) ∨
      (∃ message, lookupFails info2 message) ∨
      (∃ message, lookupFails status2 message) →
        ∃ message,
          compareUsers handle1 handle2 info1 rating1 status1 info2 rating2 status2
          = ComparisonFailed (Error message) ∧
          (lookupFails info1 message ∨ lookupFails status1 message ∨
           lookupFails info2 message ∨ lookupFails status2 message))).
Proof.
  split_and!.
  - intros T q message. apply lookupFails_exhausted.
  - intros handle info rating status Hhandle.
    assert (∀ user users submissions h,
              lookupReturns info (user :: users) → historySeen rating h →
              lookupReturns status submissions →
              analyzeUser handle info rating status =
                AnalysisShown user h (processSubmissions submissions)
                  (calculateProblemStats (processSubmissions submissions))
                  (calculateContestStats h)) as Hshown.
    { intros user users submissions h Hinfo Hrating Hstatus.
      unfold analyzeUser. rewrite Hhandle.
      by rewrite (userQueries_fulfilled _ _ _ _ _ _ _ Hinfo Hrating Hstatus). }
    split_and!.
    + intros user users submissions message Hinfo Hrating Hstatus.
      apply (Hshown user users); [done| |done]. right. eauto.
    + done.
    + intros Hfail.
      destruct (userQueries_rejected info rating status Hfail) as (message & Hrej & ?).
      exists message. split; [|done].
      unfold analyzeUser. by rewrite Hhandle, Hrej.
  - intros handle1 handle2 info1 rating1 status1 info2 rating2 status2 Hh1 Hh2.
    split_and!.
    + intros user1 users1 submissions1 h1 user2 users2 submissions2 h2
             Hinfo1 Hrating1 Hstatus1 Hinfo2 Hrating2 Hstatus2.
      unfold compareUsers. rewrite Hh1, Hh2. simpl.
      rewrite (Promise_all2_fulfilled _ _ _ _
                 (userQueries_fulfilled _ _ _ _ _ _ _ Hinfo1 Hrating1 Hstatus1)
                 (userQueries_fulfilled _ _ _ _ _ _ _ Hinfo2 Hrating2 Hstatus2)).
      done.
    + intros message1 message2 Hr1 Hr2. split; right; eauto.
    + intros Hfail.
      destruct (Promise_all2_rejected (userQueries info1 rating1 status1)
                                      (userQueries info2 rating2 status2))
        as (error & Hall & Hfrom).
      { destruct Hfail as [H1|[H1|[H2|H2]]].
        - left. destruct (userQueries_rejected info1 rating1 status1) as (m & ? & _);
            eauto.
        - left. destruct (userQueries_rejected info1 rating1 status1) as (m & ? & _);
            eauto.
        - right. destruct (userQueries_rejected info2 rating2 status2) as (m & ? & _);
            eauto.
        - right. destruct (userQueries_rejected info2 rating2 status2) as (m & ? & _);
            eauto. }
      assert (∀ info rating status error,
                settled (userQueries info rating status) = Rejected error →
                ∃ message, error = Error message ∧
                           (lookupFails info message ∨ lookupFails status message))
        as Hinv.
      { clear. intros info rating status error.
        unfold userQueries, Promise_all3, Promise_all2 at 1.
        destruct (settled (Promise_all2 _ _)) as [[u h]|e1] eqn:Hinner,
                 (settled (getUserSubmissions status)) as [s|e2] eqn:Hstatus;
          try case_decide; simpl; intros [= <-].
        - apply getArray_rejected in Hstatus as (m & -> & ?). eauto.
        - revert Hinner. unfold Promise_all2.
          destruct (catchEmpty_fulfilled (getUserRating rating)) as [v ->].
          destruct (settled (getUserInfo info)) eqn:Hinfo; simpl; intros [= <-].
          apply getUserInfo_rejected in Hinfo as (m & -> & ?). eauto.
        - apply getArray_rejected in Hstatus as (m & -> & ?). eauto.
        - revert Hinner. unfold Promise_all2.
          destruct (catchEmpty_fulfilled (getUserRating rating)) as [v ->].
          destruct (settled (getUserInfo info)) eqn:Hinfo; simpl; intros [= <-].
          apply getUserInfo_rejected in Hinfo as (m & -> & ?). eauto. }
      assert (∃ message, error = Error message ∧
                (lookupFails info1 message ∨ lookupFails status1 message ∨
                 lookupFails info2 message ∨ lookupFails status2 message))
        as (message & -> & Hwho).
      { destruct Hfrom as [(m & -> & [?|?])%Hinv|(m & -> & [?|?])%Hinv]; eauto 6. }
      exists message. split; [|done].
      unfold compareUsers. rewrite Hh1, Hh2. simpl. by rewrite Hall.
Qed.

End views.

(* ===================================================================== *)
(** * Properties: the comparison correlator *)
(* ===================================================================== *)

Section overlap.

Context `{Countable A}.
Implicit Types (s : gset A).

Lemma commonSize_intersection s1 s2 : commonSize s1 s2 = size (s1 ∩ s2).
Proof.
  unfold commonSize. f_equal. apply set_eq. intros x.
  rewrite elem_of_list_to_set, list_elem_of_filter, elem_of_elements.
  rewrite elem_of_intersection. tauto.
Qed.

Lemma commonSize_comm s1 s2 : commonSize s1 s2 = commonSize s2 s1.
Proof. rewrite !commonSize_intersection. f_equal. apply (comm_L (∩)). Qed.

Lemma commonSize_self s : commonSize s s = size s.
Proof. rewrite commonSize_intersection. f_equal. apply (idemp_L (∩)). Qed.

End overlap.

Section running.

Implicit Types (σ : heap) (r : ref) (o : JsObject).

Lemma runsTo_ret {A} (a : A) σ (Q : A → heap → Prop) :
  Q a σ → runsTo (mret a) σ Q.
Proof. intros HQ. by exists a, σ. Qed.

Lemma runsTo_bind {A B} (m : Run A) (f : A → Run B) σ
      (Q : A → heap → Prop) (R : B → heap → Prop) :
  runsTo m σ Q →
  (∀ a σ', σ ⊆ σ' → Q a σ' → runsTo (f a) σ' R) →
  runsTo (m ≫= f) σ R.
Proof.
  intros (a & σ1 & Hm & Hsub & HQ) Hf.
  destruct (Hf a σ1 Hsub HQ) as (b & σ2 & Hfa & Hsub' & HR).
  exists b, σ2. split_and!; [|by etrans|done].
  unfold mbind, Run_bind. by rewrite Hm.
Qed.

Lemma runsTo_allocate o σ :
  runsTo (allocate o) σ (λ r σ', σ' !! r = Some o).
Proof.
  destruct (allocate_spec o σ) as (r & Halloc & Hfresh).
  exists r, (<[r := o]> σ). split_and!; [done|by apply insert_subseteq|].
  by rewrite lookup_insert_eq.
Qed.

Lemma runsTo_readObject r o σ :
  σ !! r = Some o → runsTo (readObject r) σ (λ o' σ', o' = o).
Proof. intros Hr. exists o, σ. unfold readObject. by rewrite Hr. Qed.

Lemma runsTo_readSubmissionArray r items σ :
  σ !! r = Some (SubmissionArray items) →
  runsTo (readSubmissionArray r) σ (λ items' σ', items' = items).
Proof.
  intros Hr. eapply runsTo_bind; [by apply runsTo_readObject|].
  intros o σ' _ ->. by apply runsTo_ret.
Qed.

Lemma runsTo_readRatingArray r items σ :
  σ !! r = Some (RatingArray items) →
  runsTo (readRatingArray r) σ (λ items' σ', items' = items).
Proof.
  intros Hr. eapply runsTo_bind; [by apply runsTo_readObject|].
  intros o σ' _ ->. by apply runsTo_ret.
Qed.

Lemma runsTo_readStringArray r items σ :
  σ !! r = Some (StringArray items) →
  runsTo (readStringArray r) σ (λ items' σ', items' = items).
Proof.
  intros Hr. eapply runsTo_bind; [by apply runsTo_readObject|].
  intros o σ' _ ->. by apply runsTo_ret.
Qed.

Lemma runsTo_readNumberArray r items σ :
  σ !! r = Some (NumberArray items) →
  runsTo (readNumberArray r) σ (λ items' σ', items' = items).
Proof.
  intros Hr. eapply runsTo_bind; [by apply runsTo_readObject|].
  intros o σ' _ ->. by apply runsTo_ret.
Qed.

Lemma runsTo_readStringSet r members σ :
  σ !! r = Some (StringSet members) →
  runsTo (readStringSet r) σ (λ members' σ', members' = members).
Proof.
  intros Hr. eapply runsTo_bind; [by apply runsTo_readObject|].
  intros o σ' _ ->. by apply runsTo_ret.
Qed.

Lemma runsTo_readNumberSet r members σ :
  σ !! r = Some (NumberSet members) →
  runsTo (readNumberSet r) σ (λ members' σ', members' = members).
Proof.
  intros Hr. eapply runsTo_bind; [by apply runsTo_readObject|].
  intros o σ' _ ->. by apply runsTo_ret.
Qed.

End running.

(** Looks an object up in a heap that has grown since the object was known
  to be there. *)
Ltac still_there :=
repeat first [ eassumption | eapply lookup_weaken; [|eassumption] ].

(** Runs the first operation of a sequence by its specification [spec]. *)
Ltac run_by spec :=
eapply runsTo_bind; [eapply spec; still_there|]; cbv beta.

Section correlator.

Implicit Types (σ : heap) (r : ref).


Lemma problemKeySetAt_spec accepted items σ :
  σ !! accepted = Some (SubmissionArray items) →
  runsTo (problemKeySetAt accepted) σ
    (λ r σ', σ' !! r = Some (StringSet (list_to_set (problemKey <$> items)))).
Proof.
  intros Ha. unfold problemKeySetAt.
  run_by runsTo_readSubmissionArray. intros ? σ1 ? ->.
  run_by runsTo_allocate. intros keys σ2 ? ?.
  run_by runsTo_readStringArray. intros ? σ3 ? ->.
  apply runsTo_allocate.
Qed.

Lemma contestIdSetAt_spec rating items σ :
  σ !! rating = Some (RatingArray items) →
  runsTo (contestIdSetAt rating) σ
    (λ r σ', σ' !! r = Some (NumberSet (list_to_set (RC.contestId <$> items)))).
Proof.
  intros Ha. unfold contestIdSetAt.
  run_by runsTo_readRatingArray. intros ? σ1 ? ->.
  run_by runsTo_allocate. intros ids σ2 ? ?.
  run_by runsTo_readNumberArray. intros ? σ3 ? ->.
  apply runsTo_allocate.
Qed.

Lemma commonStringSetAt_spec set1 set2 members1 members2 σ :
  σ !! set1 = Some (StringSet members1) →
  σ !! set2 = Some (StringSet members2) →
  runsTo (commonStringSetAt set1 set2) σ
    (λ r σ', ∃ common, σ' !! r = Some (StringSet common) ∧
                       size common = commonSize members1 members2).
Proof.
  intros H1 H2. unfold commonStringSetAt.
  run_by runsTo_readStringSet. intros ? σ1 ? ->.
  run_by runsTo_allocate. intros spread σ2 ? ?.
  run_by runsTo_readStringArray. intros ? σ3 ? ->.
  run_by runsTo_readStringSet. intros ? σ4 ? ->.
  run_by runsTo_allocate. intros kept σ5 ? ?.
  run_by runsTo_readStringArray. intros ? σ6 ? ->.
  destruct (runsTo_allocate
              (StringSet (list_to_set (filter (λ p, p ∈ members2) (elements members1)))) σ6)
    as (r & σ7 & ? & ? & ?).
  exists r, σ7. split_and!; [done..|]. eauto.
Qed.

Lemma commonNumberSetAt_spec set1 set2 members1 members2 σ :
  σ !! set1 = Some (NumberSet members1) →
  σ !! set2 = Some (NumberSet members2) →
  runsTo (commonNumberSetAt set1 set2) σ
    (λ r σ', ∃ common, σ' !! r = Some (NumberSet common) ∧
                       size common = commonSize members1 members2).
Proof.
  intros H1 H2. unfold commonNumberSetAt.
  run_by runsTo_readNumberSet. intros ? σ1 ? ->.
  run_by runsTo_allocate. intros spread σ2 ? ?.
  run_by runsTo_readNumberArray. intros ? σ3 ? ->.
  run_by runsTo_readNumberSet. intros ? σ4 ? ->.
  run_by runsTo_allocate. intros kept σ5 ? ?.
  run_by runsTo_readNumberArray. intros ? σ6 ? ->.
  destruct (runsTo_allocate
              (NumberSet (list_to_set (filter (λ c, c ∈ members2) (elements members1)))) σ6)
    as (r & σ7 & ? & ? & ?).
  exists r, σ7. split_and!; [done..|]. eauto.
Qed.

(** On references, [updateComparisonUI] computes the two overlap counts of
    the contents of its arrays, and leaves every object of the heap as it
    was. *)
Lemma updateComparisonUIAt_spec σ r1 r2 a1 a2 R1 R2 A1 A2 :
  σ !! r1 = Some (RatingArray R1) → σ !! r2 = Some (RatingArray R2) →
  σ !! a1 = Some (SubmissionArray A1) → σ !! a2 = Some (SubmissionArray A2) →
  runsTo (updateComparisonUIAt r1 r2 a1 a2) σ
    (λ counts σ', counts = (commonProblems A1 A2, commonContests R1 R2)).
Proof.
  intros Hr1 Hr2 Ha1 Ha2. unfold updateComparisonUIAt.
  run_by problemKeySetAt_spec. intros p1 σ1 ? ?.
  run_by problemKeySetAt_spec. intros p2 σ2 ? ?.
  run_by commonStringSetAt_spec.
  intros cp σ3 ? (problems & ? & Hproblems).
  run_by contestIdSetAt_spec. intros c1 σ4 ? ?.
  run_by contestIdSetAt_spec. intros c2 σ5 ? ?.
  run_by commonNumberSetAt_spec.
  intros cc σ6 ? (contests & ? & Hcontests).
  run_by runsTo_readStringSet. intros ? σ7 ? ->.
  run_by runsTo_readNumberSet. intros ? σ8 ? ->.
  apply runsTo_ret. unfold commonProblems, commonContests.
  by rewrite Hproblems, Hcontests.
Qed.

Lemma sharedProblems_self subs :
  sharedProblems subs subs = length (processSubmissions subs).
Proof.
  unfold sharedProblems, commonProblems. rewrite commonSize_self.
  rewrite size_list_to_set, length_fmap; [done|].
  rewrite processSubmissions_retained. apply retained_NoDup.
Qed.

(** C9. The shared-problem count is symmetric in the two users, on their
    raw submission lists as [compareUsers] takes them and on any two lists
    of accepted submissions; a user compared with themselves shares as many
    problems as [processSubmissions] retains for them; the shared-contest
    count of two rating histories is symmetric as well; and on the heap,
    [updateComparisonUI] returns these two counts for the contents of its
    four arrays and leaves the arrays, like every other object, as they
    were. *)
Theorem overlap_counts_symmetric_inputs_kept :
  (∀ subs1 subs2, sharedProblems subs1 subs2 = sharedProblems subs2 subs1) ∧
  (∀ subs, sharedProblems subs subs = length (processSubmissions subs)) ∧
  (∀ accepted1 accepted2,
     commonProblems accepted1 accepted2 = commonProblems accepted2 accepted1) ∧
  (∀ rating1 rating2,
     commonContests rating1 rating2 = commonContests rating2 rating1) ∧
  (∀ σ r1 r2 a1 a2 rating1 rating2 accepted1 accepted2,
     σ !! r1 = Some (RatingArray rating1) → σ !! r2 = Some (RatingArray rating2) →
     σ !! a1 = Some (SubmissionArray accepted1) →
     σ !! a2 = Some (SubmissionArray accepted2) →
     ∃ σ',
       updateComparisonUIAt r1 r2 a1 a2 σ
       = Some ((commonProblems accepted1 accepted2,
                commonContests rating1 rating2), σ') ∧
       σ ⊆ σ' ∧
       σ' !! r1 = Some (RatingArray rating1) ∧
       σ' !! r2 = Some (RatingArray rating2) ∧
       σ' !! a1 = Some (SubmissionArray accepted1) ∧
       σ' !! a2 = Some (SubmissionArray accepted2)).
Proof.
  split_and!.
  - intros subs1 subs2. apply commonSize_comm.
  - apply sharedProblems_self.
  - intros accepted1 accepted2. apply commonSize_comm.
  - intros rating1 rating2. apply commonSize_comm.
  - intros σ r1 r2 a1 a2 rating1 rating2 accepted1 accepted2 Hr1 Hr2 Ha1 Ha2.
    destruct (updateComparisonUIAt_spec σ r1 r2 a1 a2 _ _ _ _ Hr1 Hr2 Ha1 Ha2)
      as (counts & σ' & Hrun & Hsub & ->).
    exists σ'. split_and!; [done|done|by eapply lookup_weaken..].
Qed.

End correlator.

(* ===================================================================== *)
(** * Worked examples *)
(* ===================================================================== *)

(** The end-to-end example of the specification. *)
Example normalize_example :
  processSubmissions exampleSubmissions = [sub1A; sub2A].
Proof. by vm_compute. Qed.

Example aggregate_example :
  let stats := calculateProblemStats (processSubmissions exampleSubmissions) in
  Stats.levels stats = [("A", Count 2)] ∧
  Stats.tags stats = [("dp", Count 2); ("greedy", Count 1)] ∧
  Stats.ratings stats = {[ 1200%Z := 1 ]}.
Proof. repeat split; vm_compute; reflexivity. Qed.

Example contest_stats_example :
  calculateContestStats exampleHistory =
    {| attended := 3; bestRank := StatNumber 412; avgRating := StatNumber 1586 |}.
Proof. by vm_compute. Qed.

Example category_example :
  filterContestsByType exampleHistory "Div. 1" = [div1Round] ∧
  filterContestsByType exampleHistory "Div. 2" = [combinedRound] ∧
  filterContestsByType exampleHistory "Educational" = [educationalRound] ∧
  filterContestsByType exampleHistory "Div. 4" = exampleHistory.
Proof. by vm_compute. Qed.

Example time_window_example :
  filterRatingHistoryByTime 1704000000000 exampleHistory "6M" = [div1Round] ∧
  filterRatingHistoryByTime 1704000000000 exampleHistory "1Y" = exampleHistory ∧
  filterRatingHistoryByTime 1704000000000 exampleHistory "All" = exampleHistory.
Proof. by vm_compute. Qed.

(** Settles a decidable statement about concrete data by evaluation. *)
Ltac by_evaluation := apply (bool_decide_unpack _); vm_compute; exact I.

(** C1 on the example: the second accepted submission of 1A is represented
    by the first one, and 2A is retained as the first accepted submission of
    its problem. *)
Lemma processSubmissions_first_accepted_per_problem_witness :
  (∃ kept, kept ∈ processSubmissions exampleSubmissions ∧ sameProblem kept sub1A_again) ∧
  (∃ n, firstAccepted (problemKey sub2A) exampleSubmissions = Some (n, sub2A)).
Proof.
  destruct (processSubmissions_first_accepted_per_problem exampleSubmissions)
    as (_ & _ & Hcover & _ & Hfirst & _).
  split.
  - apply Hcover; [by_evaluation|reflexivity].
  - apply (Hfirst 1). vm_compute. reflexivity.
Defined.

(** C2 on two servers: one that answers at the third attempt, one that
    refuses three times. *)
Lemma fetchWithRetry_third_attempt_decides_witness :
  fetchWithRetry flakyServer defaultRetries =
    (Returned [7; 8]%Z, [Requested; Waited 1000; Requested; Waited 2000; Requested]) ∧
  fetchWithRetry refusingServer defaultRetries =
    (Threw "handles: User with handle x not found",
     [Requested; Waited 1000; Requested; Waited 2000; Requested]).
Proof.
  destruct (fetchWithRetry_third_attempt_decides flakyServer) as (Hok & _).
  destruct (fetchWithRetry_third_attempt_decides refusingServer) as (_ & Hfail & _).
  split; [eapply Hok; reflexivity|eapply Hfail; reflexivity].
Defined.

(** C3 on the example: the rating query is unreachable and the analysis is
    shown with an empty history; the profile query is unreachable and the
    analysis fails; the same for a comparison. *)
Lemma rating_failure_absorbed_other_failures_fatal_witness :
  analyzeUser "tourist" (answered [exampleUser] 3) (unreachable 9)
              (answered exampleSubmissions 5)
  = AnalysisShown exampleUser [] (processSubmissions exampleSubmissions)
      (calculateProblemStats (processSubmissions exampleSubmissions))
      (calculateContestStats []) ∧
  (∃ message,
     analyzeUser "tourist" (unreachable 9) (answered exampleHistory 2)
                 (answered exampleSubmissions 5)
     = AnalysisFailed (Error message)) ∧
  (∃ message,
     compareUsers "tourist" "Petr"
       (answered [exampleUser] 3) (unreachable 9) (answered exampleSubmissions 5)
       (answered [exampleUser] 4) (answered exampleHistory 2) (unreachable 7)
     = ComparisonFailed (Error message)).
Proof.
  destruct rating_failure_absorbed_other_failures_fatal as (_ & Hanalyze & Hcompare).
  split_and!.
  - destruct (Hanalyze "tourist" (answered [exampleUser] 3) (unreachable 9)
                       (answered exampleSubmissions 5) eq_refl) as (Habsorbed & _).
    apply (Habsorbed exampleUser [] exampleSubmissions "Failed to fetch");
      reflexivity.
  - destruct (Hanalyze "tourist" (unreachable 9) (answered exampleHistory 2)
                       (answered exampleSubmissions 5) eq_refl) as (_ & _ & Hfatal).
    destruct Hfatal as (message & Hfailed & _).
    { left. by exists "Failed to fetch". }
    by exists message.
  - destruct (Hcompare "tourist" "Petr"
                (answered [exampleUser] 3) (unreachable 9) (answered exampleSubmissions 5)
                (answered [exampleUser] 4) (answered exampleHistory 2) (unreachable 7)
                eq_refl eq_refl) as (_ & _ & Hfatal).
    destruct Hfatal as (message & Hfailed & _).
    { right. right. right. by exists "Failed to fetch". }
    by exists message.
Defined.

(** C4 on the example: one accepted submission is rated 1200. *)
Lemma rating_histogram_counts_nonzero_ratings_witness :
  countOf (Stats.ratings (calculateProblemStats [sub1A; sub2A])) 1200%Z = 1.
Proof.
  destruct (rating_histogram_counts_nonzero_ratings [sub1A; sub2A] 1200%Z) as (Hcount & _).
  rewrite Hcount. reflexivity.
Defined.

(** C5 on the example history, and on the empty one. *)
Lemma calculateContestStats_spec_witness :
  (bestRank (calculateContestStats []) = StatText "-" ∧
   avgRating (calculateContestStats []) = StatText "-") ∧
  ∃ best, bestRank (calculateContestStats exampleHistory) = StatNumber best ∧
          ∀ r, r ∈ RC.rank <$> exampleHistory → (best ≤ r)%Z.
Proof.
  destruct (calculateContestStats_spec []) as (_ & Hempty & _).
  destruct (calculateContestStats_spec exampleHistory) as (_ & _ & Hfilled).
  split.
  - by destruct (Hempty eq_refl) as (_ & ? & ?).
  - destruct Hfilled as (best & avg & Hbest & _ & Hleast & _); [discriminate|].
    by exists best.
Defined.

(** C6 on the example: the entry kept for ["Div. 1"], and a label the
    filter does not know. *)
Lemma filterContestsByType_by_category_witness :
  (occursIgnoringCase "div. 1" (RC.contestName div1Round) ∧
   ¬ occursIgnoringCase "div. 2" (RC.contestName div1Round)) ∧
  filterContestsByType exampleHistory "Div. 4" = exampleHistory.
Proof.
  destruct (filterContestsByType_by_category exampleHistory "Div. 4")
    as (_ & _ & _ & Hdiv1 & Hother).
  split.
  - apply Hdiv1. by_evaluation.
  - apply Hother. by_evaluation.
Defined.

(** C7 on the example heap: the category filter allocates the filtered
    array and the source array at reference [0] keeps its contents. *)
Lemma filters_identity_subsequence_no_mutation_witness :
  ∃ r' σ',
    filterContestsByTypeAt 0 "Div. 1" exampleHeap = Some (r', σ') ∧
    σ' !! 0 = Some (RatingArray exampleHistory) ∧
    σ' !! r' = Some (RatingArray [div1Round]).
Proof.
  destruct (filters_identity_subsequence_no_mutation
              1704000000000 exampleHistory "Div. 1") as (_ & _ & Hheap).
  destruct (Hheap exampleHeap 0) as (_ & (r' & σ' & Hrun & Hsource & _ & Hresult & _));
    [reflexivity|].
  exists r', σ'. split_and!; [exact Hrun|exact Hsource|exact Hresult].
Defined.


(** C9 on the example heap: a user compared with themselves. *)
Lemma overlap_counts_symmetric_inputs_kept_witness :
  ∃ σ',
    updateComparisonUIAt 0 0 1 1 exampleHeap = Some ((2, 3), σ') ∧
    σ' !! 0 = Some (RatingArray exampleHistory) ∧
    σ' !! 1 = Some (SubmissionArray (processSubmissions exampleSubmissions)).
Proof.
  destruct overlap_counts_symmetric_inputs_kept as (_ & _ & _ & _ & Hheap).
  destruct (Hheap exampleHeap 0 0 1 1 exampleHistory exampleHistory
                  (processSubmissions exampleSubmissions)
                  (processSubmissions exampleSubmissions))
    as (σ' & Hrun & _ & Hrating & _ & Haccepted & _); [reflexivity..|].
  exists σ'. split_and!; [exact Hrun|exact Hrating|exact Haccepted].
Defined.

(** C10 on a server that always refuses: no budget, and a budget of one. *)
Lemma fetchWithRetry_budget_witness :
  fetchWithRetry refusingServer 0 = (ReturnedUndefined, []) ∧
  ∃ events,
    Requested ∈ events ∧
    ((∃ result, fetchWithRetry refusingServer 1 = (Returned result, events)) ∨
     (∃ message, fetchWithRetry refusingServer 1 = (Threw message, events))).
Proof.
  destruct (fetchWithRetry_budget refusingServer 0) as (Hnone & _).
  destruct (fetchWithRetry_budget refusingServer 1) as (_ & Hsome & _).
  split; [apply Hnone; lia|apply Hsome; lia].
Defined.

(* ===================================================================== *)
(** * Further properties: normalizer, aggregator and filters *)
(* ===================================================================== *)

Section more_normalizer.

Implicit Types (sub : Submission) (subs : list Submission) (seen : list string).

Lemma retained_sublist seen subs : retained seen subs `sublist_of` subs.
Proof.
  revert seen. induction subs as [|s subs IH]; intros seen; simpl; [done|].
  repeat case_decide.
  - apply sublist_cons, IH.
  - apply sublist_skip, IH.
  - apply sublist_cons, IH.
Qed.

Lemma retained_sublist_accepted seen subs :
  retained seen subs `sublist_of` filter (λ sub, verdict sub = "OK") subs.
Proof.
  revert seen. induction subs as [|s subs IH]; intros seen; simpl; [done|].
  rewrite filter_cons. repeat case_decide.
  - apply sublist_cons, IH.
  - apply sublist_skip, IH.
  - apply IH.
Qed.

(** A list of accepted submissions of pairwise different problems, none of
    them seen, is retained as it is. *)
Lemma retained_fixed seen subs :
  Forall (λ sub, verdict sub = "OK") subs →
  NoDup (problemKey <$> subs) →
  (∀ sub, sub ∈ subs → problemKey sub ∉ seen) →
  retained seen subs = subs.
Proof.
  revert seen. induction subs as [|s subs IH]; intros seen Hok Hnodup Hseen; [done|].
  apply Forall_cons in Hok as [Hs Hok]. rewrite fmap_cons in Hnodup.
  apply NoDup_cons in Hnodup as [Hfresh Hnodup]. simpl.
  rewrite decide_True by done.
  rewrite decide_False by (apply Hseen, elem_of_cons; auto).
  f_equal. apply IH; [done..|].
  intros sub Hin [Hold|Hnew%list_elem_of_singleton]%elem_of_app.
  - by apply (Hseen sub); [apply elem_of_cons; right|].
  - apply Hfresh. rewrite <-Hnew. by apply list_elem_of_fmap_2.
Qed.

(** X1. Normalizing is idempotent, and what it returns is a subsequence of
    its input, no longer than the list of accepted submissions. *)
Theorem processSubmissions_idempotent subs :
  processSubmissions (processSubmissions subs) = processSubmissions subs ∧
  processSubmissions subs `sublist_of` subs ∧
  (length (processSubmissions subs)
   ≤ length (filter (λ sub, verdict sub = "OK") subs))%nat.
Proof.
  rewrite !processSubmissions_retained. split_and!.
  - apply retained_fixed.
    + apply Forall_forall. by intros sub (_ & ? & _)%retained_elem.
    + apply retained_NoDup.
    + intros sub _. apply not_elem_of_nil.
  - apply retained_sublist.
  - apply sublist_length, retained_sublist_accepted.
Qed.

End more_normalizer.

Section more_aggregator.

Context `{Countable K}.
Implicit Types (counts : gmap K nat) (k : K) (ks : list K).

(** Two histograms with the same counters are the same histogram. *)
Lemma counts_eq counts1 counts2 :
  (∀ k, is_Some (counts1 !! k) ↔ is_Some (counts2 !! k)) →
  (∀ k, countOf counts1 k = countOf counts2 k) →
  counts1 = counts2.
Proof.
  intros Hsome Hcount. apply map_eq. intros k.
  specialize (Hsome k). specialize (Hcount k). unfold countOf in Hcount.
  destruct (counts1 !! k) as [n1|], (counts2 !! k) as [n2|]; simpl in *.
  - by subst.
  - by destruct Hsome as [[? [=]] _].
  - by destruct Hsome as [_ [? [=]]].
  - done.
Qed.

Lemma foldl_increment_Permutation counts ks1 ks2 :
  ks1 ≡ₚ ks2 → foldl increment counts ks1 = foldl increment counts ks2.
Proof.
  intros Hperm. apply counts_eq; intros k.
  - rewrite !lookup_foldl_increment. by rewrite Hperm.
  - rewrite !countOf_foldl_increment. by rewrite Hperm.
Qed.

End more_aggregator.

Section order_independence.

Implicit Types (subs : list Submission) (h : list RatingChange).

(** X2. The histograms hold the same counters whatever the order of the
    submissions: the object [ratings] is the same, and the objects [levels]
    and [tags] have the same properties with the same values. The order in
    which the properties of [levels] and [tags] were created follows the
    submissions, and is not kept. *)
Theorem calculateProblemStats_order_independent subs1 subs2 :
  subs1 ≡ₚ subs2 →
  Stats.ratings (calculateProblemStats subs1) = Stats.ratings (calculateProblemStats subs2) ∧
  Stats.levels (calculateProblemStats subs1) ≡ₚ Stats.levels (calculateProblemStats subs2) ∧
  Stats.tags (calculateProblemStats subs1) ≡ₚ Stats.tags (calculateProblemStats subs2).
Proof.
  intros Hperm. split_and!.
  - unfold calculateProblemStats. rewrite !ratings_foldl.
    apply foldl_increment_Permutation. by rewrite Hperm.
  - rewrite !levels_counted. apply foldl_incrementProperty_Permutation.
    by rewrite Hperm.
  - rewrite !tags_counted. apply foldl_incrementProperty_Permutation.
    by rewrite Hperm.
Qed.

(** X2 on two submissions of the example, exchanged: the levels are the
    same, listed in another order. *)
Lemma calculateProblemStats_order_independent_witness :
  Stats.levels (calculateProblemStats [sub1B_wrong; sub1A])
  ≡ₚ Stats.levels (calculateProblemStats [sub1A; sub1B_wrong]) ∧
  Stats.levels (calculateProblemStats [sub1B_wrong; sub1A])
  = [("B", Count 1); ("A", Count 1)] ∧
  Stats.levels (calculateProblemStats [sub1A; sub1B_wrong])
  = [("A", Count 1); ("B", Count 1)].
Proof.
  destruct (calculateProblemStats_order_independent
              [sub1B_wrong; sub1A] [sub1A; sub1B_wrong])
    as (_ & Hlevels & _); [apply perm_swap|].
  split_and!; [exact Hlevels|reflexivity..].
Defined.

Lemma foldr_add_Permutation (xs ys : list Z) :
  xs ≡ₚ ys → foldr Z.add 0%Z xs = foldr Z.add 0%Z ys.
Proof.
  induction 1 as [|x xs ys _ IH|x y xs|xs ys zs _ IH1 _ IH2]; simpl; [done|lia|lia|].
  by rewrite IH1.
Qed.

(** X3. The contest statistics do not depend on the order of the rating
    history: the same entries in another order give the same number of
    contests, the same best rank and the same average. *)
Theorem calculateContestStats_order_independent h1 h2 :
  h1 ≡ₚ h2 → calculateContestStats h1 = calculateContestStats h2.
Proof.
  intros Hperm. destruct h1 as [|c1 h1], h2 as [|c2 h2].
  - done.
  - by apply Permutation_nil_cons in Hperm.
  - symmetry in Hperm. by apply Permutation_nil_cons in Hperm.
  - unfold calculateContestStats.
    rewrite (Permutation_length Hperm).
    rewrite !sumNewRating_foldr, (foldr_add_Permutation _ _ (fmap_Permutation _ _ _ Hperm)).
    destruct (Math_min_spec (RC.rank c1) (RC.rank <$> h1)) as [Hin1 Hle1].
    destruct (Math_min_spec (RC.rank c2) (RC.rank <$> h2)) as [Hin2 Hle2].
    assert (RC.rank c1 :: (RC.rank <$> h1) ≡ₚ RC.rank c2 :: (RC.rank <$> h2)) as Hranks.
    { by rewrite <-!fmap_cons, Hperm. }
    assert (Math_min (RC.rank c1) (RC.rank <$> h1)
            = Math_min (RC.rank c2) (RC.rank <$> h2)) as ->; [|done].
    apply Z.le_antisymm.
    + apply Hle1. by rewrite Hranks.
    + apply Hle2. by rewrite <-Hranks.
Qed.

Lemma calculateContestStats_order_independent_witness :
  calculateContestStats (reverse exampleHistory) = calculateContestStats exampleHistory.
Proof.
  apply calculateContestStats_order_independent, reverse_Permutation.
Defined.

End order_independence.

Section more_filters.

Implicit Types (h : list RatingChange) (c : RatingChange) (label : string).

Lemma filterRatingHistoryByTime_filter nowMs h timeFrame :
  filterRatingHistoryByTime nowMs h timeFrame
  = filter (λ c, insideTimeFrame nowMs timeFrame c) h.
Proof.
  unfold filterRatingHistoryByTime, insideTimeFrame, timeWindow.
  case_bool_decide as Hlen; simpl.
  - by destruct h.
  - case_bool_decide as Hall; simpl.
    + subst timeFrame. simpl. symmetry. by apply filter_all.
    + repeat case_decide; [done..|]. symmetry. by apply filter_all.
Qed.

(** X4. The two history filters can be applied in either order with the
    same result, and applying one of them twice with the same label (and the
    same clock reading) changes nothing more. *)
Theorem history_filters_commute nowMs h timeFrame contestType :
  filterContestsByType (filterRatingHistoryByTime nowMs h timeFrame) contestType
  = filterRatingHistoryByTime nowMs (filterContestsByType h contestType) timeFrame ∧
  filterContestsByType (filterContestsByType h contestType) contestType
  = filterContestsByType h contestType ∧
  filterRatingHistoryByTime nowMs (filterRatingHistoryByTime nowMs h timeFrame) timeFrame
  = filterRatingHistoryByTime nowMs h timeFrame.
Proof.
  rewrite !filterContestsByType_filter, !filterRatingHistoryByTime_filter.
  split_and!.
  - rewrite !list_filter_filter. apply list_filter_iff. tauto.
  - by apply list_filter_filter_l.
  - by apply list_filter_filter_l.
Qed.

(** X5. The time windows are nested: what the six-month window keeps is
    kept by the one-year window, so filtering by ["1Y"] and then by ["6M"]
    is filtering by ["6M"]; an entry is kept by a window exactly when its
    update time is not earlier than the clock reading minus the window
    (15 552 000 s for ["6M"], 31 536 000 s for ["1Y"]); and a label that is
    none of ["All"], ["1Y"], ["6M"] keeps the whole history. *)
Theorem time_windows_nested nowMs h :
  filterRatingHistoryByTime nowMs (filterRatingHistoryByTime nowMs h "1Y") "6M"
  = filterRatingHistoryByTime nowMs h "6M" ∧
  filterRatingHistoryByTime nowMs h "6M"
  `sublist_of` filterRatingHistoryByTime nowMs h "1Y" ∧
  (∀ c, c ∈ filterRatingHistoryByTime nowMs h "6M" ↔
        c ∈ h ∧ (nowMs - 15552000000 ≤ 1000 * RC.ratingUpdateTimeSeconds c)%Z) ∧
  (∀ c, c ∈ filterRatingHistoryByTime nowMs h "1Y" ↔
        c ∈ h ∧ (nowMs - 31536000000 ≤ 1000 * RC.ratingUpdateTimeSeconds c)%Z) ∧
  (∀ label, label ∉ ["1Y"; "6M"] → filterRatingHistoryByTime nowMs h label = h).
Proof.
  assert (∀ c, insideTimeFrame nowMs "6M" c → insideTimeFrame nowMs "1Y" c) as Hnested.
  { intros c. unfold insideTimeFrame, timeWindow, withinWindow. simpl.
    rewrite !bool_decide_spec. lia. }
  assert (filterRatingHistoryByTime nowMs (filterRatingHistoryByTime nowMs h "1Y") "6M"
          = filterRatingHistoryByTime nowMs h "6M") as Htwice.
  { rewrite !filterRatingHistoryByTime_filter. by apply list_filter_filter_l. }
  split_and!.
  - done.
  - rewrite <-Htwice. apply filterRatingHistoryByTime_sublist.
  - intros c. rewrite filterRatingHistoryByTime_filter, list_elem_of_filter.
    unfold insideTimeFrame, timeWindow, withinWindow. simpl.
    rewrite bool_decide_spec. split; intros [? ?]; split; first [done|lia].
  - intros c. rewrite filterRatingHistoryByTime_filter, list_elem_of_filter.
    unfold insideTimeFrame, timeWindow, withinWindow. simpl.
    rewrite bool_decide_spec. split; intros [? ?]; split; first [done|lia].
  - intros label Hlabel. rewrite !not_elem_of_cons in Hlabel.
    destruct Hlabel as (? & ? & _).
    rewrite filterRatingHistoryByTime_filter. apply filter_all.
    intros c _. unfold insideTimeFrame, timeWindow. by rewrite !decide_False.
Qed.

End more_filters.

Section more_retry.

Context {T : Type}.
Implicit Types (server : nat → FetchResult T) (retries : Z) (i k remaining : nat).

(** The loop skips over [k] failed attempts that are not the last one
    allowed, one request and one wait each. *)
Lemma retryLoop_skips server retries k : ∀ remaining i,
  (Z.of_nat i + Z.of_nat remaining = retries)%Z → k < remaining →
  (∀ j, j < k → ∃ e, attempt (server (i + j)) = inr e) →
  retryLoop remaining server retries i =
    ((retryLoop (remaining - k) server retries (i + k)).1,
     flat_map (λ j, [Requested; Waited (1000 * (Z.of_nat j + 1))]) (seq i k)
     ++ (retryLoop (remaining - k) server retries (i + k)).2).
Proof.
  induction k as [|k IH]; intros remaining i Hi Hk Hfail.
  - rewrite Nat.sub_0_r, Nat.add_0_r. simpl. by destruct (retryLoop _ _ _ _).
  - destruct remaining as [|remaining]; [lia|].
    destruct (Hfail 0) as [e He]; [lia|]. rewrite Nat.add_0_r in He.
    cbn [retryLoop]. rewrite He. rewrite decide_False by lia.
    rewrite (IH remaining (S i)); [|lia|lia|].
    + replace (S i + k) with (i + S k) by lia.
      replace (S remaining - S k) with (remaining - k) by lia. done.
    + intros j Hj. replace (S i + j) with (i + S j) by lia. apply Hfail. lia.
Qed.

(** X6. For any budget of at least one attempt: when the attempts before
    the [k]-th all fail and the [k]-th (counted from 0, within the budget)
    succeeds, its payload is returned; when the [k]-th fails too and is the
    last one the budget allows, its error is thrown. Either way the call has
    made [k + 1] requests and has waited 1000 ms after the first failure,
    2000 ms after the second, and so on up to [k * 1000] ms; no request is
    made after the first success. *)
Theorem fetchWithRetry_backoff_schedule server retries k :
  (Z.of_nat k < retries)%Z →
  (∀ j, j < k → ∃ e, attempt (server j) = inr e) →
  (∀ payload, attempt (server k) = inl payload →
     fetchWithRetry server retries = (Returned payload, backoffSchedule k)) ∧
  (∀ e, attempt (server k) = inr e → (Z.of_nat k = retries - 1)%Z →
     fetchWithRetry server retries = (Threw e, backoffSchedule k)) ∧
  length (filter (λ ev, ev = Requested) (backoffSchedule k)) = S k ∧
  filter (λ ev, ev ≠ Requested) (backoffSchedule k)
  = (λ j, Waited (1000 * (Z.of_nat j + 1))) <$> seq 0 k.
Proof.
  intros Hk Hfail.
  assert (fetchWithRetry server retries =
            ((retryLoop (Z.to_nat retries - k) server retries k).1,
             flat_map (λ j, [Requested; Waited (1000 * (Z.of_nat j + 1))]) (seq 0 k)
             ++ (retryLoop (Z.to_nat retries - k) server retries k).2)) as Hskip.
  { unfold fetchWithRetry.
    rewrite (retryLoop_skips server retries k (Z.to_nat retries) 0); [done|lia|lia|done]. }
  destruct (Z.to_nat retries - k) as [|rest] eqn:Hrest; [lia|].
  assert (∀ i, filter (λ ev, ev = Requested)
                 (flat_map (λ j, [Requested; Waited (1000 * (Z.of_nat j + 1))]) (seq i k))
               = replicate k Requested) as Hrequests.
  { clear. induction k as [|k IH]; intros i; [done|]. simpl.
    rewrite filter_cons_True by done. rewrite filter_cons_False by done.
    by rewrite IH. }
  assert (∀ i, filter (λ ev, ev ≠ Requested)
                 (flat_map (λ j, [Requested; Waited (1000 * (Z.of_nat j + 1))]) (seq i k))
               = (λ j, Waited (1000 * (Z.of_nat j + 1))) <$> seq i k) as Hwaits.
  { clear. induction k as [|k IH]; intros i; [done|]. simpl.
    rewrite filter_cons_False by (by intros []). rewrite filter_cons_True by done.
    by rewrite IH. }
  split_and!.
  - intros payload Hok. rewrite Hskip. cbn [retryLoop]. by rewrite Hok.
  - intros e He Hlast. rewrite Hskip. cbn [retryLoop]. rewrite He.
    by rewrite decide_True.
  - unfold backoffSchedule. rewrite filter_app, Hrequests.
    rewrite filter_cons_True by done. rewrite length_app, length_replicate. simpl. lia.
  - unfold backoffSchedule. rewrite filter_app, Hwaits.
    rewrite filter_cons_False by (by intros []). by rewrite app_nil_r.
Qed.

End more_retry.

(** X6 on a server that answers at its third request, with a budget of
    five attempts. *)
Lemma fetchWithRetry_backoff_schedule_witness :
  fetchWithRetry flakyServer 5
  = (Returned [7; 8]%Z, [Requested; Waited 1000; Requested; Waited 2000; Requested]).
Proof.
  destruct (fetchWithRetry_backoff_schedule flakyServer 5 2) as (Hok & _).
  - lia.
  - intros [|[|j]] Hj; [by eexists..|lia].
  - by apply Hok.
Defined.

(* ===================================================================== *)
(** * Further properties: [sort], [slice] and [parseInt] *)
(* ===================================================================== *)

Section sorting.

Context {A : Type} (compare : A → A → Z).
Implicit Types (x y z : A) (l sorted : list A).

(** [x] does not come after [y]. *)
Let before x y : Prop := (compare x y ≤ 0)%Z.

Lemma insertSorted_Permutation x sorted :
  insertSorted compare x sorted ≡ₚ x :: sorted.
Proof.
  induction sorted as [|y r IH]; simpl; [done|].
  case_decide; [done|]. rewrite IH. apply perm_swap.
Qed.

Lemma Array_sort_Permutation l : Array_sort compare l ≡ₚ l.
Proof.
  induction l as [|x l IH]; simpl; [done|].
  by rewrite insertSorted_Permutation, IH.
Qed.

Lemma Array_sort_length l : length (Array_sort compare l) = length l.
Proof. apply Permutation_length, Array_sort_Permutation. Qed.

Hypothesis compare_total : ∀ x y, before x y ∨ before y x.
Hypothesis compare_trans : ∀ x y z, before x y → before y z → before x z.

Lemma insertSorted_sorted x sorted :
  StronglySorted before sorted → StronglySorted before (insertSorted compare x sorted).
Proof.
  induction 1 as [|y r Hr IH Hy]; simpl.
  - by repeat constructor.
  - case_decide as Hxy.
    + constructor; [by constructor|].
      constructor; [done|]. eapply Forall_impl; [exact Hy|].
      intros z Hz. by apply (compare_trans x y z).
    + constructor; [done|].
      rewrite insertSorted_Permutation. constructor; [|done].
      by destruct (compare_total x y).
Qed.

Lemma Array_sort_sorted l : StronglySorted before (Array_sort compare l).
Proof.
  induction l as [|x l IH]; simpl; [constructor|].
  by apply insertSorted_sorted.
Qed.

(** Stability: the elements that tie with [z] keep the order they had. *)
Lemma insertSorted_ties z x sorted :
  filter (λ y, (compare z y ≤ 0)%Z ∧ (compare y z ≤ 0)%Z) (insertSorted compare x sorted)
  = filter (λ y, (compare z y ≤ 0)%Z ∧ (compare y z ≤ 0)%Z) (x :: sorted).
Proof.
  induction sorted as [|y r IH]; simpl; [done|].
  case_decide as Hxy; [done|].
  rewrite filter_cons, IH, !filter_cons.
  destruct (decide ((compare z y ≤ 0)%Z ∧ (compare y z ≤ 0)%Z)) as [[Hzy Hyz]|Hy]; [|done].
  destruct (decide ((compare z x ≤ 0)%Z ∧ (compare x z ≤ 0)%Z)) as [[Hzx Hxz]|Hx]; [|done].
  destruct Hxy. by apply (compare_trans x z y).
Qed.

Lemma Array_sort_stable z l :
  filter (λ y, (compare z y ≤ 0)%Z ∧ (compare y z ≤ 0)%Z) (Array_sort compare l)
  = filter (λ y, (compare z y ≤ 0)%Z ∧ (compare y z ≤ 0)%Z) l.
Proof.
  induction l as [|x l IH]; simpl; [done|].
  by rewrite insertSorted_ties, !filter_cons, IH.
Qed.

End sorting.

Section parsing.

Lemma digit_facts (c : ascii) :
  is_Some (Ascii.is_nat c) →
  Ascii.is_space c = false ∧ c ≠ "-"%char ∧ c ≠ "+"%char ∧
  c ≠ "x"%char ∧ c ≠ "X"%char.
Proof.
  destruct c as [[] [] [] [] [] [] [] []]; simpl; intros [? [=]];
    by split_and!.
Qed.

Lemma decimalDigit_pretty_N_char (x : N) :
  (x < 10)%N → decimalDigit (pretty_N_char x) = Some (Z.of_N x).
Proof.
  intros Hx.
  assert (x = 0 ∨ x = 1 ∨ x = 2 ∨ x = 3 ∨ x = 4 ∨ x = 5 ∨ x = 6 ∨ x = 7
          ∨ x = 8 ∨ x = 9)%N as Hcases by lia.
  by repeat (destruct Hcases as [->|Hcases]; [done|]); subst.
Qed.

Lemma parseDecimal_app (d rest : string) acc :
  allDigits d = true →
  parseDigits 10 decimalDigit acc (d +:+ rest)
  = parseDigits 10 decimalDigit (parseDigits 10 decimalDigit acc d) rest.
Proof.
  revert acc. induction d as [|c d IH]; intros acc; [done|].
  simpl. intros [[v Hc]%bool_decide_eq_true Hd]%andb_prop.
  rewrite ?app_cons. simpl. unfold decimalDigit. rewrite Hc. simpl. by apply IH.
Qed.

(** The digits [pretty_N_go] writes read back as the number written. *)
Lemma pretty_N_go_parse (x : N) (s : string) :
  ∃ d, pretty_N_go x s = d +:+ s ∧ allDigits d = true ∧
       parseDigits 10 decimalDigit None d
       = (if decide (x = 0%N) then None else Some (Z.of_N x)) ∧
       ((0 < x)%N → d ≠ "").
Proof.
  revert s. induction (N.lt_wf_0 x) as [x _ IH]; intros s.
  assert (x = 0 ∨ 0 < x)%N as [->|Hx] by lia.
  - exists "". rewrite pretty_N_go_0. split_and!; [done..|lia].
  - rewrite pretty_N_go_step by done.
    destruct (IH (x `div` 10)%N (N.div_lt x 10 Hx eq_refl)
                 (String (pretty_N_char (x `mod` 10)) s)) as (d & -> & Hd & Hval & _).
    exists (d +:+ String (pretty_N_char (x `mod` 10)) "").
    split_and!.
    + by rewrite app_assoc'.
    + rewrite allDigits_app, Hd. simpl.
      rewrite andb_true_r. apply bool_decide_eq_true, pretty_N_char_digit.
    + rewrite parseDecimal_app, Hval by done. simpl.
      rewrite decimalDigit_pretty_N_char by (apply N.mod_lt; lia).
      rewrite (decide_False (P := x = 0%N)) by lia.
      pose proof (N.div_mod x 10). pose proof (N.mod_lt x 10).
      case_decide as Hdiv; simpl; f_equal; lia.
    + intros _. by destruct d.
Qed.

Lemma app_empty_r (s : string) : s +:+ "" = s.
Proof. induction s as [|c s IH]; [done|]. by rewrite app_cons, IH. Qed.

(** A non-empty text of decimal digits is read in the radix 10, whole. *)
Lemma parseUnsigned_digits (d : string) :
  allDigits d = true → parseUnsigned d = parseDigits 10 decimalDigit None d.
Proof.
  intros Hd. unfold parseUnsigned, hexBody.
  destruct d as [|c1 [|c2 r]]; [done..|].
  simpl in Hd. apply andb_prop in Hd as [_ [Hc2 _]%andb_prop].
  apply bool_decide_eq_true, digit_facts in Hc2 as (_ & _ & _ & ? & ?).
  rewrite decide_False; [done|]. intros [_ [?|?]]; done.
Qed.

(** The key written for a number reads back as the number: [parseInt]
    undoes [String] on the integers. *)
Lemma parseInt_numberToString (n : Z) : parseInt (numberToString n) = Some n.
Proof.
  assert (∀ p : positive,
            ∃ c r, pretty (N.pos p) = String c r ∧ allDigits (String c r) = true ∧
                   parseDigits 10 decimalDigit None (String c r) = Some (Z.pos p))
    as Hpos.
  { intros p. unfold pretty, pretty_N. rewrite decide_False by done.
    destruct (pretty_N_go_parse (N.pos p) "") as (d & Hgo & Hd & Hval & Hne).
    rewrite app_empty_r in Hgo. rewrite Hgo.
    destruct d as [|c r]; [by destruct Hne|]. by exists c, r. }
  assert (∀ c r, allDigits (String c r) = true → trimStart (String c r) = String c r)
    as Htrim.
  { intros c r [Hc%bool_decide_eq_true _]%andb_prop. simpl.
    by destruct (digit_facts c Hc) as (-> & _). }
  unfold numberToString, pretty, pretty_Z. destruct n as [|p|p].
  - done.
  - destruct (Hpos p) as (c & r & Hp & Hd & Hval).
    change (pretty p) with (pretty (N.pos p)). rewrite Hp.
    unfold parseInt. rewrite (Htrim c r Hd).
    pose proof Hd as [Hc%bool_decide_eq_true _]%andb_prop.
    destruct (digit_facts c Hc) as (_ & ? & ? & _).
    rewrite !decide_False by done. by rewrite parseUnsigned_digits.
  - destruct (Hpos p) as (c & r & Hp & Hd & Hval).
    change (pretty p) with (pretty (N.pos p)). rewrite Hp.
    unfold parseInt. rewrite app_cons, app_empty_l. simpl.
    rewrite parseUnsigned_digits, Hval by done. done.
Qed.

End parsing.

(* ===================================================================== *)
(** * Further properties: the data of the charts *)
(* ===================================================================== *)

Section sorting_maps.

Context {A B : Type}.

Lemma insertSorted_fmap (f : A → B) (compare : B → B → Z) x (l : list A) :
  insertSorted compare (f x) (f <$> l)
  = f <$> insertSorted (λ a b, compare (f a) (f b)) x l.
Proof.
  induction l as [|y l IH]; csimpl; [done|].
  case_decide; csimpl; [done|]. by rewrite IH.
Qed.

Lemma Array_sort_fmap (f : A → B) (compare : B → B → Z) (l : list A) :
  Array_sort compare (f <$> l) = f <$> Array_sort (λ a b, compare (f a) (f b)) l.
Proof.
  induction l as [|x l IH]; csimpl; [done|].
  by rewrite IH, insertSorted_fmap.
Qed.

Lemma Array_sort_ext (compare1 compare2 : A → A → Z) (l : list A) :
  (∀ a b, compare1 a b = compare2 a b) →
  Array_sort compare1 l = Array_sort compare2 l.
Proof.
  intros Hext. induction l as [|x l IH]; simpl; [done|]. rewrite IH.
  generalize (Array_sort compare2 l). intros sorted.
  induction sorted as [|y r IHr]; simpl; [done|].
  rewrite Hext. case_decide; [done|]. by rewrite IHr.
Qed.

Lemma filter_fmap_bool (f : A → B) (p : B → bool) (l : list A) :
  filter (λ b, p b) (f <$> l) = f <$> filter (λ a, p (f a)) l.
Proof.
  induction l as [|x l IH]; csimpl; [done|].
  rewrite !filter_cons, IH. by destruct (p (f x)).
Qed.

End sorting_maps.

Section filtered_totals.

Context `{Countable K} (P : K → Prop) `{∀ k, Decision (P k)}.
Implicit Types (counts : gmap K nat) (k : K) (ks : list K).

(** The sum of the counters of the keys that satisfy [P]. *)
Let shownTotal counts : nat :=
  sum_list (filter (λ entry, P entry.1) (map_to_list counts)).*2.

Lemma shownTotal_increment counts k :
  shownTotal (increment counts k)
  = shownTotal counts + (if decide (P k) then 1 else 0).
Proof.
  unfold shownTotal, increment.
  destruct (counts !! k) as [old|] eqn:Hk; simpl.
  - rewrite <-(insert_delete_eq counts).
    rewrite map_to_list_insert by apply lookup_delete_eq.
    rewrite <-(map_to_list_delete counts k old Hk).
    rewrite !filter_cons. simpl. case_decide; csimpl; lia.
  - rewrite map_to_list_insert by done.
    rewrite filter_cons. simpl. case_decide; csimpl; lia.
Qed.

Lemma shownTotal_foldl_increment counts ks :
  shownTotal (foldl increment counts ks)
  = shownTotal counts + length (filter P ks).
Proof.
  revert counts. induction ks as [|k ks IH]; intros counts; simpl; [lia|].
  rewrite IH, shownTotal_increment, filter_cons. case_decide; simpl; lia.
Qed.

Lemma shown_total_of_counted ks :
  sum_list (filter (λ entry, P entry.1)
              (map_to_list (foldl increment (∅ : gmap K nat) ks))).*2
  = length (filter P ks).
Proof.
  pose proof (shownTotal_foldl_increment ∅ ks) as Htotal.
  unfold shownTotal in Htotal. rewrite Htotal.
  by rewrite map_to_list_empty.
Qed.

End filtered_totals.

Section ratings_chart.

Implicit Types (properties shown : list (Z * nat)) (subs : list Submission).

Lemma StronglySorted_filter {A} (R : relation A) (P : A → Prop)
    `{∀ x, Decision (P x)} (l : list A) :
  StronglySorted R l → StronglySorted R (filter P l).
Proof.
  induction 1 as [|x l Hl IH Hx]; [constructor|].
  rewrite filter_cons. case_decide; [|done].
  constructor; [done|]. apply Forall_forall. intros y [_ Hy]%list_elem_of_filter.
  by eapply Forall_forall in Hx.
Qed.

Lemma strictly_sorted_keys properties :
  StronglySorted (λ a b, (a.1 - b.1 ≤ 0)%Z) properties →
  NoDup properties.*1 →
  StronglySorted Z.lt properties.*1.
Proof.
  induction 1 as [|x l Hl IH Hx]; csimpl; [constructor|].
  intros [Hfresh Hnodup]%NoDup_cons. constructor; [by apply IH|].
  apply Forall_forall. intros k (y & -> & Hy)%list_elem_of_fmap.
  eapply Forall_forall in Hx; [|done].
  assert (x.1 ≠ y.1); [|lia].
  intros Heq. apply Hfresh. rewrite Heq. by apply list_elem_of_fmap_2.
Qed.

(** What [createRatingsChart] shows, in terms of the numbers behind the
    keys: the properties sorted by number, those below 800 left out. *)
Lemma createRatingsChart_numberKeyed properties :
  let shown := filter (λ property, (800 ≤ property.1)%Z)
                 (Array_sort (λ a b, (a.1 - b.1)%Z) properties) in
  createRatingsChart (numberKeyed properties)
  = {| labels := numberToString <$> shown.*1; data := shown.*2 |}.
Proof.
  intros shown. subst shown. unfold createRatingsChart, numberKeyed.
  rewrite Array_sort_fmap.
  rewrite (Array_sort_ext _ (λ a b, (a.1 - b.1)%Z)); last first.
  { intros a b. unfold compareRatings. simpl. by rewrite !parseInt_numberToString. }
  rewrite filter_fmap_bool.
  rewrite (list_filter_iff _ (λ property, (800 ≤ property.1)%Z)); last first.
  { intros a. unfold ratingShown. simpl. rewrite parseInt_numberToString.
    apply bool_decide_spec. }
  f_equal; rewrite <-!list_fmap_compose; by apply list_fmap_ext.
Qed.

Lemma counted_at_least_800 subs :
  length (filter (λ bucket, (800 ≤ bucket)%Z) (omap countedBucket subs))
  = countIf ratedAtLeast800 subs.
Proof.
  induction subs as [|s subs IH]; [done|].
  rewrite countIf_cons, <-IH. cbn [omap list_omap].
  unfold countedBucket at 1, ratedAtLeast800, truthyRating, ratingBucket.
  destruct (rating (problem s)) as [r|]; [|done].
  destruct (decide (r = 0%Z)) as [->|Hr]; simpl; [done|].
  rewrite filter_cons.
  pose proof (Z.div_mod r 100). pose proof (Z.mod_pos_bound r 100).
  destruct (decide (800 ≤ r `div` 100 * 100)%Z).
  - rewrite bool_decide_eq_true_2 by lia. done.
  - rewrite bool_decide_eq_false_2 by lia. done.
Qed.

(** X8. The ratings chart of a list of accepted submissions, whatever the
    order in which the object [ratings] lists its properties: the bars are
    the buckets from 800 upwards that count a submission, in strictly
    ascending order; the bar of a bucket counts the submissions whose rating
    falls in it; and the bars add up to the number of submissions rated 800
    or more, so unrated submissions and ratings below 800 are not on the
    chart. *)
Theorem createRatingsChart_of_submissions subs properties :
  properties ≡ₚ map_to_list (Stats.ratings (calculateProblemStats subs)) →
  ∃ shown,
    createRatingsChart (numberKeyed properties)
    = {| labels := numberToString <$> shown.*1; data := shown.*2 |} ∧
    StronglySorted Z.lt shown.*1 ∧
    (∀ bucket count,
       (bucket, count) ∈ shown ↔
       (800 ≤ bucket)%Z ∧ 0 < count ∧
       count = countIf (carriesNonZeroRatingIn bucket) subs) ∧
    sum_list (data (createRatingsChart (numberKeyed properties)))
    = countIf ratedAtLeast800 subs.
Proof.
  intros Hperm.
  set (shown := filter (λ property, (800 ≤ property.1)%Z)
                  (Array_sort (λ a b, (a.1 - b.1)%Z) properties)).
  pose proof (createRatingsChart_numberKeyed properties) as Hchart.
  cbv zeta in Hchart. fold shown in Hchart.
  assert (Stats.ratings (calculateProblemStats subs)
          = foldl increment ∅ (omap countedBucket subs)) as Hratings.
  { unfold calculateProblemStats. by rewrite ratings_foldl. }
  exists shown. split_and!.
  - exact Hchart.
  - unfold shown.
    assert (∀ l : list (Z * nat),
              (filter (λ property, (800 ≤ property.1)%Z) l).*1
              = filter (λ k, (800 ≤ k)%Z) l.*1) as ->.
    { intros l. induction l as [|x l IH]; csimpl; [done|].
      rewrite !filter_cons. case_decide; csimpl; by rewrite IH. }
    apply StronglySorted_filter, strictly_sorted_keys.
    + apply Array_sort_sorted; intros; lia.
    + rewrite Array_sort_Permutation, Hperm. apply NoDup_fst_map_to_list.
  - intros bucket count. unfold shown.
    rewrite list_elem_of_filter, Array_sort_Permutation, Hperm, elem_of_map_to_list.
    rewrite Hratings. simpl.
    assert (countOf (foldl increment ∅ (omap countedBucket subs)) bucket
            = countIf (carriesNonZeroRatingIn bucket) subs) as Hcount.
    { by rewrite countOf_foldl_increment, countOf_empty, filter_countedBucket. }
    pose proof (lookup_foldl_increment ∅ (omap countedBucket subs) bucket) as Hsome.
    rewrite lookup_empty in Hsome.
    assert (bucket ∈ omap countedBucket subs ↔
            0 < countIf (carriesNonZeroRatingIn bucket) subs) as Hin.
    { rewrite <-filter_countedBucket. apply elem_of_length_filter. }
    unfold countOf in Hcount. split.
    + intros [Hshown Hlookup]. rewrite Hlookup in Hcount. simpl in Hcount.
      split_and!; [done| |done]. rewrite Hcount. apply Hin.
      destruct Hsome as [Hsome _].
      destruct Hsome as [[? [=]]|?]; [by eexists|done].
    + intros (Hshown & Hpos & Hvalue). split; [done|].
      destruct Hsome as [_ Hsome]. destruct Hsome as [n Hn].
      { right. apply Hin. by rewrite <-Hvalue. }
      rewrite Hn in Hcount |- *. simpl in Hcount. by rewrite Hvalue, <-Hcount.
  - rewrite Hchart. simpl. unfold shown.
    rewrite Array_sort_Permutation, Hperm, Hratings.
    rewrite (shown_total_of_counted (λ k, (800 ≤ k)%Z)).
    apply counted_at_least_800.
Qed.

(** X8 on the example: the only bar is the bucket 1200, with one
    submission. *)
Lemma createRatingsChart_of_submissions_witness :
  sum_list (data (createRatingsChart
                    (numberKeyed
                       (map_to_list (Stats.ratings
                                       (calculateProblemStats [sub1A; sub2A]))))))
  = 1.
Proof.
  destruct (createRatingsChart_of_submissions [sub1A; sub2A]
              (map_to_list (Stats.ratings (calculateProblemStats [sub1A; sub2A]))))
    as (shown & _ & _ & _ & Htotal); [done|].
  rewrite Htotal. reflexivity.
Defined.

End ratings_chart.

(* ===================================================================== *)
(** * Rank colours *)
(* ===================================================================== *)

Section rank_colours.

Lemma toLowerCase_char_idemp c :
  toLowerCase_char (toLowerCase_char c) = toLowerCase_char c.
Proof. destruct c as [[] [] [] [] [] [] [] []]; reflexivity. Qed.

Lemma toLowerCase_idemp s : toLowerCase (toLowerCase s) = toLowerCase s.
Proof.
  induction s as [|c s IH]; [done|]. simpl. by rewrite toLowerCase_char_idemp, IH.
Qed.

Lemma toLowerCase_empty s : toLowerCase s = "" ↔ s = "".
Proof. by destruct s. Qed.

Lemma rankColors_lookup key color :
  list_to_map (M := gmap string string) rankColors !! key = Some color
  ↔ (key, color) ∈ rankColors.
Proof.
  symmetry. apply elem_of_list_to_map. by_evaluation.
Qed.

Lemma rankColors_truthy key color :
  (key, color) ∈ rankColors → color ≠ "" ∧ color ≠ "#gray".
Proof.
  assert (Forall (λ entry, entry.2 ≠ "" ∧ entry.2 ≠ "#gray") rankColors) as Hall
    by by_evaluation.
  intros Hin. by eapply Forall_forall in Hall; [|done].
Qed.

Lemma inherited_lower_case name :
  name ∈ inheritedNames → toLowerCase name = name →
  name ∈ ["constructor"; "__proto__"].
Proof.
  assert (Forall (λ name, toLowerCase name = name → name ∈ ["constructor"; "__proto__"])
            inheritedNames) as Hall by by_evaluation.
  intros Hin. by eapply Forall_forall in Hall; [|done].
Qed.

Lemma tier_not_inherited key :
  key ∈ rankColors.*1 → key ∉ ["constructor"; "__proto__"].
Proof.
  assert (Forall (λ key, key ∉ ["constructor"; "__proto__"]) rankColors.*1) as Hall
    by by_evaluation.
  intros Hin. by eapply Forall_forall in Hall; [|done].
Qed.

Lemma two_inherited name :
  name ∈ ["constructor"; "__proto__"] → name ∈ inheritedNames.
Proof.
  assert (Forall (λ name, name ∈ inheritedNames) ["constructor"; "__proto__"]) as Hall
    by by_evaluation.
  intros Hin. by eapply Forall_forall in Hall; [|done].
Qed.

(** X7. [getRankColor] does not tell upper case from lower case; it answers
    ["#gray"] exactly for an absent rank and for a rank that, in lower
    case, is none of the ten tiers and neither ["constructor"] nor
    ["__proto__"]; a text it answers is ["#gray"] or the colour of the tier;
    and for the two names left it answers the member the object
    [rankColors] inherits under that name. *)
Theorem getRankColor_spec (rank : option string) :
  getRankColor (toLowerCase <$> rank) = getRankColor rank ∧
  (getRankColor rank = Text "#gray" ↔
   match rank with
   | None => True
   | Some tier => (toLowerCase tier ∉ rankColors.*1) ∧
                  (toLowerCase tier ∉ ["constructor"; "__proto__"])
   end) ∧
  (∀ color, getRankColor rank = Text color →
     color = "#gray" ∨ ∃ tier, rank = Some tier ∧ (toLowerCase tier, color) ∈ rankColors) ∧
  (∀ name, getRankColor rank = Inherited name ↔
     ∃ tier, rank = Some tier ∧ toLowerCase tier = name ∧
             name ∈ ["constructor"; "__proto__"]).
Proof.
  destruct rank as [tier|]; unfold getRankColor.
  2:{ split; [done|]. split; [done|]. split; [intros color [= <-]; by left|].
      intros name. split; [done|by intros (? & ? & _)]. }
  change (toLowerCase <$> Some tier) with (Some (toLowerCase tier)).
  split.
  { destruct (decide (tier = "")) as [->|Htier]; [done|].
    rewrite decide_False by (by rewrite toLowerCase_empty).
    by rewrite toLowerCase_idemp. }
  destruct (decide (tier = "")) as [->|Htier].
  { split_and!.
    - split; [intros _; split; by_evaluation|done].
    - intros color [= <-]. by left.
    - intros name. split; [done|]. intros (? & [= <-] & <- & Hin).
      exfalso. revert Hin. by_evaluation. }
  unfold rankColors_get. set (key := toLowerCase tier).
  destruct (list_to_map rankColors !! key) as [color|] eqn:Hkey; simpl.
  - apply rankColors_lookup in Hkey.
    destruct (rankColors_truthy _ _ Hkey) as [Hempty Hgray].
    rewrite decide_False by done. split_and!.
    + split; [by intros [= ?]|]. intros [Hnot _]. exfalso. apply Hnot.
      by apply (list_elem_of_fmap_2 fst) in Hkey.
    + intros ? [= <-]. right. by exists tier.
    + intros name. split; [done|]. intros (? & [= <-] & <- & Hin).
      exfalso. apply (list_elem_of_fmap_2 fst) in Hkey.
      by apply tier_not_inherited in Hkey.
  - apply not_elem_of_list_to_map in Hkey.
    destruct (decide (key ∈ inheritedNames)) as [Hin|Hout]; simpl.
    + pose proof (inherited_lower_case key Hin (toLowerCase_idemp tier)) as Htwo.
      split_and!.
      * split; [done|]. by intros [_ ?].
      * done.
      * intros name. split; [intros [= <-]; by exists tier|].
        by intros (? & [= <-] & <- & _).
    + split_and!.
      * split; [|done]. intros _. split; [done|].
        intros Htwo. by apply Hout, two_inherited.
      * intros ? [= <-]. by left.
      * intros name. split; [done|]. intros (? & [= <-] & <- & Htwo).
        exfalso. by apply Hout, two_inherited.
Qed.

End rank_colours.

(* ===================================================================== *)
(** * The levels chart and the tags chart *)
(* ===================================================================== *)

Lemma StronglySorted_weaken {A} (R1 R2 : relation A) (l : list A) :
  (∀ x y, R1 x y → R2 x y) → StronglySorted R1 l → StronglySorted R2 l.
Proof.
  intros Himpl. induction 1 as [|x l Hl IH Hx]; constructor; [done|].
  eapply Forall_impl; [exact Hx|]. intros y. apply Himpl.
Qed.

Section levels_chart.

Context (localeCompare : string → string → Z).

Hypothesis localeCompare_total :
  ∀ a b, (localeCompare a b ≤ 0)%Z ∨ (localeCompare b a ≤ 0)%Z.
Hypothesis localeCompare_trans :
  ∀ a b c, (localeCompare a b ≤ 0)%Z → (localeCompare b c ≤ 0)%Z →
           (localeCompare a c ≤ 0)%Z.

Implicit Types (entries shown : list (string * Counter)) (subs : list Submission).

Lemma compareLevels_before (entry1 entry2 : string * Counter) :
  (compareLevels localeCompare entry1 entry2 ≤ 0)%Z
  ↔ (String_length entry1.1 < String_length entry2.1)%nat ∨
    (String_length entry1.1 = String_length entry2.1 ∧
     (localeCompare entry1.1 entry2.1 ≤ 0)%Z).
Proof.
  unfold compareLevels. cbv zeta. case_decide as Hlen.
  - split; [intros ?; left; lia|]. intros [?|[? _]]; [lia|done].
  - split; [intros ?; right; split; [lia|done]|]. intros [?|[_ ?]]; [lia|done].
Qed.

Lemma filter_fmap_eq {A B} `{EqDecision B} (f : A → B) (b : B) (l : list A) :
  length (filter (λ b', b' = b) (f <$> l)) = countIf (λ a, bool_decide (f a = b)) l.
Proof.
  induction l as [|a l IH]; [done|].
  rewrite countIf_cons, <-IH. csimpl. rewrite filter_cons.
  case_decide; case_bool_decide; done.
Qed.

Lemma filter_ownName_levels subs :
  length (filter ownName ((λ sub, index (problem sub)) <$> subs)) = countIf ownLevel subs.
Proof.
  induction subs as [|sub subs IH]; [done|].
  rewrite countIf_cons, <-IH. csimpl. rewrite filter_cons. unfold ownLevel at 1.
  case_decide; case_bool_decide; done.
Qed.

Lemma totalOf_Permutation (object1 object2 : PlainObject) :
  object1 ≡ₚ object2 → totalOf object1 = totalOf object2.
Proof. intros Hperm. unfold totalOf. by rewrite Hperm. Qed.

(** X9. The levels chart of a list of accepted submissions, whatever the
    order in which the object [levels] lists its properties: the bars are
    the levels of the submissions other than [__proto__], each once,
    shorter names first (by the number of UTF-16 code units) and names of
    one length in the order of [localeCompare]; the bar of a level holds
    the number of submissions of that level, as a number, or behind the
    text of the inherited member when the level is the name of one; and
    the numbers among the bars add up to the number of submissions whose
    level is not such a name: to the number of submissions, the figure
    shown as the number of problems solved, when no level is. *)
Theorem createLevelsChart_of_submissions subs entries :
  entries ≡ₚ Stats.levels (calculateProblemStats subs) →
  ∃ shown,
    createLevelsChart localeCompare entries
    = {| labels := shown.*1; data := shown.*2 |} ∧
    shown ≡ₚ entries ∧
    NoDup shown.*1 ∧
    StronglySorted
      (λ entry1 entry2,
         (String_length entry1.1 < String_length entry2.1)%nat ∨
         (String_length entry1.1 = String_length entry2.1 ∧
          (localeCompare entry1.1 entry2.1 ≤ 0)%Z)) shown ∧
    (∀ level value,
       (level, value) ∈ shown ↔
       level ≠ "__proto__" ∧ 0 < countIf (atLevel level) subs ∧
       value = valueAfter level (countIf (atLevel level) subs)) ∧
    totalOf shown = countIf ownLevel subs ∧
    (Forall (λ sub, ownName (index (problem sub))) subs → totalOf shown = length subs).
Proof.
  intros Hperm.
  assert (totalOf (Array_sort (compareLevels localeCompare) entries)
          = countIf ownLevel subs) as Htotal.
  { rewrite (totalOf_Permutation _ entries) by apply Array_sort_Permutation.
    rewrite (totalOf_Permutation _ _ Hperm), levels_counted, totalOf_counted.
    apply filter_ownName_levels. }
  exists (Array_sort (compareLevels localeCompare) entries). split_and!.
  - done.
  - apply Array_sort_Permutation.
  - rewrite Array_sort_Permutation, Hperm, levels_counted.
    apply foldl_incrementProperty_keys.
  - eapply StronglySorted_weaken;
      [|apply (Array_sort_sorted (compareLevels localeCompare))].
    + intros entry1 entry2. apply compareLevels_before.
    + intros entry1 entry2. rewrite !compareLevels_before.
      destruct (localeCompare_total entry1.1 entry2.1); lia.
    + intros entry1 entry2 entry3. rewrite !compareLevels_before.
      intros [?|[? ?]] [?|[? ?]]; [lia..|]. right. split; [lia|].
      by eapply localeCompare_trans.
  - intros level value.
    rewrite Array_sort_Permutation, Hperm, levels_counted, elem_of_counted.
    rewrite elem_of_length_filter, filter_fmap_eq. done.
  - exact Htotal.
  - intros Hown. rewrite Htotal. unfold countIf. rewrite filter_all; [done|].
    intros sub Hsub. eapply Forall_forall in Hown; [|done].
    unfold ownLevel. by apply bool_decide_eq_true.
Qed.

End levels_chart.

Section code_order.

Lemma codeCompare_le a b : (codeCompare a b ≤ 0)%Z ↔ String.le a b.
Proof.
  unfold codeCompare, String.le, String.leb.
  destruct (String.compare a b); simpl; split; (done || lia).
Qed.

Lemma codeCompare_total a b : (codeCompare a b ≤ 0)%Z ∨ (codeCompare b a ≤ 0)%Z.
Proof. rewrite !codeCompare_le. apply (total String.le). Qed.

Lemma codeCompare_trans a b c :
  (codeCompare a b ≤ 0)%Z → (codeCompare b c ≤ 0)%Z → (codeCompare a c ≤ 0)%Z.
Proof. rewrite !codeCompare_le. apply transitivity. Qed.

End code_order.

(** X9 on the example, with the order of the characters' codes: the one
    bar holds the two problems solved. *)
Lemma createLevelsChart_of_submissions_witness :
  data (createLevelsChart codeCompare
          (Stats.levels (calculateProblemStats [sub1A; sub2A])))
  = [Count 2] ∧
  totalOf (Stats.levels (calculateProblemStats [sub1A; sub2A])) = 2.
Proof.
  destruct (createLevelsChart_of_submissions codeCompare
              codeCompare_total codeCompare_trans [sub1A; sub2A]
              (Stats.levels (calculateProblemStats [sub1A; sub2A])))
    as (shown & Hchart & Hperm & _ & _ & _ & Htotal & _); [done|].
  split; [reflexivity|].
  by rewrite <-(totalOf_Permutation _ _ Hperm), Htotal.
Defined.

Section tags_chart.

Implicit Types (entries : list (string * Counter)) (subs : list Submission).
Implicit Types (shown hidden : list (string * nat)).

Lemma tagOccurrences_spec tag subs :
  length (filter (λ t, t = tag) (mjoin ((λ sub, tags (problem sub)) <$> subs)))
  = tagOccurrences tag subs.
Proof.
  unfold tagOccurrences. induction subs as [|s subs IH]; [done|].
  csimpl. by rewrite filter_app, length_app, IH.
Qed.

Lemma Array_slice0_take {A} (array : list A) (finish : Z) :
  (0 ≤ finish)%Z → Array_slice0 array finish = take (Z.to_nat finish) array.
Proof.
  intros Hfinish. unfold Array_slice0. cbv zeta. rewrite decide_False by lia.
  destruct (decide (finish ≤ Z.of_nat (length array))%Z).
  - by rewrite Z.min_l by lia.
  - rewrite Z.min_r, Nat2Z.id by lia. rewrite !take_ge; [done|lia|done].
Qed.

Lemma own_tags subs :
  Forall (λ sub, Forall ownName (tags (problem sub))) subs →
  Forall ownName (mjoin ((λ sub, tags (problem sub)) <$> subs)).
Proof.
  induction 1 as [|sub subs Htags _ IH]; csimpl; [constructor|]. by apply Forall_app.
Qed.

(** Properties whose counters all hold numbers. *)
Lemma counted_preimage entries :
  Forall (λ property, is_Some (numberOf property.2)) entries →
  ∃ numbered : list (string * nat), entries = counted <$> numbered.
Proof.
  induction 1 as [|[key value] entries [n Hn] _ [numbered ->]].
  - by exists [].
  - destruct value as [m|]; [|done]. by exists ((key, m) :: numbered).
Qed.

Lemma compareTags_counted (entry1 entry2 : string * nat) :
  compareTags (counted entry1) (counted entry2)
  = (Z.of_nat entry2.2 - Z.of_nat entry1.2)%Z.
Proof. done. Qed.

Lemma filter_counted (count : nat) (numbered : list (string * nat)) :
  filter (λ entry, entry.2 = Count count) (counted <$> numbered)
  = counted <$> filter (λ entry, entry.2 = count) numbered.
Proof.
  induction numbered as [|entry numbered IH]; [done|].
  csimpl. rewrite !filter_cons, IH. unfold counted at 1. simpl.
  destruct (decide (entry.2 = count)) as [->|Hne].
  - by rewrite decide_True by done.
  - by rewrite decide_False by congruence.
Qed.

(** X10. The tags chart of a list of accepted submissions none of whose
    tags is the name of a member every object inherits, for a limit that is
    not negative, whatever the order in which the object [tags] lists its
    properties: every bar holds a number; the chart shows [limit] tags, or
    all of them when there are fewer; the counts shown never increase from
    left to right and none of the tags left out has a greater count than a
    tag shown; among the tags of one count the chart follows the order of
    the properties, so that order alone decides which of them are left out;
    and the count of a tag is the number of times the submissions list
    it. *)
Theorem createTagsChart_top subs entries limit :
  entries ≡ₚ Stats.tags (calculateProblemStats subs) →
  Forall (λ sub, Forall ownName (tags (problem sub))) subs →
  (0 ≤ limit)%Z →
  ∃ shown hidden,
    createTagsChart entries limit
    = {| labels := shown.*1; data := Count <$> shown.*2 |} ∧
    counted <$> (shown ++ hidden) ≡ₚ entries ∧
    length shown = Z.to_nat limit `min` length entries ∧
    StronglySorted (λ entry1 entry2, (entry2.2 ≤ entry1.2)%nat) (shown ++ hidden) ∧
    (∀ count, counted <$> filter (λ entry, entry.2 = count) shown
              `prefix_of` filter (λ entry, entry.2 = Count count) entries) ∧
    (∀ tag count,
       (tag, count) ∈ shown ++ hidden ↔ 0 < count ∧ count = tagOccurrences tag subs).
Proof.
  intros Hperm Hown Hlimit. apply own_tags in Hown.
  assert (Forall (λ property, is_Some (numberOf property.2)) entries) as Hnumbers.
  { rewrite Hperm, tags_counted. by apply numbers_counted. }
  destruct (counted_preimage entries Hnumbers) as [numbered ->].
  set (compare := λ entry1 entry2 : string * nat,
                    (Z.of_nat entry2.2 - Z.of_nat entry1.2)%Z).
  assert (∀ x y z, (compare x y ≤ 0)%Z → (compare y z ≤ 0)%Z → (compare x z ≤ 0)%Z)
    as Htrans by (unfold compare; lia).
  set (sorted := Array_sort compare numbered).
  assert (Array_sort compareTags (counted <$> numbered) = counted <$> sorted) as Hsorted.
  { rewrite Array_sort_fmap. reflexivity. }
  exists (take (Z.to_nat limit) sorted), (drop (Z.to_nat limit) sorted).
  rewrite take_drop. split_and!.
  - unfold createTagsChart. cbv zeta. rewrite Array_slice0_take, Hsorted by done.
    rewrite <-fmap_take. f_equal; rewrite <-!list_fmap_compose; by apply list_fmap_ext.
  - unfold sorted. by rewrite Array_sort_Permutation.
  - rewrite length_take, length_fmap. unfold sorted. by rewrite Array_sort_length.
  - eapply StronglySorted_weaken; [|apply (Array_sort_sorted compare)].
    + intros entry1 entry2. unfold compare. lia.
    + intros entry1 entry2. unfold compare. lia.
    + exact Htrans.
  - intros count. rewrite filter_counted.
    assert (filter (λ entry : string * nat, entry.2 = count) sorted
            = filter (λ entry, entry.2 = count) numbered) as <-.
    { pose proof (Array_sort_stable compare Htrans ("", count) numbered) as Hstable.
      rewrite (list_filter_iff _ (λ entry : string * nat, entry.2 = count)) in Hstable
        by (intros entry; unfold compare; simpl; lia).
      rewrite (list_filter_iff _ (λ entry : string * nat, entry.2 = count) numbered)
        in Hstable by (intros entry; unfold compare; simpl; lia).
      exact Hstable. }
    exists (counted <$> filter (λ entry, entry.2 = count) (drop (Z.to_nat limit) sorted)).
    by rewrite <-fmap_app, <-filter_app, take_drop.
  - intros tag count. unfold sorted. rewrite Array_sort_Permutation.
    assert ((tag, count) ∈ numbered ↔ (tag, Count count) ∈ counted <$> numbered) as ->.
    { rewrite list_elem_of_fmap. split.
      - intros Hin. by exists (tag, count).
      - intros ([tag' count'] & [= -> ->] & Hin). done. }
    rewrite Hperm, tags_counted, elem_of_counted, tagOccurrences_spec.
    rewrite elem_of_length_filter, tagOccurrences_spec.
    assert (0 < tagOccurrences tag subs → ownName tag) as Hname.
    { rewrite <-tagOccurrences_spec, <-elem_of_length_filter. intros Hin.
      by eapply Forall_forall in Hown. }
    unfold valueAfter. split.
    + intros (_ & Hpos & Hvalue). rewrite decide_False in Hvalue by by apply Hname.
      injection Hvalue as ->. done.
    + intros [Hpos ->]. specialize (Hname Hpos). split_and!; [|done|].
      * intros ->. apply Hname, proto_inherited.
      * by rewrite decide_False by done.
Qed.

(** X10 on the example with the default limit: every tag is shown. *)
Lemma createTagsChart_top_witness :
  length (labels (createTagsChart
                    (Stats.tags (calculateProblemStats exampleSubmissions))
                    defaultLimit))
  = length (Stats.tags (calculateProblemStats exampleSubmissions)).
Proof.
  destruct (createTagsChart_top exampleSubmissions
              (Stats.tags (calculateProblemStats exampleSubmissions))
              defaultLimit)
    as (shown & hidden & Hchart & _ & Hlength & _); [done|by_evaluation|done|].
  rewrite Hchart. simpl. rewrite length_fmap, Hlength. vm_compute. reflexivity.
Defined.

End tags_chart.

(* ===================================================================== *)
(** * The contest table *)
(* ===================================================================== *)

Section contest_table.

Implicit Types (σ : heap) (history : ref) (items : list RatingChange).

(** X11. [updateContestTable] lists the contests the filter keeps from the
    last one to the first one, and the array it was given is as it was
    afterwards, like every other object: the reversal is done on a copy,
    also when the filter hands back the very array it was given. *)
Theorem updateContestTable_newest_first σ history items contestFilter :
  σ !! history = Some (RatingArray items) →
  runsTo (updateContestTableAt history contestFilter) σ
    (λ rows σ',
       rows = tableRow <$> reverse (filterContestsByType items contestFilter) ∧
       σ' !! history = Some (RatingArray items)).
Proof.
  intros Hhistory.
  destruct (filterContestsByTypeAt_spec σ history items contestFilter Hhistory)
    as (filtered & σ1 & Hfilter & Hgrows & Hfiltered & _).
  set (kept := filterContestsByType items contestFilter) in *.
  destruct (allocate_spec (RatingArray kept) σ1) as (copy & Hcopy & Hfresh).
  exists (tableRow <$> reverse kept), (<[copy := RatingArray (reverse kept)]> σ1).
  assert (σ ⊆ <[copy := RatingArray (reverse kept)]> σ1) as Hsub.
  { etrans; [exact Hgrows|]. by apply insert_subseteq. }
  split_and!; [|done|done|by eapply lookup_weaken].
  unfold updateContestTableAt. unfold mbind at 1, Run_bind at 1. rewrite Hfilter.
  unfold mbind at 1, Run_bind at 1. unfold Array_slice.
  unfold mbind at 1, Run_bind at 1. rewrite (readRatingArray_spec _ _ _ Hfiltered).
  rewrite Hcopy.
  unfold mbind at 1, Run_bind at 1. unfold Array_reverse. rewrite lookup_insert_eq.
  rewrite insert_insert_eq.
  unfold mbind, Run_bind.
  rewrite (readRatingArray_spec copy _ (reverse kept)) by by rewrite lookup_insert_eq.
  done.
Qed.

(** X11 on the example heap: the table of the example history. *)
Lemma updateContestTable_newest_first_witness :
  runsTo (updateContestTableAt 0 "All") {[ 0 := RatingArray exampleHistory ]}
    (λ rows σ',
       rows = tableRow <$> reverse (filterContestsByType exampleHistory "All") ∧
       σ' !! 0 = Some (RatingArray exampleHistory)).
Proof.
  apply (updateContestTable_newest_first {[ 0 := RatingArray exampleHistory ]} 0).
  reflexivity.
Defined.

Lemma numberToString_digits (n : Z) :
  (0 ≤ n)%Z →
  ∃ c r, numberToString n = String c r ∧ allDigits (String c r) = true.
Proof.
  intros Hn. unfold numberToString, pretty, pretty_Z.
  destruct n as [|p|p]; [by exists "0"%char, ""| |lia].
  change (pretty p) with (pretty (N.pos p)).
  unfold pretty, pretty_N. rewrite decide_False by done.
  destruct (pretty_N_go_parse (N.pos p) "") as (d & Hgo & Hd & _ & Hne).
  rewrite app_empty_r in Hgo. rewrite Hgo.
  destruct d as [|c r]; [by destruct Hne|]. by exists c, r.
Qed.

Lemma parseUnsigned_numberToString (n : Z) :
  (0 ≤ n)%Z → parseUnsigned (numberToString n) = Some n.
Proof.
  intros Hn. pose proof (parseInt_numberToString n) as Hparse.
  destruct (numberToString_digits n Hn) as (c & r & Heq & Hd).
  rewrite Heq in Hparse |- *. unfold parseInt in Hparse.
  pose proof Hd as [Hc%bool_decide_eq_true _]%andb_prop.
  destruct (digit_facts c Hc) as (Hspace & ? & ? & _).
  simpl in Hparse. rewrite Hspace in Hparse.
  by rewrite !decide_False in Hparse by done.
Qed.

(** X12. The cell of the rating change carries its sign: it starts with the
    sign [+] exactly when the rating did not go down, this is when its class
    is [positive], and read as a number it is the new rating less the old
    one. *)
Theorem tableRow_delta (contest : RatingChange) :
  parseInt (deltaText (tableRow contest))
  = Some (RC.newRating contest - RC.oldRating contest)%Z ∧
  (startsWith (deltaText (tableRow contest)) "+" = true
   ↔ (RC.oldRating contest ≤ RC.newRating contest)%Z) ∧
  (deltaClass (tableRow contest) = "positive"
   ↔ (RC.oldRating contest ≤ RC.newRating contest)%Z) ∧
  (deltaClass (tableRow contest) = "negative"
   ↔ (RC.newRating contest < RC.oldRating contest)%Z).
Proof.
  unfold tableRow. cbv zeta. simpl.
  assert (∀ delta, (delta < 0)%Z → startsWith (numberToString delta) "+" = false)
    as Hminus.
  { intros delta Hdelta. unfold numberToString, pretty, pretty_Z.
    destruct delta as [|p|p]; [lia..|]. by rewrite app_cons, app_empty_l. }
  destruct (decide (0 ≤ RC.newRating contest - RC.oldRating contest)%Z)
    as [Hdelta|Hdelta].
  - split_and!.
    + rewrite app_cons, app_empty_l. unfold parseInt. simpl.
      by apply parseUnsigned_numberToString.
    + rewrite app_cons, app_empty_l. simpl. split; [lia|]. intros _.
      by destruct (numberToString _).
    + split; [lia|done].
    + split; [done|lia].
  - split_and!.
    + apply parseInt_numberToString.
    + rewrite Hminus by lia. split; [done|lia].
    + split; [done|lia].
    + split; [lia|done].
Qed.

End contest_table.

(* ===================================================================== *)
(** * The comparison chart *)
(* ===================================================================== *)

Section comparison_chart.

(** X13. The labels of the comparison chart are the numbers 1, 2, ... up
    to the greater of the two arguments' [length], and there is none as
    soon as an argument has no such property. The objects [compareUsers]
    hands over have the properties [name] and [ratings] only: every
    comparison it shows is drawn without a label, whatever the length of
    the two rating series, which are the new ratings of the two histories. *)
Theorem createComparisonChart_labels :
  (∀ user1Data user2Data i label,
     chartLabels (createComparisonChart user1Data user2Data) !! i = Some label
     ↔ label = (Z.of_nat i + 1)%Z ∧
       ∃ n1 n2, Series.length user1Data = Some n1 ∧ Series.length user2Data = Some n2 ∧
                (Z.of_nat i < Z.max n1 n2)%Z) ∧
  (∀ user1 user2 user1Rating user2Rating,
     let chart := createComparisonChart (seriesOf user1 user1Rating)
                                        (seriesOf user2 user2Rating) in
     chartLabels chart = [] ∧
     data1 chart = RC.newRating <$> user1Rating ∧
     data2 chart = RC.newRating <$> user2Rating) ∧
  (∀ handle1 handle2 info1 rating1 status1 info2 rating2 status2 chart,
     comparisonChartOf (compareUsers handle1 handle2 info1 rating1 status1
                                     info2 rating2 status2) = Some chart →
     chartLabels chart = []).
Proof.
  split_and!.
  - intros d1 d2 i label. unfold createComparisonChart. simpl.
    destruct (Series.length d1) as [n1|], (Series.length d2) as [n2|]; simpl.
    + rewrite list_lookup_fmap. split.
      * intros Hlabel. destruct (seq 0 (Z.to_nat (n1 `max` n2)) !! i) as [j|] eqn:Hj;
          [|done].
        apply lookup_seq in Hj as [-> Hi]. injection Hlabel as <-.
        split; [done|]. exists n1, n2. split_and!; [done..|lia].
      * intros (-> & m1 & m2 & [= <-] & [= <-] & Hi).
        rewrite (lookup_seq_lt 0 (Z.to_nat (n1 `max` n2)) i) by lia. done.
    + split; [done|]. by intros (_ & ? & ? & _ & [=] & _).
    + split; [done|]. by intros (_ & ? & ? & [=] & _).
    + split; [done|]. by intros (_ & ? & ? & [=] & _).
  - done.
  - intros handle1 handle2 info1 rating1 status1 info2 rating2 status2 chart.
    destruct (compareUsers _ _ _ _ _ _ _ _); simpl; [done..|].
    by intros [= <-].
Qed.

End comparison_chart.

(* ===================================================================== *)
(** * The session *)
(* ===================================================================== *)

Section session.

Lemma lookup_settles {T} (q : Lookup T) :
  (∃ result, lookupReturns q result) ∨ (∃ message, lookupFails q message).
Proof.
  unfold lookupReturns, lookupFails.
  destruct (fetchWithRetry_settles (responses q) defaultRetries)
    as (events & _ & [[result ->]|[message ->]]); [done|eauto..].
Qed.

(** X14. What [analyzeUser] leaves in the session. A blank handle and a
    profile or submission query that fails for good leave the three
    variables as they were, so the data of the user shown before stays
    current while the error is on the page. Once the queries are
    fulfilled the three variables are replaced together: by the user, the
    submissions as received and the history seen when a view is shown; and
    when the profile query returns no user at all, the [TypeError] of the
    rendering is shown with [currentUser] left undefined and the other two
    replaced. *)
Theorem analyzeUser_session before handle info rating status :
  let after := analyzeUserSession before handle info rating status in
  match analyzeUser handle info rating status with
  | InvalidHandle => after = before
  | AnalysisFailed (Error message) =>
      after = before ∧ (lookupFails info message ∨ lookupFails status message)
  | AnalysisFailed TypeError =>
      lookupReturns info [] ∧
      ∃ history submissions,
        historySeen rating history ∧ lookupReturns status submissions ∧
        after = {| currentUser := None;
                   currentUserSubmissions := Some submissions;
                   currentUserRatingHistory := Some history |}
  | AnalysisShown user history accepted _ _ =>
      ∃ users submissions,
        lookupReturns info (user :: users) ∧ historySeen rating history ∧
        lookupReturns status submissions ∧
        accepted = processSubmissions submissions ∧
        after = {| currentUser := Some user;
                   currentUserSubmissions := Some submissions;
                   currentUserRatingHistory := Some history |}
  end.
Proof.
  cbv zeta. unfold analyzeUser, analyzeUserSession.
  destruct (isBlank handle); [done|].
  unfold userQueries, Promise_all3, Promise_all2, getUserInfo, getUserRating,
    getUserSubmissions, getArray, catchEmpty, historySeen.
  destruct (lookup_settles info) as [[users Hinfo]|[e1 Hinfo]];
    destruct (lookup_settles rating) as [[history Hrating]|[e2 Hrating]];
    destruct (lookup_settles status) as [[submissions Hstatus]|[e3 Hstatus]];
    pose proof Hinfo as Hinfo'; pose proof Hrating as Hrating';
    pose proof Hstatus as Hstatus';
    unfold lookupReturns, lookupFails in Hinfo', Hrating', Hstatus';
    simpl; rewrite Hinfo', Hrating', Hstatus'; simpl;
    repeat case_decide; simpl;
    try (destruct users as [|user users]; simpl);
    eauto 12.
Qed.

End session.

(* ===================================================================== *)
(** * The time window on a chronological history *)
(* ===================================================================== *)

Section chronological.

Implicit Types (h : list RatingChange) (c : RatingChange).

(** X15. On a history in chronological order, as the service lists it,
    the time-window filter keeps the end of the history: the contests it
    drops come first and are all older than every contest it keeps, so the
    rating chart of a window is the last stretch of the whole chart. *)
Theorem filterRatingHistoryByTime_keeps_latest nowMs h timeFrame :
  StronglySorted
    (λ c1 c2, (RC.ratingUpdateTimeSeconds c1 ≤ RC.ratingUpdateTimeSeconds c2)%Z) h →
  ∃ dropped,
    h = dropped ++ filterRatingHistoryByTime nowMs h timeFrame ∧
    ∀ c1 c2, c1 ∈ dropped → c2 ∈ filterRatingHistoryByTime nowMs h timeFrame →
             (RC.ratingUpdateTimeSeconds c1 < RC.ratingUpdateTimeSeconds c2)%Z.
Proof.
  rewrite filterRatingHistoryByTime_filter.
  assert (∀ c1 c2,
            (RC.ratingUpdateTimeSeconds c1 ≤ RC.ratingUpdateTimeSeconds c2)%Z →
            insideTimeFrame nowMs timeFrame c1 → insideTimeFrame nowMs timeFrame c2)
    as Hmono.
  { intros c1 c2 Hle. unfold insideTimeFrame.
    destruct (timeWindow timeFrame) as [window|]; [|done].
    unfold withinWindow. rewrite !bool_decide_spec. lia. }
  assert (∀ c1 c2, ¬ insideTimeFrame nowMs timeFrame c1 →
                   insideTimeFrame nowMs timeFrame c2 →
            (RC.ratingUpdateTimeSeconds c1 < RC.ratingUpdateTimeSeconds c2)%Z)
    as Hbefore.
  { intros c1 c2 Hout Hin.
    destruct (decide (RC.ratingUpdateTimeSeconds c1 < RC.ratingUpdateTimeSeconds c2)%Z);
      [done|].
    exfalso. apply Hout. apply (Hmono c2 c1); [lia|done]. }
  induction 1 as [|c h Hsorted IH Hc].
  { exists []. split; [done|]. by intros ? ? ?%elem_of_nil. }
  rewrite filter_cons. case_decide as Hin.
  - exists []. split.
    + simpl. f_equal. symmetry. apply filter_all. intros c' Hc'.
      eapply Forall_forall in Hc; [|done]. by eapply Hmono.
    + by intros ? ? ?%elem_of_nil.
  - destruct IH as (dropped & Hsplit & Hdropped). exists (c :: dropped). split.
    + simpl. by f_equal.
    + intros c1 c2 [->|Hc1]%elem_of_cons Hc2; [|by apply Hdropped].
      apply Hbefore; [done|]. by apply list_elem_of_filter in Hc2 as [? _].
Qed.

End chronological.

(** X15 on the example history with a clock that leaves the last contest
    alone inside the six-month window. *)
Lemma filterRatingHistoryByTime_keeps_latest_witness :
  ∃ dropped,
    exampleHistory
    = dropped ++ filterRatingHistoryByTime 1704552000000 exampleHistory "6M" ∧
    ∀ c1 c2, c1 ∈ dropped →
             c2 ∈ filterRatingHistoryByTime 1704552000000 exampleHistory "6M" →
             (RC.ratingUpdateTimeSeconds c1 < RC.ratingUpdateTimeSeconds c2)%Z.
Proof.
  apply (filterRatingHistoryByTime_keeps_latest 1704552000000 exampleHistory "6M").
  repeat constructor; vm_compute; discriminate.
Defined.
